(** * Output reconciliation of the protoc builder (go/tools/builders/protoc.go)

    The development embeds the part of [run] that starts once the protobuf
    compiler has returned: the construction of the file map (lines 110-127),
    the walk over the temporary directory (lines 129-176) and the emission
    loop (lines 177-205).

    The [*genFileInfo] pointers of the source are kept as pointers: every
    record lives in a heap (a list indexed by address), and the two Go maps
    [files] and [byBase] hold addresses, so that a record reachable from both
    maps is one shared object. *)

From Stdlib Require Import Ascii String.
From stdpp Require Import base strings list gmap.

Open Scope string_scope.
Open Scope list_scope.

(** ** Pieces of the Go standard library *)

Module Go.

(** [syscall.Errno], as far as [os.IsExist] tells them apart. *)
Inductive Errno := EEXIST | ENOTEMPTY | EACCES | ENOENT | ENOSPC | EINVAL.

(** The [error] interface: [*os.PathError] and [errors.New]. *)
Inductive error :=
| PathError (op : string) (path : string) (errno : Errno)
| errorString (s : string).

(** [os.IsExist]; the nil error is not an "already exists" error. *)
Definition IsExist (err : option error) : bool :=
  match err with
  | Some (PathError _ _ EEXIST) | Some (PathError _ _ ENOTEMPTY) => true
  | _ => false
  end.

Definition isPathSeparator (c : ascii) : bool := Ascii.eqb c "/"%char.

Fixpoint dropSeparators (l : list ascii) : list ascii :=
  match l with
  | c :: l' => if isPathSeparator c then dropSeparators l' else l
  | [] => []
  end.

Fixpoint takeElement (l : list ascii) : list ascii :=
  match l with
  | c :: l' => if isPathSeparator c then [] else c :: takeElement l'
  | [] => []
  end.

(** [filepath.Base] on a system whose separator is the slash and whose
    volume names are empty. The two loops of the source run from the end
    of the string, hence the reversed list. *)
Definition Base (path : string) : string :=
  if String.eqb path "" then "."
  else
    let stripped := dropSeparators (rev (list_ascii_of_string path)) in
    let elem := rev (takeElement stripped) in
    match elem with
    | [] => "/"
    | _ => string_of_list_ascii elem
    end.

(** [strings.HasSuffix]. *)
Definition HasSuffix (s suffix : string) : bool :=
  let n := String.length s in
  let m := String.length suffix in
  (m <=? n)%nat && String.eqb (substring (n - m) m s) suffix.

End Go.

Import Go.

(** ** The data model *)

(** Addresses of [genFileInfo] objects. *)
Abbreviation ptr := nat (only parsing).

Record genFileInfo := GenFileInfo {
  base : string;        (* The basename of the path *)
  path : string;        (* The full path to the final file *)
  expected : bool;      (* Whether the file is expected by the rules *)
  created : bool;       (* Whether the file was created by protoc *)
  from : option ptr;    (* The actual file protoc produced if not Path *)
  unique : bool;        (* True if this base name is unique in expected results *)
  ambiguious : bool     (* True if there were more than one possible outputs *)
}.

Definition set_created (v : bool) (f : genFileInfo) : genFileInfo :=
  GenFileInfo (base f) (path f) (expected f) v (from f) (unique f) (ambiguious f).
Definition set_from (v : option ptr) (f : genFileInfo) : genFileInfo :=
  GenFileInfo (base f) (path f) (expected f) (created f) v (unique f) (ambiguious f).
Definition set_unique (v : bool) (f : genFileInfo) : genFileInfo :=
  GenFileInfo (base f) (path f) (expected f) (created f) (from f) v (ambiguious f).
Definition set_ambiguious (v : bool) (f : genFileInfo) : genFileInfo :=
  GenFileInfo (base f) (path f) (expected f) (created f) (from f) (unique f) v.
Definition set_expected (v : bool) (f : genFileInfo) : genFileInfo :=
  GenFileInfo (base f) (path f) v (created f) (from f) (unique f) (ambiguious f).

(** The store: the objects allocated so far and the two maps of [run]. *)
Record state := State {
  heap : list genFileInfo;
  files : gmap string ptr;
  byBase : gmap string ptr
}.

Definition initial : state := State [] ∅ ∅.

(** [&genFileInfo{...}]: the new object gets the next free address. *)
Definition alloc (f : genFileInfo) (h : list genFileInfo) : ptr * list genFileInfo :=
  (List.length h, h ++ [f]).

(** ** Lines 113-127: the file map *)

Definition register (st : state) (p : string) : state :=
  let info := GenFileInfo (Base p) p true false None true false in
  let '(a, h) := alloc info (heap st) in
  let fs := <[p := a]> (files st) in
  match byBase st !! Base p with
  | Some b =>
      State (alter (set_unique false) b (alter (set_unique false) a h)) fs (byBase st)
  | None =>
      State h fs (<[Base p := a]> (byBase st))
  end.

Definition buildFileMap (expectedPaths : list string) : state :=
  fold_left register expectedPaths initial.

(** ** Lines 129-176: the walk *)

(** One call of the walk function by [filepath.Walk]. The entry carries what
    the operating system answers during that call: the result of
    [filepath.Rel(tmpDir, path)], whether [f.IsDir()], and, for a directory,
    the result of [os.Mkdir(filepath.Join(absOutPath, relPath), f.Mode())]. *)
Record entry := Entry {
  e_path : string;
  e_rel : string + error;
  e_isDir : bool;
  e_mkdir : option error
}.

Definition walkFn (st : state) (e : entry) : state * option error :=
  match e_rel e with
  | inr err => (st, Some err)
  | inl relPath =>
    if String.eqb relPath "." then (st, None)
    else if e_isDir e then
      (if negb (IsExist (e_mkdir e)) then (st, e_mkdir e) else (st, None))
    else if negb (HasSuffix (e_path e) ".go") then (st, None)
    else
      let '(info, h) :=
        alloc (GenFileInfo (Base (e_path e)) (e_path e) false true None false false)
              (heap st) in
      match files st !! relPath with
      | Some foundInfo =>
          (State (alter (fun f => set_from (Some info) (set_created true f)) foundInfo h)
                 (files st) (byBase st), None)
      | None =>
          let fs := <[relPath := info]> (files st) in
          match byBase st !! Base (e_path e) with
          | None => (State h fs (byBase st), None)
          | Some copyTo =>
              match h !! copyTo with
              | None => (State h fs (byBase st), None)
              | Some c =>
                  if negb (unique c) then (State h fs (byBase st), None)
                  else if bool_decide (from c ≠ None) then
                    (State (alter (set_ambiguious true) info
                              (alter (set_ambiguious true) copyTo h))
                           fs (byBase st), None)
                  else
                    (State (alter (set_expected true) info
                              (alter (fun f => set_created true (set_from (Some info) f))
                                     copyTo h))
                           fs (byBase st), None)
              end
          end
      end
  end.

(** [filepath.Walk]: the entries are visited in order, and the first error
    returned by the walk function ends the walk and is its result. *)
Fixpoint walk (st : state) (es : list entry) : state * option error :=
  match es with
  | [] => (st, None)
  | e :: es' =>
      match walkFn st e with
      | (st', None) => walk st' es'
      | (st', Some err) => (st', Some err)
      end
  end.

(** ** Lines 177-205: emission *)

Definition placeholder : string := "// +build ignore

package ignore".

Section Emission.

(** The surroundings of the emission loop: [abs] (a helper of the builders
    package, defined outside protoc.go), the content [ioutil.ReadFile]
    finds, the result of [ioutil.WriteFile] at a path, the [%q] verb of
    [fmt], and the [-importpath] flag. *)
Variable abs : string → string.
Variable readFile : string → string + error.
Variable writeFile : string → option error.
Variable quote : string → string.
Variable importpath : string.

(** A file written at the final location. *)
Definition write : Type := string * string.

Definition hint : string :=
  "Check that the go_package option is " +:+ quote importpath +:+ ".".

Definition ambiguityLine (p : string) : string :=
  "Ambiguious output " +:+ p +:+ "." +:+ String "010"%char "".

(** The switch of the loop body. It returns the files written, the buffer
    and the error returned from inside the switch, if any. *)
Definition emitSwitch (h : list genFileInfo) (f : genFileInfo) (buf : string)
  : list write * string * option error :=
  if expected f && negb (created f) then
    match writeFile (abs (path f)) with
    | Some err => ([], buf, Some err)
    | None => ([(abs (path f), placeholder)], buf, None)
    end
  else if expected f && ambiguious f then
    ([], buf +:+ ambiguityLine (path f), None)
  else
    match from f with
    | Some src =>
        match readFile (default "" (path <$> h !! src)) with
        | inr err => ([], buf, Some err)
        | inl data =>
            match writeFile (abs (path f)) with
            | Some err => ([], buf, Some err)
            | None => ([(abs (path f), data)], buf, None)
            end
        end
    | None =>
        if negb (expected f) then ([], buf, None) (* unexpected output *)
        else ([], buf, None)
    end.

(** The loop over [files], in the order [order] in which the Go runtime
    happens to enumerate the keys of the map. *)
Fixpoint emitLoop (st : state) (order : list string) (buf : string)
  : list write * option error :=
  match order with
  | [] => ([], None)
  | k :: order' =>
      match files st !! k ≫= (fun a => heap st !! a) with
      | None => emitLoop st order' buf
      | Some f =>
          match emitSwitch (heap st) f buf with
          | (ws, buf', Some err) => (ws, Some err)
          | (ws, buf', None) =>
              if negb (String.eqb buf' "") then
                (ws, Some (errorString (buf' +:+ hint)))
              else
                let '(ws', r) := emitLoop st order' buf' in (ws ++ ws', r)
          end
      end
  end.

(** [run], from line 110 on. The result of [filepath.Walk] is not bound to
    anything in the source. *)
Definition run (expectedPaths : list string) (es : list entry) (order : list string)
  : list write * option error :=
  let st := buildFileMap expectedPaths in
  let '(st', _) := walk st es in
  emitLoop st' order "".

(** The outcomes of the switch that let the loop go on. *)
Inductive emitted (h : list genFileInfo) (f : genFileInfo) : list write → Prop :=
| emitted_placeholder :
    expected f = true → created f = false →
    writeFile (abs (path f)) = None →
    emitted h f [(abs (path f), placeholder)]
| emitted_copy src data :
    expected f && negb (created f) = false →
    expected f && ambiguious f = false →
    from f = Some src →
    readFile (default "" (path <$> h !! src)) = inl data →
    writeFile (abs (path f)) = None →
    emitted h f [(abs (path f), data)]
| emitted_nothing :
    expected f && negb (created f) = false →
    expected f && ambiguious f = false →
    from f = None →
    emitted h f [].

(** An enumeration order of a map: every key, once. *)
Definition iteration_order (st : state) (order : list string) : Prop :=
  NoDup order ∧ list_to_set order =@{gset string} dom (files st).

End Emission.

(** The state of the registry when the emission loop starts. *)
Definition reconciled (expectedPaths : list string) (es : list entry) : state :=
  (walk (buildFileMap expectedPaths) es).1.

(** Whether a list is an enumeration order can be computed. *)
Instance iteration_order_dec st order : Decision (iteration_order st order).
Proof. unfold iteration_order. apply _. Defined.

(** ** Predicates and functions of the proofs *)

Definition fresh (p : string) : genFileInfo :=
  GenFileInfo (Base p) p true false None true false.

(** What the registration loop has established after the paths [l]: the
    object of the [i]-th path is at address [i]; [files] holds, for every
    path, the address of its last registration, [byBase], for every
    basename, the address of its first; an object is [unique] exactly when
    no other registration has its basename. *)
Record registered (l : list string) (st : state) : Prop := {
  reg_length : length (heap st) = length l;
  reg_cell : ∀ i p, l !! i = Some p →
    ∃ f, heap st !! i = Some f ∧ set_unique true f = fresh p ∧
      (unique f = true ↔ ∀ j p', l !! j = Some p' → Base p' = Base p → j = i);
  reg_files : ∀ k i, files st !! k = Some i →
    l !! i = Some k ∧ ∀ j, i < j → l !! j ≠ Some k;
  reg_files_None : ∀ k, files st !! k = None → k ∉ l;
  reg_byBase : ∀ b i, byBase st !! b = Some i →
    ∃ p, l !! i = Some p ∧ Base p = b;
  reg_byBase_None : ∀ b, byBase st !! b = None → ∀ p, p ∈ l → Base p ≠ b
}.

(** The relative path of an entry that reaches line 149: a regular file
    below the root whose path ends in [.go]. *)
Definition generated (e : entry) : option string :=
  match e_rel e with
  | inl r =>
      if String.eqb r "." || e_isDir e || negb (HasSuffix (e_path e) ".go")
      then None else Some r
  | inr _ => None
  end.

(** What one call makes of the object at address [a]. *)
Definition cell_after (st : state) (e : entry) (a : ptr) (f : genFileInfo)
  : genFileInfo :=
  match generated e with
  | None => f
  | Some r =>
      match files st !! r with
      | Some found =>
          if decide (a = found)
          then set_from (Some (length (heap st))) (set_created true f) else f
      | None =>
          match byBase st !! Base (e_path e) with
          | Some copyTo =>
              if decide (a = copyTo) then
                if unique f then
                  match from f with
                  | Some _ => set_ambiguious true f
                  | None => set_created true (set_from (Some (length (heap st))) f)
                  end
                else f
              else f
          | None => f
          end
      end
  end.

(** Every address held by a map or a [from] field is allocated. *)
Record wf (st : state) : Prop := {
  wf_files : ∀ k a, files st !! k = Some a → a < length (heap st);
  wf_byBase : ∀ b a, byBase st !! b = Some a → a < length (heap st);
  wf_from : ∀ a f s, heap st !! a = Some f → from f = Some s → s < length (heap st)
}.

(** The record [f'] is [f] once an exact match with the generated file of
    the entry [e] has been recorded in it, [src] being the object of that
    file in the heap [h]. *)
Definition exact_match (h : list genFileInfo) (e : entry) (p : string)
    (f f' : genFileInfo) : Prop :=
  generated e = Some p ∧
  ∃ src g, f' = set_from (Some src) (set_created true f) ∧
           h !! src = Some g ∧ path g = e_path e.

(** The object at [src] in [h] is the one allocated for the generated
    file of [e]. *)
Definition source_of (h : list genFileInfo) (src : ptr) (e : entry) : Prop :=
  ∃ g, h !! src = Some g ∧ path g = e_path e.

(** A generated file with the basename [b]. *)
Definition candidate (b : string) (e : entry) : Prop :=
  is_Some (generated e) ∧ Base (e_path e) = b.

#[global] Instance candidate_dec b e : Decision (candidate b e).
Proof. unfold candidate. apply _. Defined.

(** The object allocated for a generated file, as the call leaves it. *)
Definition new_cell (st : state) (e : entry) : genFileInfo :=
  let info := GenFileInfo (Base (e_path e)) (e_path e) false true None false false in
  match generated e ≫= (λ r, files st !! r) with
  | Some _ => info
  | None =>
      match byBase st !! Base (e_path e) ≫= (λ copyTo, heap st !! copyTo) with
      | Some c =>
          if unique c then
            match from c with
            | Some _ => set_ambiguious true info
            | None => set_expected true info
            end
          else info
      | None => info
      end
  end.

(** Addresses at and after [n] move up by one. *)
Definition shift (n q : ptr) : ptr := if decide (q < n) then q else S q.

Definition shift_cell (n : ptr) (f : genFileInfo) : genFileInfo :=
  set_from (shift n <$> from f) f.

(** [s1] is [s2] with one more object, at address [n], which [files]
    holds under the key [r], which is not expected and has no source. *)
Record dropped (n : ptr) (r : string) (s1 s2 : state) : Prop := {
  dr_length : length (heap s1) = S (length (heap s2));
  dr_bound : (n ≤ length (heap s2))%nat;
  dr_heap : ∀ q, heap s1 !! shift n q = shift_cell n <$> heap s2 !! q;
  dr_cell : ∃ g, heap s1 !! n = Some g ∧ expected g = false ∧ from g = None;
  dr_files : files s1 = <[r := n]> (shift n <$> files s2);
  dr_fresh : files s2 !! r = None;
  dr_byBase : byBase s1 = shift n <$> byBase s2;
  dr_wf1 : wf s1;
  dr_wf2 : wf s2
}.

(** ** Predicates of the further properties *)

(** [byBase] holds the first registration of a basename. *)
Definition firsts (l : list string) (st : state) : Prop :=
  ∀ b i, byBase st !! b = Some i →
    ∀ j q, j < i → l !! j = Some q → Base q ≠ b.

(** What the walk keeps true of the record of an expected path. *)
Definition settled (f : genFileInfo) : Prop :=
  (created f = true ↔ is_Some (from f)) ∧
  (ambiguious f = true → unique f = true ∧ created f = true).

(** The objects allocated during the walk are never both expected and
    ambiguous. *)
Definition scratch_flags (n : nat) (st : state) : Prop :=
  wf st ∧ (∀ b a, byBase st !! b = Some a → a < n) ∧
  ∀ a f, (n ≤ a)%nat → heap st !! a = Some f → expected f && ambiguious f = false.

(** The records that [files] holds for generated files have no source, as
    long as no relative path is visited twice. *)
Definition scratch_records (n : nat) (st : state) (seen : list string) : Prop :=
  ∀ k a, files st !! k = Some a → (n ≤ a)%nat →
    k ∈ seen ∧ ∃ f, heap st !! a = Some f ∧ from f = None ∧ created f = true.

(** Every source is the object of a generated file that the walk visited. *)
Definition sources_from (st : state) (visited : list entry) : Prop :=
  ∀ a f src, heap st !! a = Some f → from f = Some src →
    ∃ e, e ∈ visited ∧ is_Some (generated e) ∧ source_of (heap st) src e.

(** No object is ambiguous, and [files] has a key for every path of [l]. *)
Definition unambiguous (l : list string) (st : state) : Prop :=
  wf st ∧ (∀ p, p ∈ l → is_Some (files st !! p)) ∧
  ∀ a f, heap st !! a = Some f → ambiguious f = false.

(** ** Concrete scratch trees and a concrete file system *)

Module Scenario.

Definition tmpDir : string := "/tmp/go_proto123".

(** The calls [filepath.Walk] makes for the root, a directory and a
    regular file of the temporary directory. *)
Definition root : entry := Entry tmpDir (inl ".") true None.
Definition dir (r : string) : entry :=
  Entry (tmpDir +:+ "/" +:+ r) (inl r) true None.
Definition file (r : string) : entry :=
  Entry (tmpDir +:+ "/" +:+ r) (inl r) false None.
Definition dirDenied (r : string) : entry :=
  Entry (tmpDir +:+ "/" +:+ r) (inl r) true
        (Some (PathError "mkdir" ("/out/" +:+ r) EACCES)).

(** A file system in which every generated file holds its own path and
    every write succeeds. *)
Definition abs (p : string) : string := "/out/" +:+ p.
Definition readFile (p : string) : string + error := inl ("content of " +:+ p).
Definition writeFile (p : string) : option error := None.
Definition quote (s : string) : string :=
  String "034"%char (s +:+ String "034"%char "").
Definition importpath : string := "example.com/svc".

Definition runScenario := run abs readFile writeFile quote importpath.

Definition message (p : string) : error :=
  errorString (ambiguityLine p +:+ hint quote importpath).

Definition expectedFoo : list string := ["a/foo.gen.go"; "b/foo.gen.go"].
Definition scratchFoo : list entry := [root; dir "x"; file "x/foo.gen.go"].
Definition expectedSvc : list string := ["out/svc.pb.go"].
Definition scratchSvc : list entry :=
  [root; dir "generated"; file "generated/svc.pb.go"].
Definition expectedSub : list string := ["sub/x.pb.go"].
Definition scratchDenied : list entry :=
  [root; dirDenied "sub"; file "sub/x.pb.go"].
Definition scratchNoRel : list entry :=
  [root; Entry (tmpDir +:+ "/sub") (inr (errorString "Rel: can't make relative")) true None;
   file "sub/x.pb.go"].
Definition expectedXYZ : list string := ["a/x.pb.go"; "b/y.pb.go"; "c/z.pb.go"].
Definition scratchTwice : list entry :=
  [root; dir "p"; file "p/x.pb.go"; file "p/y.pb.go";
   dir "q"; file "q/x.pb.go"; file "q/y.pb.go"].
Definition expectedExact : list string := ["a/svc.pb.go"].
Definition scratchExact : list entry :=
  [root; dir "a"; file "a/svc.pb.go"; dir "b"; file "b/svc.pb.go"].
Definition expectedOut : list string := ["out/svc.pb.go"].
Definition scratchBefore : list entry :=
  [root; dir "a"; file "a/svc.pb.go"; dir "out"].
Definition scratchX : list entry := [root; dir "x"].
Definition expectedTwice : list string := ["a/x.pb.go"; "a/x.pb.go"].
Definition scratchQ : list entry := [root; dir "q"; file "q/x.pb.go"].

End Scenario.

Import Scenario.

(** ** Tactics *)

(** The paths through [walkFn], in the order of the source. *)
Ltac walk_cases st e :=
  unfold walkFn, generated, alloc;
  destruct (e_rel e) as [relPath|werr]; simpl;
  [ destruct (String.eqb relPath "."); simpl;
    [ | destruct (e_isDir e); simpl;
        [ destruct (negb (IsExist (e_mkdir e))); simpl
        | destruct (HasSuffix (e_path e) ".go"); simpl;
          [ destruct (files st !! relPath) as [found|] eqn:Hfound; simpl;
            [ | destruct (byBase st !! Base (e_path e)) as [copyTo|] eqn:HcopyTo;
                simpl;
                [ destruct ((heap st ++ _) !! copyTo) as [c|] eqn:Hc; simpl;
                  [ destruct (unique c) eqn:Hunique; simpl;
                    [ case_bool_decide as Hfrom; simpl | ]
                  | ]
                | ] ]
          | ] ] ]
  | ];
  try done.

(** One goal for each element of the explicit list that [H] ranges over. *)
Ltac orders H :=
  repeat (apply elem_of_cons in H as [-> | H]); [..|by apply not_elem_of_nil in H].

(** Closed facts about concrete runs are settled by evaluation. *)
Ltac evaluate := first [by vm_compute | apply (bool_decide_unpack _); by vm_compute].

(** Evaluation, deciding the statement first where it can be decided. *)
Ltac settle := first [apply (bool_decide_unpack _); by vm_compute | by vm_compute].

(** * Properties *)

Example Base_nested : Base "a/foo.gen.go" = "foo.gen.go".
Proof. reflexivity. Qed.

Example Base_trailing : Base "a/b//" = "b".
Proof. reflexivity. Qed.

Example Base_root : Base "///" = "/".
Proof. reflexivity. Qed.

Example HasSuffix_go : HasSuffix "/tmp/x/foo.gen.go" ".go" = true.
Proof. reflexivity. Qed.

Example HasSuffix_short : HasSuffix "go" ".go" = false.
Proof. reflexivity. Qed.

(** ** The file map after registration *)

Section Registry.

Implicit Types (st : state) (l : list string) (p k b : string) (i j : nat).

Lemma registered_initial : registered [] initial.
Proof.
  split; simpl; try done.
  - intros k Hk; by apply not_elem_of_nil.
  - intros b _ p Hp. by apply not_elem_of_nil in Hp.
Qed.

Lemma register_heap st p i :
  heap (register st p) !! i =
    match byBase st !! Base p with
    | Some b =>
        (if decide (i = b ∨ i = length (heap st)) then set_unique false else id)
          <$> (heap st ++ [fresh p]) !! i
    | None => (heap st ++ [fresh p]) !! i
    end.
Proof.
  unfold register, alloc, fresh. simpl.
  destruct (byBase st !! Base p) as [b|]; simpl; [|done].
  destruct (decide (i = b)) as [-> | Hb].
  - rewrite list_lookup_alter_eq.
    destruct (decide (b = length (heap st))) as [-> | Hl].
    + rewrite list_lookup_alter_eq. rewrite decide_True by auto.
      destruct ((heap st ++ _) !! _); done.
    + rewrite list_lookup_alter_ne by done. by rewrite decide_True by auto.
  - rewrite list_lookup_alter_ne by done.
    destruct (decide (i = length (heap st))) as [-> | Hl].
    + rewrite list_lookup_alter_eq. by rewrite decide_True by auto.
    + rewrite list_lookup_alter_ne by done. rewrite decide_False by tauto.
      by destruct ((heap st ++ _) !! i).
Qed.

Lemma register_files st p :
  files (register st p) = <[p := length (heap st)]> (files st).
Proof. unfold register, alloc; simpl. by destruct (byBase st !! Base p). Qed.

Lemma register_byBase st p :
  byBase (register st p) =
    match byBase st !! Base p with
    | Some _ => byBase st
    | None => <[Base p := length (heap st)]> (byBase st)
    end.
Proof. unfold register, alloc; simpl. by destruct (byBase st !! Base p). Qed.

Lemma register_length st p :
  length (heap (register st p)) = S (length (heap st)).
Proof.
  unfold register, alloc; simpl.
  destruct (byBase st !! Base p); simpl;
    rewrite ?length_alter, length_app; simpl; lia.
Qed.

Lemma registered_step l st p :
  registered l st → registered (l ++ [p]) (register st p).
Proof.
  intros [Hlen Hcell Hfiles HfilesN Hbase HbaseN].
  split.
  - rewrite register_length, length_app. simpl. lia.
  - intros i pi Hi. rewrite register_heap.
    apply lookup_snoc_Some in Hi as [[Hlt Hi]|[-> <-]].
    + destruct (Hcell _ _ Hi) as (f & Hf & Hfresh & Huniq).
      rewrite lookup_app_l by lia. rewrite Hf.
      destruct (decide (Base pi = Base p)) as [Heq|Hne].
      * (* the new path shares the basename *)
        destruct (byBase st !! Base p) as [b|] eqn:Hb.
        2:{ exfalso. eapply HbaseN; [done| |done].
            apply list_elem_of_lookup; eauto. }
        simpl.
        assert (unique ((if decide (i = b ∨ i = length (heap st))
                         then set_unique false else id) f) = false) as Hfalse.
        { case_decide as Hd; [done|]. simpl.
          destruct (unique f) eqn:Hu; [|done].
          destruct (Hbase _ _ Hb) as (pb & Hpb & Hbb).
          exfalso. apply Hd. left. symmetry. apply Huniq with pb; [done.. | congruence]. }
        eexists; split; [done|]. split.
        { case_decide; [|done]. by destruct f. }
        rewrite Hfalse. split; [done|]. intros Hall.
        specialize (Hall (length l) p). rewrite list_lookup_middle in Hall by lia.
        specialize (Hall eq_refl (eq_sym Heq)). lia.
      * assert ((match byBase st !! Base p with
                 | Some b => (if decide (i = b ∨ i = length (heap st))
                              then set_unique false else id) <$> Some f
                 | None => Some f end) = Some f) as ->.
        { destruct (byBase st !! Base p) as [b|] eqn:Hb; [|done].
          case_decide as Hd; [|done]. exfalso.
          destruct Hd as [-> | ->]; [|lia].
          destruct (Hbase _ _ Hb) as (pb & Hpb & Hbb). congruence. }
        eexists; split; [done|]. split; [done|].
        rewrite Huniq. split; intros Hall j p' Hj Hbj.
        -- apply lookup_snoc_Some in Hj as [[Hjl Hj]|[-> <-]]; [eauto|congruence].
        -- apply Hall with p'; [|done]. by apply lookup_app_l_Some.
    + rewrite <- Hlen. rewrite list_lookup_middle by done.
      destruct (byBase st !! Base p) as [b|] eqn:Hb; simpl.
      * rewrite decide_True by auto. eexists; split; [done|]. split; [done|].
        simpl. split; [done|]. intros Hall.
        destruct (Hbase _ _ Hb) as (pb & Hpb & Hbb).
        assert (b = length (heap st)) as ->.
        { apply Hall with pb; [by apply lookup_app_l_Some|done]. }
        apply lookup_lt_Some in Hpb. lia.
      * eexists; split; [done|]. split; [done|]. simpl. split; [|done].
        intros _ j p' Hj Hbj.
        apply lookup_snoc_Some in Hj as [[Hjl Hj]|[-> <-]]; [|lia].
        exfalso. eapply HbaseN; [done| |done]. apply list_elem_of_lookup; eauto.
  - intros k i. rewrite register_files. intros Hk.
    apply lookup_insert_Some in Hk as [[-> <-]|[Hne Hk]].
    + rewrite Hlen. split; [by apply list_lookup_middle|].
      intros j Hj Hjk. apply lookup_lt_Some in Hjk. rewrite length_app in Hjk.
      simpl in Hjk. lia.
    + destruct (Hfiles _ _ Hk) as [Hi Hlast]. split; [by apply lookup_app_l_Some|].
      intros j Hj Hjk. apply lookup_snoc_Some in Hjk as [[_ Hjk]|[_ ->]]; [|done].
      by eapply Hlast.
  - intros k. rewrite register_files. intros Hk.
    apply lookup_insert_None in Hk as [Hk Hne].
    rewrite elem_of_app, list_elem_of_singleton. intros [Hin | ->]; [|done].
    by eapply HfilesN.
  - intros b i. rewrite register_byBase. intros Hb.
    destruct (byBase st !! Base p) as [b0|] eqn:Hb0.
    + destruct (Hbase _ _ Hb) as (pb & Hpb & Hbb).
      exists pb. split; [by apply lookup_app_l_Some|done].
    + apply lookup_insert_Some in Hb as [[<- <-]|[Hne Hb]].
      * exists p. rewrite Hlen. split; [by apply list_lookup_middle|done].
      * destruct (Hbase _ _ Hb) as (pb & Hpb & Hbb).
        exists pb. split; [by apply lookup_app_l_Some|done].
  - intros b. rewrite register_byBase. intros Hb q Hq.
    destruct (byBase st !! Base p) as [b0|] eqn:Hb0.
    + apply elem_of_app in Hq as [Hq|Hq]; [by eapply HbaseN|].
      apply list_elem_of_singleton in Hq as ->. congruence.
    + apply lookup_insert_None in Hb as [Hb Hne].
      apply elem_of_app in Hq as [Hq|Hq]; [by eapply HbaseN|].
      apply list_elem_of_singleton in Hq as ->. congruence.
Qed.

Lemma registered_fold l' : ∀ l st,
  registered l st → registered (l ++ l') (fold_left register l' st).
Proof.
  induction l' as [|p l' IH]; intros l st H; simpl.
  - by rewrite app_nil_r.
  - replace (l ++ p :: l') with ((l ++ [p]) ++ l') by by rewrite <- app_assoc.
    apply IH. by apply registered_step.
Qed.

Lemma registered_buildFileMap l : registered l (buildFileMap l).
Proof. apply (registered_fold l [] initial registered_initial). Qed.

End Registry.

(** ** One call of the walk function *)

Section WalkStep.

Implicit Types (st : state) (e : entry) (a n : ptr) (f g : genFileInfo).

Lemma walkFn_byBase st e : byBase (walkFn st e).1 = byBase st.
Proof. walk_cases st e. Qed.

Lemma walkFn_files st e :
  files (walkFn st e).1 =
    match generated e with
    | Some r =>
        match files st !! r with
        | Some _ => files st
        | None => <[r := length (heap st)]> (files st)
        end
    | None => files st
    end.
Proof. walk_cases st e. Qed.

Lemma walkFn_length st e :
  length (heap (walkFn st e).1) =
    match generated e with
    | Some _ => S (length (heap st))
    | None => length (heap st)
    end.
Proof. walk_cases st e; rewrite ?length_alter, length_app; simpl; lia. Qed.

(** The error of a call does not depend on the registry. *)
Lemma walkFn_error st st' e : (walkFn st e).2 = (walkFn st' e).2.
Proof.
  unfold walkFn, alloc.
  destruct (e_rel e) as [r|err]; simpl; [|done].
  destruct (String.eqb r "."); simpl; [done|].
  destruct (e_isDir e); simpl.
  { by destruct (negb (IsExist (e_mkdir e))). }
  destruct (negb (HasSuffix (e_path e) ".go")); simpl; [done|].
  transitivity (@None error).
  - destruct (files st !! r); simpl; [done|].
    destruct (byBase st !! _); simpl; [|done].
    destruct (_ !! _); simpl; [|done].
    destruct (negb _); simpl; [done|]. by case_bool_decide.
  - destruct (files st' !! r); simpl; [done|].
    destruct (byBase st' !! _); simpl; [|done].
    destruct (_ !! _); simpl; [|done].
    destruct (negb _); simpl; [done|]. by case_bool_decide.
Qed.

Lemma walkFn_generated_error st e r :
  generated e = Some r → (walkFn st e).2 = None.
Proof. walk_cases st e. Qed.

Lemma walkFn_cell st e a f :
  heap st !! a = Some f →
  heap (walkFn st e).1 !! a = Some (cell_after st e a f).
Proof.
  intros Hf. pose proof (lookup_lt_Some _ _ _ Hf) as Hlt.
  assert ((heap st ++ [GenFileInfo (Base (e_path e)) (e_path e)
                         false true None false false]) !! a = Some f) as Hf'
    by by apply lookup_app_l_Some.
  unfold cell_after. walk_cases st e.
  - rewrite list_lookup_alter. case_decide; subst.
    + rewrite decide_True by done. by rewrite Hf'.
    + by rewrite decide_False by done.
  - rewrite list_lookup_alter_ne by lia.
    rewrite list_lookup_alter. case_decide; subst.
    + rewrite decide_True by done. rewrite Hf' in Hc. simplify_eq.
      rewrite Hunique. destruct (from c); [by rewrite Hf'|done].
    + by rewrite decide_False by done.
  - rewrite list_lookup_alter_ne by lia.
    rewrite list_lookup_alter. case_decide; subst.
    + rewrite decide_True by done. rewrite Hf' in Hc. simplify_eq.
      rewrite Hunique, Hfrom. by rewrite Hf'.
    + by rewrite decide_False by done.
  - case_decide; [|done]. subst. rewrite Hf' in Hc. simplify_eq. by rewrite Hunique.
  - case_decide; [|done]. subst. rewrite Hf' in Hc. by simplify_eq.
Qed.

Lemma cell_after_static st e a f :
  base (cell_after st e a f) = base f ∧ path (cell_after st e a f) = path f ∧
  expected (cell_after st e a f) = expected f ∧
  unique (cell_after st e a f) = unique f.
Proof.
  unfold cell_after. repeat case_match; done.
Qed.

(** The object allocated for a generated file. *)
Lemma walkFn_new st e r :
  wf st →
  generated e = Some r →
  ∃ g, heap (walkFn st e).1 !! length (heap st) = Some g ∧
       path g = e_path e ∧ base g = Base (e_path e) ∧ from g = None ∧
       created g = true ∧ unique g = false ∧
       expected g && ambiguious g = false ∧
       (is_Some (files st !! r) → expected g = false).
Proof.
  intros [Hfiles Hbase _]. walk_cases st e; intros [= <-].
  - apply Hfiles in Hfound.
    rewrite list_lookup_alter_ne by lia. rewrite list_lookup_middle by done.
    eexists; split; [done|]. simpl. repeat split; done.
  - apply Hbase in HcopyTo.
    rewrite list_lookup_alter_eq. rewrite list_lookup_alter_ne by lia.
    rewrite list_lookup_middle by done.
    eexists; split; [done|]. simpl. repeat split; try done; rewrite Hfound; by intros [? ?].
  - apply Hbase in HcopyTo.
    rewrite list_lookup_alter_eq. rewrite list_lookup_alter_ne by lia.
    rewrite list_lookup_middle by done.
    eexists; split; [done|]. simpl. repeat split; try done; rewrite Hfound; by intros [? ?].
  - rewrite list_lookup_middle by done.
    eexists; split; [done|]. simpl. repeat split; try done; rewrite Hfound; by intros [? ?].
  - rewrite list_lookup_middle by done.
    eexists; split; [done|]. simpl. repeat split; try done; rewrite Hfound; by intros [? ?].
  - rewrite list_lookup_middle by done.
    eexists; split; [done|]. simpl. repeat split; try done; rewrite Hfound; by intros [? ?].
Qed.

Lemma cell_after_from st e a f s :
  from (cell_after st e a f) = Some s →
  from f = Some s ∨ s = length (heap st) ∧ is_Some (generated e).
Proof.
  unfold cell_after. destruct (generated e) as [r|]; [|by left].
  destruct (files st !! r).
  { case_decide; simpl; [intros [= <-]; right; eauto | by left]. }
  destruct (byBase st !! _); [|by left].
  case_decide; [|by left]. destruct (unique f); [|by left].
  destruct (from f) eqn:Hfrom; simpl.
  - rewrite Hfrom. by left.
  - intros [= <-]; right; eauto.
Qed.

Lemma walkFn_wf st e : wf st → wf (walkFn st e).1.
Proof.
  intros Hwf. pose proof Hwf as [Hfiles Hbase Hfrom]. split.
  - intros k a. rewrite walkFn_files, walkFn_length.
    destruct (generated e) as [r|]; [|by apply Hfiles].
    destruct (files st !! r) eqn:Hr.
    + intros Hk. apply Hfiles in Hk. lia.
    + intros [[_ <-]|[_ Hk]]%lookup_insert_Some; [lia|]. apply Hfiles in Hk. lia.
  - intros b a. rewrite walkFn_byBase, walkFn_length.
    intros Hb%Hbase. destruct (generated e); lia.
  - intros a f s Hf Hs.
    destruct (decide (a < length (heap st))) as [Hlt|Hge].
    + destruct (lookup_lt_is_Some_2 _ _ Hlt) as [f0 Hf0].
      rewrite (walkFn_cell _ e _ _ Hf0) in Hf. simplify_eq.
      rewrite walkFn_length.
      apply cell_after_from in Hs as [Hs|[-> [r ->]]]; [|lia].
      apply (Hfrom _ _ _ Hf0) in Hs. destruct (generated e); lia.
    + destruct (generated e) as [r|] eqn:Hg.
      * destruct (walkFn_new st e r Hwf Hg) as (g & Hg' & _ & _ & HN & _).
        pose proof (lookup_lt_Some _ _ _ Hf) as Hlt.
        rewrite walkFn_length, Hg in Hlt.
        assert (a = length (heap st)) as -> by lia. congruence.
      * pose proof (lookup_lt_Some _ _ _ Hf) as Hlt.
        rewrite walkFn_length, Hg in Hlt. lia.
Qed.

End WalkStep.

(** ** The whole walk *)

Section Walk.

Implicit Types (st : state) (e : entry) (es : list entry) (a n : ptr).

Lemma walk_app st es1 es2 :
  walk st (es1 ++ es2) =
    match walk st es1 with
    | (st', None) => walk st' es2
    | (st', Some err) => (st', Some err)
    end.
Proof.
  revert st. induction es1 as [|e es1 IH]; intros st; simpl; [done|].
  destruct (walkFn st e) as [st' [err|]]; [done|]. apply IH.
Qed.

(** Invariants of one call are invariants of the walk. *)
Lemma walk_ind (P : state → Prop) st es :
  (∀ st e, P st → P (walkFn st e).1) → P st → P (walk st es).1.
Proof.
  intros Hstep. revert st. induction es as [|e es IH]; intros st HP; simpl; [done|].
  specialize (Hstep st e HP).
  destruct (walkFn st e) as [st' [err|]]; simpl in *; [done|]. by apply IH.
Qed.

Lemma walk_wf st es : wf st → wf (walk st es).1.
Proof. apply walk_ind. intros; by apply walkFn_wf. Qed.

Lemma walk_byBase st es : byBase (walk st es).1 = byBase st.
Proof.
  apply (walk_ind (λ st', byBase st' = byBase st)); [|done].
  intros st' e <-. apply walkFn_byBase.
Qed.

Lemma walk_length st es : (length (heap st) ≤ length (heap (walk st es).1))%nat.
Proof.
  apply (walk_ind (λ st', (length (heap st) ≤ length (heap st'))%nat)); [|done].
  intros st' e Hle. rewrite walkFn_length. destruct (generated e); lia.
Qed.

(** The fields that the walk never writes to an existing object. *)
Lemma walk_static st es a f :
  heap st !! a = Some f →
  ∃ f', heap (walk st es).1 !! a = Some f' ∧
    base f' = base f ∧ path f' = path f ∧
    expected f' = expected f ∧ unique f' = unique f.
Proof.
  intros Hf.
  apply (walk_ind (λ st', ∃ f', heap st' !! a = Some f' ∧
    base f' = base f ∧ path f' = path f ∧
    expected f' = expected f ∧ unique f' = unique f)); [|by exists f].
  intros st' e (f' & Hf' & <- & <- & <- & <-).
  eexists. split; [by apply walkFn_cell|]. apply cell_after_static.
Qed.

Lemma walkFn_files_old st e k a :
  wf st → a < length (heap st) →
  files (walkFn st e).1 !! k = Some a ↔ files st !! k = Some a.
Proof.
  intros Hwf Hlt. rewrite walkFn_files.
  destruct (generated e) as [r|]; [|done].
  destruct (files st !! r) eqn:Hr; [done|].
  rewrite lookup_insert_Some. split; [intros [[_ <-]|[_ ?]]; [lia|done]|].
  intros Hk. right. split; [congruence|done].
Qed.

Lemma walk_files_old st es k a :
  wf st → a < length (heap st) →
  files (walk st es).1 !! k = Some a ↔ files st !! k = Some a.
Proof.
  intros Hwf Hlt.
  apply (walk_ind (λ st', wf st' ∧ (length (heap st) ≤ length (heap st'))%nat ∧
    (files st' !! k = Some a ↔ files st !! k = Some a))); [|done].
  intros st' e (Hwf' & Hle & <-). split; [by apply walkFn_wf|]. split.
  - rewrite walkFn_length. destruct (generated e); lia.
  - apply walkFn_files_old; [done|lia].
Qed.

End Walk.

(** ** The emission loop *)

Section EmissionFacts.

Variable abs : string → string.
Variable readFile : string → string + error.
Variable writeFile : string → option error.
Variable quote : string → string.
Variable importpath : string.

Implicit Types (st : state) (f : genFileInfo) (order : list string).
Implicit Types (ws log : list write) (buf : string).

Local Abbreviation emitSwitch := (emitSwitch abs readFile writeFile).
Local Abbreviation emitLoop := (emitLoop abs readFile writeFile quote importpath).
Local Abbreviation emitted := (emitted abs readFile writeFile).

Lemma ambiguityLine_nonempty p : String.eqb (ambiguityLine p) "" = false.
Proof. done. Qed.

Lemma emitSwitch_continue h f ws buf' :
  emitSwitch h f "" = (ws, buf', None) →
  String.eqb buf' "" = true →
  emitted h f ws.
Proof.
  unfold emitSwitch.
  destruct (expected f && negb (created f)) eqn:E1.
  { destruct (writeFile _) eqn:Hw; intros [= <- <-] _.
    apply andb_true_iff in E1 as [? ?%negb_true_iff]. by constructor. }
  destruct (expected f && ambiguious f) eqn:E2.
  { intros [= <- <-] Hb. by simpl in Hb. }
  destruct (from f) as [src|] eqn:Hfrom.
  - destruct (readFile _) as [data|] eqn:Hr; [|done].
    destruct (writeFile _) eqn:Hw; intros [= <- <-] _. by econstructor.
  - destruct (negb (expected f)); intros [= <- <-] _; by constructor.
Qed.

Lemma emitSwitch_ambiguous h f ws buf' :
  emitSwitch h f "" = (ws, buf', None) →
  String.eqb buf' "" = false →
  ws = [] ∧ buf' = ambiguityLine (path f) ∧
  expected f = true ∧ created f = true ∧ ambiguious f = true.
Proof.
  unfold emitSwitch.
  destruct (expected f && negb (created f)) eqn:E1.
  { destruct (writeFile _); intros [= <- <-]; done. }
  destruct (expected f && ambiguious f) eqn:E2.
  { intros [= <- <-] _. apply andb_true_iff in E2 as [He Ha].
    rewrite He in E1. simpl in E1. apply negb_false_iff in E1. done. }
  destruct (from f) as [src|].
  - destruct (readFile _); [|done].
    destruct (writeFile _); intros [= <- <-]; done.
  - destruct (negb (expected f)); intros [= <- <-]; done.
Qed.

(** A loop that ends without an error has run the switch on every record
    of the order, and each of them ended in one of the three outcomes. *)
Lemma emitLoop_success st order log :
  emitLoop st order "" = (log, None) →
  ∀ k a f, k ∈ order → files st !! k = Some a → heap st !! a = Some f →
    ∃ ws, emitted (heap st) f ws ∧ ws ⊆ log.
Proof.
  revert log. induction order as [|k0 order IH]; intros log Hrun k a f Hin Hk Hf.
  { by apply not_elem_of_nil in Hin. }
  simpl in Hrun.
  destruct (files st !! k0 ≫= λ a, heap st !! a) as [f0|] eqn:Hf0.
  - destruct (emitSwitch (heap st) f0 "") as [[ws buf'] [err|]] eqn:Hsw; [done|].
    destruct (String.eqb buf' "") eqn:Hbuf; simpl in Hrun; [|done].
    apply String.eqb_eq in Hbuf as Hbuf'. subst buf'.
    destruct (emitLoop st order "") as [ws' r] eqn:Hrest.
    injection Hrun as <- ->.
    apply elem_of_cons in Hin as [-> | Hin].
    + rewrite Hk in Hf0. simpl in Hf0. rewrite Hf in Hf0. simplify_eq.
      exists ws. split; [by eapply emitSwitch_continue|].
      intros w Hw. apply elem_of_app. by left.
    + destruct (IH _ eq_refl k a f Hin Hk Hf) as (ws0 & Hem & Hsub).
      exists ws0. split; [done|]. intros w Hw. apply elem_of_app. right. by apply Hsub.
  - apply elem_of_cons in Hin as [-> | Hin].
    + rewrite Hk in Hf0. simpl in Hf0. congruence.
    + by eapply IH.
Qed.

(** How the loop fails: at the first record of the order whose switch
    returns an error or leaves something in the buffer. The records after
    it are not looked at. *)
Lemma emitLoop_failure st order log err :
  emitLoop st order "" = (log, Some err) →
  ∃ pre k post a f logPre ws,
    order = pre ++ k :: post ∧
    files st !! k = Some a ∧ heap st !! a = Some f ∧
    emitLoop st pre "" = (logPre, None) ∧ log = logPre ++ ws ∧
    (emitSwitch (heap st) f "" = (ws, "", Some err) ∨
     ws = [] ∧ expected f = true ∧ created f = true ∧ ambiguious f = true ∧
     err = errorString (ambiguityLine (path f) +:+ hint quote importpath)).
Proof.
  revert log. induction order as [|k0 order IH]; intros log Hrun; [done|].
  simpl in Hrun.
  destruct (files st !! k0 ≫= λ a, heap st !! a) as [f0|] eqn:Hf0.
  - destruct (files st !! k0) as [a0|] eqn:Hk0; [simpl in Hf0|done].
    destruct (emitSwitch (heap st) f0 "") as [[ws buf'] [err0|]] eqn:Hsw.
    { injection Hrun as <- <-.
      exists [], k0, order, a0, f0, [], ws. repeat split; try done.
      left. unfold emitSwitch in *.
      repeat case_match; simplify_eq; done. }
    destruct (String.eqb buf' "") eqn:Hbuf; simpl in Hrun.
    + apply String.eqb_eq in Hbuf as ->.
      destruct (emitLoop st order "") as [ws' r] eqn:Hrest.
      injection Hrun as <- ->.
      destruct (IH _ eq_refl) as (pre & k & post & a & f & logPre & ws1 &
        -> & Hk & Hf & Hpre & -> & Hcase).
      exists (k0 :: pre), k, post, a, f, (ws ++ logPre), ws1.
      repeat split; try done.
      * simpl. rewrite Hk0. simpl. rewrite Hf0, Hsw. simpl. by rewrite Hpre.
      * by rewrite app_assoc.
    + injection Hrun as <- <-.
      destruct (emitSwitch_ambiguous _ _ _ _ Hsw Hbuf) as (-> & -> & ? & ? & ?).
      exists [], k0, order, a0, f0, [], []. repeat split; try done. by right.
  - destruct (IH _ Hrun) as (pre & k & post & a & f & logPre & ws1 &
      -> & Hk & Hf & Hpre & -> & Hcase).
    exists (k0 :: pre), k, post, a, f, logPre, ws1.
    repeat split; try done. simpl. by rewrite Hf0.
Qed.

(** Keys that are not in the map do not count. *)
Lemma emitLoop_filter st order r buf :
  files st !! r = None →
  emitLoop st (filter (λ k, k ≠ r) order) buf = emitLoop st order buf.
Proof.
  intros Hr. revert buf. induction order as [|k order IH]; intros buf; [done|].
  destruct (decide (k = r)) as [-> | Hne].
  - rewrite filter_cons_False by (intros ?; done). simpl. rewrite Hr. simpl. apply IH.
  - rewrite filter_cons_True by done. simpl.
    destruct (files st !! k ≫= _); [|apply IH].
    destruct (emitSwitch _ _ _) as [[ws buf'] [err|]]; [done|].
    destruct (negb _); [done|]. by rewrite IH.
Qed.

End EmissionFacts.

Lemma iteration_order_keys st order k :
  iteration_order st order → k ∈ order ↔ is_Some (files st !! k).
Proof.
  intros [_ Hkeys]. by rewrite <- elem_of_dom, <- Hkeys, elem_of_list_to_set.
Qed.

Lemma iteration_order_Permutation st order :
  iteration_order st order → order ≡ₚ (map_to_list (files st)).*1.
Proof.
  intros Ho. pose proof (λ k, iteration_order_keys st order k Ho) as Hkeys.
  destruct Ho as [Hnd _].
  apply NoDup_Permutation; [done|apply NoDup_fst_map_to_list|].
  intros k. rewrite Hkeys, list_elem_of_fmap. split.
  - intros [a Ha]. exists (k, a). split; [done|]. by apply elem_of_map_to_list.
  - intros [[k' a] [-> Ha]]. apply elem_of_map_to_list in Ha. by exists a.
Qed.

Lemma other_index_filter {A} (P : A → Prop) `{∀ x, Decision (P x)}
    (l : list A) i x :
  l !! i = Some x → P x → length (filter P l) ≠ 1 →
  ∃ j y, j ≠ i ∧ l !! j = Some y ∧ P y.
Proof.
  revert i. induction l as [|y l IH]; intros i Hi Hx Hlen; [done|].
  destruct i as [|i]; simpl in Hi.
  - injection Hi as ->. rewrite filter_cons_True in Hlen by done. simpl in Hlen.
    destruct (filter P l) as [|z k] eqn:Hf; [done|].
    assert (z ∈ filter P l) as Hz by (rewrite Hf; apply list_elem_of_here).
    apply list_elem_of_filter in Hz as [Hz [j Hj]%list_elem_of_lookup].
    by exists (S j), z.
  - destruct (decide (P y)) as [Hy|Hy].
    + by exists 0, y.
    + rewrite filter_cons_False in Hlen by done.
      destruct (IH i Hi Hx Hlen) as (j & z & Hj & Hz & HP).
      exists (S j), z. split; [lia|done].
Qed.

Lemma iteration_order_permutations st order :
  iteration_order st order → order ∈ permutations (map_to_list (files st)).*1.
Proof.
  intros H%iteration_order_Permutation. by apply permutations_Permutation.
Qed.

(** ** Concrete runs *)

Section EndToEnd.

Variable abs : string → string.
Variable readFile : string → string + error.
Variable writeFile : string → option error.
Variable quote : string → string.
Variable importpath : string.

Local Abbreviation runIn := (run abs readFile writeFile quote importpath).


(** C6. With expected = [a/foo.gen.go; b/foo.gen.go] and a scratch tree
    that holds only x/foo.gen.go, both records are marked non-unique and
    stay without a source, and, in whatever order the map is enumerated,
    the run writes the placeholder at both expected paths, nothing else,
    and returns no error. *)
Theorem C6_shared_basename_example order :
  writeFile (abs "a/foo.gen.go") = None →
  writeFile (abs "b/foo.gen.go") = None →
  iteration_order (reconciled expectedFoo scratchFoo) order →
  (∀ p, p ∈ expectedFoo →
     ∃ a f, files (reconciled expectedFoo scratchFoo) !! p = Some a ∧
            heap (reconciled expectedFoo scratchFoo) !! a = Some f ∧
            unique f = false ∧ created f = false ∧ from f = None) ∧
  ∃ log, runIn expectedFoo scratchFoo order = (log, None) ∧
    log ≡ₚ [(abs "a/foo.gen.go", placeholder); (abs "b/foo.gen.go", placeholder)].
Proof.
  intros Ha Hb Ho%iteration_order_permutations. split.
  - intros p Hp. unfold expectedFoo in Hp. orders Hp.
    + exists 0, (GenFileInfo "foo.gen.go" "a/foo.gen.go" true false None false false).
      repeat split; by vm_compute.
    + exists 1, (GenFileInfo "foo.gen.go" "b/foo.gen.go" true false None false false).
      repeat split; by vm_compute.
  - vm_compute in Ho. orders Ho.
    all: vm_compute; rewrite ?Ha, ?Hb.
    all: eexists; split; [reflexivity|]; first [reflexivity | apply Permutation_swap].
Qed.


(** C7. With expected = [out/svc.pb.go] and a scratch tree that holds only
    generated/svc.pb.go, the record is unique and the walk binds it to the
    generated file by its basename; the run writes exactly the bytes read
    from generated/svc.pb.go to out/svc.pb.go and returns no error. *)
Theorem C7_unique_basename_example data order :
  readFile (tmpDir +:+ "/generated/svc.pb.go") = inl data →
  writeFile (abs "out/svc.pb.go") = None →
  iteration_order (reconciled expectedSvc scratchSvc) order →
  (∃ a f src g,
     files (reconciled expectedSvc scratchSvc) !! "out/svc.pb.go" = Some a ∧
     heap (reconciled expectedSvc scratchSvc) !! a = Some f ∧
     unique f = true ∧ from f = Some src ∧
     heap (reconciled expectedSvc scratchSvc) !! src = Some g ∧
     path g = tmpDir +:+ "/generated/svc.pb.go") ∧
  runIn expectedSvc scratchSvc order = ([(abs "out/svc.pb.go", data)], None).
Proof.
  intros Hr Hw Ho%iteration_order_permutations. split.
  - exists 0, (GenFileInfo "svc.pb.go" "out/svc.pb.go" true true (Some 1) true false),
      1, (GenFileInfo "svc.pb.go" "/tmp/go_proto123/generated/svc.pb.go"
            true true None false false).
    repeat split; by vm_compute.
  - vm_compute in Hr. vm_compute in Ho. orders Ho.
    all: vm_compute; rewrite ?Hr, ?Hw; reflexivity.
Qed.

End EndToEnd.

Section Failures.

Variable abs : string → string.
Variable readFile : string → string + error.
Variable writeFile : string → option error.
Variable quote : string → string.
Variable importpath : string.

Local Abbreviation runIn := (run abs readFile writeFile quote importpath).
Local Abbreviation emitLoop := (emitLoop abs readFile writeFile quote importpath).

(** The result of the walk plays no part in the result of [run]. *)
Lemma run_emits_reconciled expectedPaths es order :
  runIn expectedPaths es order = emitLoop (reconciled expectedPaths es) order "".
Proof.
  unfold run, reconciled. by destruct (walk (buildFileMap expectedPaths) es).
Qed.


(** C2 (the code departs from it). The walk over [scratchDenied] ends with
    the error of [os.Mkdir], the walk over [scratchNoRel] with the error of
    [filepath.Rel]; in both cases the generated file sub/x.pb.go is never
    visited, and [run] goes on to write a placeholder at the expected path
    and returns no error. *)
Theorem C2_walk_error_is_dropped :
  writeFile (abs "sub/x.pb.go") = None →
  (walk (buildFileMap expectedSub) scratchDenied).2
    = Some (PathError "mkdir" "/out/sub" EACCES) ∧
  runIn expectedSub scratchDenied ["sub/x.pb.go"]
    = ([(abs "sub/x.pb.go", placeholder)], None) ∧
  (walk (buildFileMap expectedSub) scratchNoRel).2
    = Some (errorString "Rel: can't make relative") ∧
  runIn expectedSub scratchNoRel ["sub/x.pb.go"]
    = ([(abs "sub/x.pb.go", placeholder)], None).
Proof.
  intros Hw. repeat split; vm_compute; by rewrite ?Hw.
Qed.


(** C1 (the code departs from it). a/x.pb.go and b/y.pb.go are both
    ambiguous and c/z.pb.go can be satisfied by a placeholder. In whatever
    order the map is enumerated, the run fails with a message that names
    one of the two ambiguous paths only; and when a/x.pb.go comes first,
    nothing at all has been written, c/z.pb.go included. *)
Theorem C1_first_ambiguity_ends_the_loop :
  writeFile (abs "c/z.pb.go") = None →
  (∀ p, p ∈ ["a/x.pb.go"; "b/y.pb.go"] →
     ∃ a f, files (reconciled expectedXYZ scratchTwice) !! p = Some a ∧
            heap (reconciled expectedXYZ scratchTwice) !! a = Some f ∧
            expected f = true ∧ ambiguious f = true) ∧
  (∀ order, iteration_order (reconciled expectedXYZ scratchTwice) order →
     ∃ log p, p ∈ ["a/x.pb.go"; "b/y.pb.go"] ∧
       runIn expectedXYZ scratchTwice order
         = (log, Some (errorString (ambiguityLine p +:+ hint quote importpath)))) ∧
  runIn expectedXYZ scratchTwice
      ["a/x.pb.go"; "b/y.pb.go"; "c/z.pb.go";
       "p/x.pb.go"; "p/y.pb.go"; "q/x.pb.go"; "q/y.pb.go"]
    = ([], Some (errorString (ambiguityLine "a/x.pb.go" +:+ hint quote importpath))).
Proof.
  intros Hw. split; [|split].
  - intros p Hp. orders Hp.
    + exists 0, (GenFileInfo "x.pb.go" "a/x.pb.go" true true (Some 3) true true).
      repeat split; by vm_compute.
    + exists 1, (GenFileInfo "y.pb.go" "b/y.pb.go" true true (Some 4) true true).
      repeat split; by vm_compute.
  - intros order Ho. rewrite run_emits_reconciled.
    destruct (emitLoop _ order "") as [log [err|]] eqn:Hrun.
    + apply emitLoop_failure in Hrun as
        (pre & k & post & a & f & logPre & ws & -> & Hk & Hf & Hpre & -> & Hcase).
      pose proof (lookup_lt_Some _ _ _ Hf) as Hlt.
      replace (length (heap (reconciled expectedXYZ scratchTwice))) with 7 in Hlt
        by by vm_compute.
      destruct a as [|[|[|[|[|[|[|a]]]]]]]; [..|lia].
      all: vm_compute in Hf; injection Hf as <-.
      all: destruct Hcase as [Hio|(-> & He & Hc & Ha & ->)];
        [vm_compute in Hio; rewrite ?Hw in Hio; try done|try done].
      * exists logPre, "a/x.pb.go". split; [set_solver|]. by rewrite app_nil_r.
      * exists logPre, "b/y.pb.go". split; [set_solver|]. by rewrite app_nil_r.
    + exfalso.
      assert ("a/x.pb.go" ∈ order) as Hin
        by (apply (iteration_order_keys _ _ _ Ho); exists 0; by vm_compute).
      destruct (emitLoop_success _ _ _ _ _ _ _ _ Hrun "a/x.pb.go" 0
        (GenFileInfo "x.pb.go" "a/x.pb.go" true true (Some 3) true true) Hin)
        as (ws & Hem & _); [by vm_compute..|].
      inversion Hem; done.
  - by vm_compute.
Qed.

End Failures.

(** ** Records that the basename fallback cannot reach *)

Section NonUnique.

Implicit Types (st : state) (e : entry) (es : list entry) (a : ptr).
Implicit Types (f g : genFileInfo) (p : string).

(** A record whose [unique] flag is off is changed by exact matches of its
    own path only. *)
Lemma walk_nonunique es : ∀ st a f p,
  wf st →
  heap st !! a = Some f →
  unique f = false →
  (∀ r, files st !! r = Some a → r = p) →
  ∃ f', heap (walk st es).1 !! a = Some f' ∧
    (f' = f ∨ ∃ e, e ∈ es ∧ exact_match (heap (walk st es).1) e p f f').
Proof.
  induction es as [|e es IH]; intros st a f p Hwf Hf Hu Hkey; simpl.
  { exists f. split; [done|by left]. }
  pose proof (walkFn_cell st e a f Hf) as Hf1.
  pose proof (walkFn_wf st e Hwf) as Hwf1.
  pose proof (lookup_lt_Some _ _ _ Hf) as Hlt.
  assert (∀ r, files (walkFn st e).1 !! r = Some a → r = p) as Hkey1.
  { intros r Hr. apply Hkey. by apply (walkFn_files_old st e r a Hwf Hlt). }
  assert (cell_after st e a f = f ∨
          generated e = Some p ∧
          cell_after st e a f = set_from (Some (length (heap st))) (set_created true f))
    as Hcell.
  { unfold cell_after. destruct (generated e) as [r|] eqn:Hg; [|by left].
    destruct (files st !! r) as [found|] eqn:Hr.
    - case_decide; [|by left]. subst found. right. by rewrite (Hkey _ Hr).
    - destruct (byBase st !! _); [|by left]. case_decide; [|by left].
      rewrite Hu. by left. }
  assert (unique (cell_after st e a f) = false) as Hu1.
  { destruct (cell_after_static st e a f) as (_ & _ & _ & ->). done. }
  destruct (walkFn st e) as [st1 [err|]] eqn:Hstep; simpl in *.
  - (* the walk ends here *)
    exists (cell_after st e a f). split; [done|].
    destruct Hcell as [->|[Hg Hcell]]; [by left|].
    pose proof (walkFn_generated_error st e p Hg) as Herr.
    rewrite Hstep in Herr. done.
  - destruct (IH st1 a _ p Hwf1 Hf1 Hu1 Hkey1) as (f' & Hf' & Hcase).
    exists f'. split; [done|].
    destruct Hcell as [Heq|[Hg Heq]]; rewrite Heq in Hcase.
    + destruct Hcase as [->|(e' & He' & Hex)]; [by left|].
      right. exists e'. split; [by apply list_elem_of_further|done].
    + right. destruct Hcase as [->|(e' & He' & Hg' & src & g & -> & Hsrc & Hpath)].
      * exists e. split; [by apply list_elem_of_here|]. split; [done|].
        destruct (walkFn_new st e p Hwf Hg) as (g & Hnew & Hpath & _).
        rewrite Hstep in Hnew. simpl in Hnew.
        destruct (walk_static st1 es _ _ Hnew) as (g' & Hg' & _ & Hpath' & _).
        exists (length (heap st)), g'. split; [done|]. split; [done|]. congruence.
      * exists e'. split; [by apply list_elem_of_further|]. split; [done|].
        exists src, g. split; [|done]. by destruct f.
Qed.

Lemma registered_wf l st : registered l st → wf st.
Proof.
  intros [Hlen Hcell Hfiles _ Hbase _]. split.
  - intros k a Hk. destruct (Hfiles _ _ Hk) as [Hl%lookup_lt_Some _]. lia.
  - intros b a Hb. destruct (Hbase _ _ Hb) as (p & Hl%lookup_lt_Some & _). lia.
  - intros a f s Hf Hs. pose proof (lookup_lt_Some _ _ _ Hf) as Hlt.
    rewrite Hlen in Hlt. destruct (lookup_lt_is_Some_2 _ _ Hlt) as [p Hp].
    destruct (Hcell _ _ Hp) as (f0 & Hf0 & Hfresh & _).
    rewrite Hf in Hf0. simplify_eq. apply (f_equal from) in Hfresh.
    simpl in Hfresh. congruence.
Qed.

Lemma reconciled_wf l es : wf (reconciled l es).
Proof.
  apply walk_wf. eapply registered_wf, registered_buildFileMap.
Qed.

Lemma registered_record l st p a :
  registered l st → files st !! p = Some a →
  l !! a = Some p ∧ (∀ r, files st !! r = Some a → r = p) ∧
  ∃ f, heap st !! a = Some f ∧ set_unique true f = fresh p ∧
    (unique f = true ↔ ∀ j q, l !! j = Some q → Base q = Base p → j = a).
Proof.
  intros Hreg Hp. destruct (reg_files _ _ Hreg _ _ Hp) as [Ha _].
  split; [done|]. split; [|by apply (reg_cell _ _ Hreg)].
  intros r Hr. destruct (reg_files _ _ Hreg _ _ Hr) as [Ha' _]. congruence.
Qed.

Lemma registered_lookup l st p :
  registered l st → p ∈ l → is_Some (files st !! p).
Proof.
  intros Hreg Hin. destruct (files st !! p) eqn:Hp; [done|].
  by apply (reg_files_None _ _ Hreg) in Hp.
Qed.

(** The record that [files] holds for an expected path whose basename
    another entry of the expected list has too: it is not unique, it is
    never marked ambiguous, and its source, if any, is a generated file at
    exactly its path. *)
Lemma shared_basename_record l es a j p q :
  files (buildFileMap l) !! p = Some a →
  l !! j = Some q → j ≠ a → Base q = Base p →
  files (reconciled l es) !! p = Some a ∧
  ∃ f, heap (reconciled l es) !! a = Some f ∧
    path f = p ∧ expected f = true ∧ unique f = false ∧ ambiguious f = false ∧
    (created f = false ∧ from f = None ∨
     created f = true ∧ ∃ e src g, e ∈ es ∧ generated e = Some p ∧
       from f = Some src ∧ heap (reconciled l es) !! src = Some g ∧
       path g = e_path e).
Proof.
  intros Hp Hj Hne Hbase.
  pose proof (registered_buildFileMap l) as Hreg.
  pose proof (registered_wf _ _ Hreg) as Hwf.
  destruct (registered_record _ _ _ _ Hreg Hp) as (Ha & Hkey & f & Hf & Hfresh & Hu).
  pose proof (lookup_lt_Some _ _ _ Hf) as Hlt.
  assert (unique f = false) as Hu'.
  { destruct (unique f); [|done]. exfalso. apply Hne.
    destruct Hu as [Hu _]. by eapply Hu. }
  split; [by apply walk_files_old|].
  destruct (walk_nonunique es _ _ _ _ Hwf Hf Hu' Hkey) as (f' & Hf' & Hcase).
  exists f'. split; [done|].
  assert (path f = p ∧ expected f = true ∧ ambiguious f = false ∧
          created f = false ∧ from f = None) as (Hpath & Hexp & Hamb & Hcr & Hfrom).
  { unfold fresh, set_unique in Hfresh. by injection Hfresh as _ -> -> -> -> ->. }
  destruct Hcase as [->|(e & He & Hg & src & g & -> & Hsrc & Hg')]; simpl.
  - repeat split; try done. by left.
  - repeat split; try done. right. split; [done|]. by exists e, src, g.
Qed.

Section Emitted.

Variable abs : string → string.
Variable readFile : string → string + error.
Variable writeFile : string → option error.
Variable quote : string → string.
Variable importpath : string.

(** In a run that returns no error, a record that is expected and not
    ambiguous has been written: the placeholder if it was not created,
    the bytes of its source if it was. *)
Lemma run_success_record l es order log p a f :
  iteration_order (reconciled l es) order →
  run abs readFile writeFile quote importpath l es order = (log, None) →
  files (reconciled l es) !! p = Some a →
  heap (reconciled l es) !! a = Some f →
  expected f = true →
  (created f = false ∧ (abs (path f), placeholder) ∈ log) ∨
  (created f = true ∧ ambiguious f = false ∧
   (from f = None ∨
    ∃ src data, from f = Some src ∧
      readFile (default "" (path <$> heap (reconciled l es) !! src)) = inl data ∧
      (abs (path f), data) ∈ log)).
Proof.
  intros Ho Hrun Hp Hf Hexp. rewrite run_emits_reconciled in Hrun.
  assert (p ∈ order) as Hin by (apply (iteration_order_keys _ _ _ Ho); eauto).
  destruct (emitLoop_success _ _ _ _ _ _ _ _ Hrun p a f Hin Hp Hf)
    as (ws & Hem & Hsub).
  inversion Hem as [? Hcr Hw|src data E1 E2 Hfrom Hr Hw|E1 E2 Hfrom]; subst ws.
  - left. split; [done|]. apply Hsub, list_elem_of_here.
  - right. rewrite Hexp in E1, E2. simpl in E1, E2. apply negb_false_iff in E1.
    repeat split; try done.
    right. exists src, data. repeat split; try done. apply Hsub, list_elem_of_here.
  - right. rewrite Hexp in E1, E2. simpl in E1, E2. apply negb_false_iff in E1.
    repeat split; try done. by left.
Qed.

End Emitted.

End NonUnique.

Section SharedBasenames.

Variable abs : string → string.
Variable readFile : string → string + error.
Variable writeFile : string → option error.
Variable quote : string → string.
Variable importpath : string.

Local Abbreviation runIn := (run abs readFile writeFile quote importpath).

Implicit Types (l : list string) (es : list entry) (i j a : nat) (p q : string).

(** The entry of [files] for a path of the expected list, and an entry of
    the list other than the one that allocated it with the same basename. *)
Lemma shared_basename_other l i j p q :
  l !! i = Some p → l !! j = Some q → i ≠ j → Base p = Base q →
  ∃ a j' q', files (buildFileMap l) !! p = Some a ∧
    l !! j' = Some q' ∧ j' ≠ a ∧ Base q' = Base p.
Proof.
  intros Hi Hj Hne Hbase.
  pose proof (registered_buildFileMap l) as Hreg.
  destruct (registered_lookup l _ p Hreg) as [a Ha].
  { apply list_elem_of_lookup. eauto. }
  exists a. destruct (decide (j = a)) as [-> | Hja].
  - exists i, p. by repeat split.
  - exists j, q. by repeat split.
Qed.

(** C8. After the file map has been built from any list of expected paths,
    the record of every path whose basename occurs at another position of
    the list has [unique] off, whichever of the sharers was registered
    first and however many there are; and the walk, whatever it visits,
    leaves the [unique] flag of every record of the file map as the
    construction set it. *)
Theorem C8_shared_basename_not_unique l i j p q :
  l !! i = Some p → l !! j = Some q → i ≠ j → Base p = Base q →
  (∃ a f, files (buildFileMap l) !! p = Some a ∧
          heap (buildFileMap l) !! a = Some f ∧
          path f = p ∧ unique f = false) ∧
  (∀ es a f, heap (buildFileMap l) !! a = Some f →
     ∃ f', heap (reconciled l es) !! a = Some f' ∧ unique f' = unique f).
Proof.
  intros Hi Hj Hne Hbase. split.
  - destruct (shared_basename_other l i j p q Hi Hj Hne Hbase)
      as (a & j' & q' & Ha & Hj' & Hne' & Hb').
    destruct (shared_basename_record l [] a j' p q' Ha Hj' Hne' Hb')
      as (_ & f & Hf & Hpath & _ & Hu & _).
    by exists a, f.
  - intros es a f Hf.
    destruct (walk_static (buildFileMap l) es a f Hf) as (f' & Hf' & _ & _ & _ & Hu).
    by exists f'.
Qed.

(** What becomes of the record of a path that shares its basename. *)
Lemma shared_basename_outcome l es i j p q :
  l !! i = Some p → l !! j = Some q → i ≠ j → Base p = Base q →
  ∃ a f, files (reconciled l es) !! p = Some a ∧
    heap (reconciled l es) !! a = Some f ∧
    path f = p ∧ unique f = false ∧ ambiguious f = false ∧
    (created f = false ∧ from f = None ∨
     created f = true ∧ ∃ e src g, e ∈ es ∧ generated e = Some p ∧
       from f = Some src ∧ heap (reconciled l es) !! src = Some g ∧
       path g = e_path e) ∧
    ∀ order log,
      iteration_order (reconciled l es) order →
      runIn l es order = (log, None) →
      (created f = false ∧ (abs p, placeholder) ∈ log) ∨
      (∃ e data, e ∈ es ∧ generated e = Some p ∧
         readFile (e_path e) = inl data ∧ (abs p, data) ∈ log).
Proof.
  intros Hi Hj Hne Hbase.
  destruct (shared_basename_other l i j p q Hi Hj Hne Hbase)
    as (a & j' & q' & Ha & Hj' & Hne' & Hb').
  destruct (shared_basename_record l es a j' p q' Ha Hj' Hne' Hb')
    as (Hp & f & Hf & Hpath & Hexp & Hu & Hamb & Hcase).
  exists a, f. repeat split; try done.
  intros order log Ho Hrun.
  destruct (run_success_record abs readFile writeFile quote importpath
              l es order log p a f Ho Hrun Hp Hf Hexp)
    as [[Hcr Hlog]|(Hcr & _ & Hsrc)].
  - left. by rewrite <- Hpath at 1.
  - right. destruct Hcase as [[Hcr' _]|(_ & e & src & g & He & Hg & Hfrom & Hsrc' & Hpg)];
      [congruence|].
    destruct Hsrc as [Hnone|(src' & data & Hfrom' & Hread & Hlog)]; [congruence|].
    rewrite Hfrom in Hfrom'. injection Hfrom' as <-.
    rewrite Hsrc' in Hread. simpl in Hread. rewrite Hpg in Hread.
    exists e, data. repeat split; try done. by rewrite <- Hpath at 1.
Qed.


(** C10. When a path occurs twice in the expected list, [files] holds one
    record for it, the one allocated by a later occurrence, and no key
    leads to the record of the earlier one any more; the record has
    [unique] off, so the walk never gives it a source by basename and
    never marks it ambiguous: its source, if any, is a generated file at
    exactly its path, and a run that returns no error has written the
    placeholder or the bytes of that exact match at the path. *)
Theorem C10_duplicate_expected_path l es i j p :
  l !! i = Some p → l !! j = Some p → i < j →
  ∃ a f, files (buildFileMap l) !! p = Some a ∧ (j ≤ a)%nat ∧ l !! a = Some p ∧
    (∀ k, files (buildFileMap l) !! k ≠ Some i) ∧
    files (reconciled l es) !! p = Some a ∧
    heap (reconciled l es) !! a = Some f ∧
    path f = p ∧ unique f = false ∧ ambiguious f = false ∧
    (created f = false ∧ from f = None ∨
     created f = true ∧ ∃ e src g, e ∈ es ∧ generated e = Some p ∧
       from f = Some src ∧ heap (reconciled l es) !! src = Some g ∧
       path g = e_path e) ∧
    ∀ order log,
      iteration_order (reconciled l es) order →
      runIn l es order = (log, None) →
      (created f = false ∧ (abs p, placeholder) ∈ log) ∨
      (∃ e data, e ∈ es ∧ generated e = Some p ∧
         readFile (e_path e) = inl data ∧ (abs p, data) ∈ log).
Proof.
  intros Hi Hj Hlt.
  pose proof (registered_buildFileMap l) as Hreg.
  destruct (registered_lookup l _ p Hreg) as [a Ha].
  { apply list_elem_of_lookup. eauto. }
  destruct (reg_files _ _ Hreg _ _ Ha) as [Hla Hlast].
  assert (j ≤ a)%nat as Hja.
  { destruct (decide (j ≤ a)%nat) as [|Hn]; [done|]. exfalso.
    apply (Hlast j); [lia|done]. }
  assert (∀ k, files (buildFileMap l) !! k ≠ Some i) as Hgone.
  { intros k Hk. destruct (reg_files _ _ Hreg _ _ Hk) as [Hlk Hlastk].
    assert (k = p) as -> by congruence. rewrite Ha in Hk. injection Hk as ->. lia. }
  destruct (shared_basename_outcome l es a i p p Hla Hi ltac:(lia) eq_refl)
    as (a' & f & Ha' & Hf & Hrest).
  assert (a' = a) as ->.
  { apply (walk_files_old (buildFileMap l) es p a) in Ha.
    - unfold reconciled in Ha'. congruence.
    - by eapply registered_wf.
    - rewrite (reg_length _ _ Hreg). by eapply lookup_lt_Some. }
  exists a, f. repeat split; try done; apply Hrest.
Qed.

End SharedBasenames.

(** ** The source of a record during the walk *)

Section Source.

Implicit Types (st : state) (e : entry) (es : list entry) (a s : ptr).
Implicit Types (f g : genFileInfo) (p : string).

Lemma cell_after_source st e a f s :
  heap st !! a = Some f → from f = Some s →
  from (cell_after st e a f) = Some s ∨
  ∃ p, generated e = Some p ∧ files st !! p = Some a ∧
       from (cell_after st e a f) = Some (length (heap st)).
Proof.
  intros Hf Hs. unfold cell_after.
  destruct (generated e) as [r|] eqn:Hg; [|by left].
  destruct (files st !! r) as [found|] eqn:Hr.
  - case_decide; [|by left]. subst. right. by exists r.
  - destruct (byBase st !! _); [|by left]. case_decide; [|by left].
    destruct (unique f); [|by left]. rewrite Hs. by left.
Qed.

Lemma walk_source es : ∀ st a f s,
  wf st → heap st !! a = Some f → from f = Some s →
  ∃ f', heap (walk st es).1 !! a = Some f' ∧
    (from f' = Some s ∨
     ∃ e p src, e ∈ es ∧ generated e = Some p ∧ files st !! p = Some a ∧
       from f' = Some src ∧ source_of (heap (walk st es).1) src e).
Proof.
  induction es as [|e es IH]; intros st a f s Hwf Hf Hs; simpl.
  { exists f. split; [done|by left]. }
  pose proof (walkFn_cell st e a f Hf) as Hf1.
  pose proof (walkFn_wf st e Hwf) as Hwf1.
  pose proof (lookup_lt_Some _ _ _ Hf) as Hlt.
  pose proof (cell_after_source st e a f s Hf Hs) as Hcell.
  destruct (walkFn st e) as [st1 [err|]] eqn:Hstep; simpl in *.
  - exists (cell_after st e a f). split; [done|].
    destruct Hcell as [?|(p & Hg & _)]; [by left|].
    pose proof (walkFn_generated_error st e p Hg) as Herr.
    rewrite Hstep in Herr. done.
  - assert (∃ s1, from (cell_after st e a f) = Some s1) as [s1 Hs1].
    { destruct Hcell as [?|(? & _ & _ & ?)]; eauto. }
    destruct (IH st1 a _ s1 Hwf1 Hf1 Hs1) as (f' & Hf' & Hcase).
    exists f'. split; [done|].
    destruct Hcase as [Hkeep|(e' & p' & src & He' & Hg' & Hk' & Hfrom' & Hsrc)].
    + destruct Hcell as [Hsame|(p & Hg & Hk & Hnew)]; [left; congruence|].
      right. exists e, p, (length (heap st)).
      split; [apply list_elem_of_here|]. repeat split; try done; [congruence|].
      destruct (walkFn_new st e p Hwf Hg) as (g & Hnewcell & Hpath & _).
      rewrite Hstep in Hnewcell. simpl in Hnewcell.
      destruct (walk_static st1 es _ _ Hnewcell) as (g' & Hg' & _ & Hpath' & _).
      exists g'. split; [done|congruence].
    + right. exists e', p', src.
      split; [by apply list_elem_of_further|]. repeat split; try done.
      pose proof (walkFn_files_old st e p' a Hwf Hlt) as Hold.
      rewrite Hstep in Hold. by apply Hold.
Qed.

Lemma reconciled_app l pre post :
  reconciled l (pre ++ post) =
    match (walk (buildFileMap l) pre).2 with
    | None => (walk (reconciled l pre) post).1
    | Some _ => reconciled l pre
    end.
Proof.
  unfold reconciled. rewrite walk_app.
  by destruct (walk (buildFileMap l) pre) as [st [err|]].
Qed.


End Source.

(** ** Exact matches and ambiguity *)

Section ExactMatch.

Implicit Types (st : state) (e : entry) (es : list entry) (a s : ptr).
Implicit Types (f g : genFileInfo) (p b : string).

Lemma cell_after_created st e a f :
  created f = true → created (cell_after st e a f) = true.
Proof.
  intros Hc. unfold cell_after. repeat case_match; done.
Qed.

Lemma walk_created st es a f :
  heap st !! a = Some f → created f = true →
  ∃ f', heap (walk st es).1 !! a = Some f' ∧ created f' = true.
Proof.
  intros Hf Hc.
  apply (walk_ind (λ st', ∃ f', heap st' !! a = Some f' ∧ created f' = true));
    [|by exists f].
  intros st' e (f' & Hf' & Hc'). eexists. split; [by apply walkFn_cell|].
  by apply cell_after_created.
Qed.

(** The [ambiguious] flag of a record moves only when a generated file
    with the basename that leads to it in [byBase] is visited. *)
Lemma cell_after_ambiguious st e a f b :
  (∀ b', byBase st !! b' = Some a → b' = b) →
  ¬ candidate b e →
  ambiguious (cell_after st e a f) = ambiguious f.
Proof.
  intros Hkey Hnc. unfold cell_after.
  destruct (generated e) as [r|] eqn:Hg; [|done].
  destruct (files st !! r); [by case_decide|].
  destruct (byBase st !! _) as [copyTo|] eqn:Hb; [|done].
  case_decide; [|done]. subst copyTo. exfalso. apply Hnc.
  split; [by rewrite Hg|]. by apply Hkey.
Qed.

Lemma walk_no_candidate es : ∀ st a f b,
  heap st !! a = Some f →
  (∀ b', byBase st !! b' = Some a → b' = b) →
  Forall (λ e, ¬ candidate b e) es →
  ∃ f', heap (walk st es).1 !! a = Some f' ∧ ambiguious f' = ambiguious f.
Proof.
  induction es as [|e es IH]; intros st a f b Hf Hkey Hall; simpl.
  { by exists f. }
  apply Forall_cons in Hall as [Hnc Hall].
  pose proof (walkFn_cell st e a f Hf) as Hf1.
  pose proof (cell_after_ambiguious st e a f b Hkey Hnc) as Hamb.
  pose proof (walkFn_byBase st e) as Hbb.
  destruct (walkFn st e) as [st1 [err|]]; simpl in *.
  - by eexists.
  - destruct (IH st1 a _ b Hf1) as (f' & Hf' & Hamb'); [by rewrite Hbb|done|].
    exists f'. split; [done|congruence].
Qed.

Lemma walk_one_candidate es : ∀ st a f b p,
  wf st →
  heap st !! a = Some f →
  (∀ b', byBase st !! b' = Some a → b' = b) →
  (∀ r, files st !! r = Some a → r = p) →
  (∀ e, e ∈ es → generated e ≠ Some p) →
  from f = None →
  (length (filter (candidate b) es) ≤ 1)%nat →
  ∃ f', heap (walk st es).1 !! a = Some f' ∧ ambiguious f' = ambiguious f.
Proof.
  induction es as [|e es IH]; intros st a f b p Hwf Hf Hbkey Hkey Hnp Hfrom Hlen; simpl.
  { by exists f. }
  pose proof (walkFn_cell st e a f Hf) as Hf1.
  pose proof (walkFn_byBase st e) as Hbb.
  pose proof (walkFn_wf st e Hwf) as Hwf1.
  pose proof (lookup_lt_Some _ _ _ Hf) as Hlt.
  pose proof (walkFn_files_old st e) as Hold.
  assert (generated e ≠ Some p) as Hne by (apply Hnp, list_elem_of_here).
  destruct (decide (candidate b e)) as [Hc|Hnc].
  - rewrite filter_cons_True in Hlen by done. simpl in Hlen.
    assert (Forall (λ e, ¬ candidate b e) es) as Hall.
    { apply Forall_forall. intros e' He' Hc'.
      assert (e' ∈ filter (candidate b) es) as Hin by by apply list_elem_of_filter.
      destruct (filter (candidate b) es); [by apply not_elem_of_nil in Hin|].
      simpl in Hlen. lia. }
    assert (ambiguious (cell_after st e a f) = ambiguious f) as Hamb.
    { unfold cell_after. destruct (generated e) as [r|] eqn:Hg; [|done].
      destruct (files st !! r) as [found|] eqn:Hr.
      - case_decide; [|done]. subst found. apply Hkey in Hr. congruence.
      - destruct (byBase st !! _); [|done]. case_decide; [|done].
        destruct (unique f); [|done]. by rewrite Hfrom. }
    destruct (walkFn st e) as [st1 [err|]]; simpl in *.
    + by eexists.
    + destruct (walk_no_candidate es st1 a _ b Hf1) as (f' & Hf' & Hamb');
        [by rewrite Hbb|done|].
      exists f'. split; [done|congruence].
  - rewrite filter_cons_False in Hlen by done.
    assert (cell_after st e a f = f) as Heq.
    { unfold cell_after. destruct (generated e) as [r|] eqn:Hg; [|done].
      destruct (files st !! r) as [found|] eqn:Hr.
      - case_decide; [|done]. subst found. apply Hkey in Hr. congruence.
      - destruct (byBase st !! _) as [copyTo|] eqn:Hb; [|done].
        case_decide; [|done]. subst copyTo. exfalso. apply Hnc.
        split; [by rewrite Hg|]. by apply Hbkey. }
    rewrite Heq in Hf1.
    destruct (walkFn st e) as [st1 [err|]]; simpl in *.
    + by eexists.
    + apply (IH st1 a f b p); try done.
      * by rewrite Hbb.
      * intros r Hr. apply Hkey. by apply (Hold r a Hwf Hlt).
      * intros e' He'. by apply Hnp, list_elem_of_further.
Qed.

End ExactMatch.

Section ExactMatchRun.

Variable abs : string → string.
Variable readFile : string → string + error.
Variable writeFile : string → option error.
Variable quote : string → string.
Variable importpath : string.

Local Abbreviation runIn := (run abs readFile writeFile quote importpath).

Implicit Types (l : list string) (e : entry) (pre post : list entry) (p : string).

Lemma reconciled_visit l pre e post p :
  (walk (buildFileMap l) pre).2 = None → generated e = Some p →
  reconciled l (pre ++ e :: post) = (walk (walkFn (reconciled l pre) e).1 post).1.
Proof.
  intros Hpre Hg. rewrite reconciled_app, Hpre. simpl.
  pose proof (walkFn_generated_error (reconciled l pre) e p Hg) as Herr.
  by destruct (walkFn (reconciled l pre) e) as [st1 [err|]].
Qed.

(** The record of an expected path after a walk that found a generated
    file at exactly that path, once. *)
Lemma exact_match_record l pre e post p :
  p ∈ l → generated e = Some p →
  (walk (buildFileMap l) pre).2 = None →
  (∀ e', e' ∈ pre ++ post → generated e' ≠ Some p) →
  ∃ a f src,
    files (reconciled l (pre ++ e :: post)) !! p = Some a ∧
    heap (reconciled l (pre ++ e :: post)) !! a = Some f ∧
    path f = p ∧ expected f = true ∧ created f = true ∧
    from f = Some src ∧
    source_of (heap (reconciled l (pre ++ e :: post))) src e ∧
    (Forall (λ e', ¬ candidate (Base p) e') post ∧
     (length (filter (candidate (Base p)) pre) ≤ 1)%nat →
     ambiguious f = false).
Proof.
  intros Hin Hg Hpre Honce.
  pose proof (registered_buildFileMap l) as Hreg.
  pose proof (registered_wf _ _ Hreg) as Hwf0.
  destruct (registered_lookup l _ p Hreg Hin) as [a Ha].
  destruct (registered_record _ _ _ _ Hreg Ha) as (Hla & Hkey0 & f0 & Hf0 & Hfresh & _).
  assert (path f0 = p ∧ expected f0 = true ∧ ambiguious f0 = false ∧
          created f0 = false ∧ from f0 = None)
    as (Hpath0 & Hexp0 & Hamb0 & _ & Hfrom0).
  { unfold fresh, set_unique in Hfresh. by injection Hfresh as _ -> -> -> -> ->. }
  pose proof (lookup_lt_Some _ _ _ Hf0) as Hlt0.
  assert (∀ b', byBase (buildFileMap l) !! b' = Some a → b' = Base p) as Hbkey0.
  { intros b' Hb'. destruct (reg_byBase _ _ Hreg _ _ Hb') as (p' & Hp' & <-).
    congruence. }
  (* the state before the exact match *)
  set (st1 := reconciled l pre).
  assert (wf st1) as Hwf1 by apply reconciled_wf.
  assert (length (heap (buildFileMap l)) ≤ length (heap st1))%nat as Hle1
    by apply walk_length.
  assert (∀ r, files st1 !! r = Some a ↔ files (buildFileMap l) !! r = Some a) as Hold1.
  { intros r. by apply walk_files_old. }
  destruct (walk_static (buildFileMap l) pre a f0 Hf0)
    as (f1 & Hf1 & _ & Hpath1 & Hexp1 & _).
  fold (reconciled l pre) in Hf1. fold st1 in Hf1.
  (* the exact match *)
  set (st2 := (walkFn st1 e).1).
  assert (wf st2) as Hwf2 by by apply walkFn_wf.
  pose proof (walkFn_cell st1 e a f1 Hf1) as Hf2. fold st2 in Hf2.
  assert (cell_after st1 e a f1 =
          set_from (Some (length (heap st1))) (set_created true f1)) as Hcell.
  { unfold cell_after. rewrite Hg. rewrite (proj2 (Hold1 p) Ha).
    by rewrite decide_True. }
  rewrite Hcell in Hf2.
  destruct (walkFn_new st1 e p Hwf1 Hg) as (g & Hg2 & Hgpath & _). fold st2 in Hg2.
  assert (a < length (heap st2)) as Hlt2 by by eapply lookup_lt_Some.
  assert (∀ r, files st2 !! r = Some a → r = p) as Hkey2.
  { intros r Hr. apply Hkey0, Hold1.
    apply (walkFn_files_old st1 e r a Hwf1); [lia|done]. }
  (* the rest of the walk *)
  rewrite (reconciled_visit l pre e post p Hpre Hg). fold st1. fold st2.
  destruct (walk_source post st2 a _ (length (heap st1)) Hwf2 Hf2 eq_refl)
    as (f & Hf & Hsrc).
  destruct (walk_static st2 post a _ Hf2) as (f' & Hf' & _ & Hpath & Hexp & _).
  destruct (walk_created st2 post a _ Hf2 eq_refl) as (f'' & Hf'' & Hcr).
  rewrite Hf in Hf', Hf''. injection Hf' as <-. injection Hf'' as <-.
  destruct (walk_static st2 post _ g Hg2) as (g' & Hg' & _ & Hgpath' & _).
  exists a, f, (length (heap st1)). split.
  { apply walk_files_old; [done..|]. apply (walkFn_files_old st1 e p a Hwf1); [lia|].
    by apply Hold1. }
  split; [done|]. simpl in Hpath, Hexp.
  split; [congruence|]. split; [congruence|]. split; [done|].
  assert (from f = Some (length (heap st1))) as Hfrom.
  { destruct Hsrc as [?|(e' & p' & src & He' & Hge' & Hk' & _)]; [done|].
    exfalso. apply Hkey2 in Hk'. subst p'.
    apply (Honce e'); [|done]. apply elem_of_app. by right. }
  split; [done|]. split.
  { exists g'. split; [done|congruence]. }
  intros [Hpost Hcount].
  destruct (walk_one_candidate pre (buildFileMap l) a f0 (Base p) p)
    as (f1' & Hf1' & Hamb1); try done.
  { intros e' He'. apply Honce. apply elem_of_app. by left. }
  fold (reconciled l pre) in Hf1'. fold st1 in Hf1'.
  rewrite Hf1 in Hf1'. injection Hf1' as <-.
  destruct (walk_no_candidate post st2 a _ (Base p) Hf2) as (f' & Hf' & Hamb); [|done|].
  { intros b' Hb'. apply Hbkey0. unfold st2 in Hb'.
    rewrite walkFn_byBase in Hb'. unfold st1, reconciled in Hb'.
    by rewrite walk_byBase in Hb'. }
  rewrite Hf in Hf'. injection Hf' as <-. simpl in Hamb. congruence.
Qed.

End ExactMatchRun.

(** ** A generated file that matches nothing *)

Section Dropped.

Implicit Types (st : state) (e : entry) (es : list entry) (a n q : ptr).
Implicit Types (f g : genFileInfo) (p r : string).

Lemma walkFn_new_cell st e r :
  wf st → generated e = Some r →
  heap (walkFn st e).1 !! length (heap st) = Some (new_cell st e).
Proof.
  intros [Hfiles Hbase _] Hg. unfold new_cell. rewrite Hg. simpl.
  revert Hg. unfold walkFn, generated, alloc.
  destruct (e_rel e) as [relPath|]; simpl; [|done].
  destruct (String.eqb relPath "."); simpl; [done|].
  destruct (e_isDir e); simpl; [done|].
  destruct (HasSuffix (e_path e) ".go"); simpl; [|done].
  intros [= <-].
  destruct (files st !! relPath) as [found|] eqn:Hfound; simpl.
  { apply Hfiles in Hfound. rewrite list_lookup_alter_ne by lia.
    by rewrite list_lookup_middle. }
  destruct (byBase st !! Base (e_path e)) as [copyTo|] eqn:HcopyTo; simpl;
    [|by rewrite list_lookup_middle].
  apply Hbase in HcopyTo. rewrite lookup_app_l by done.
  destruct (heap st !! copyTo) as [c|]; simpl; [|by rewrite list_lookup_middle].
  destruct (unique c); simpl; [|by rewrite list_lookup_middle].
  case_bool_decide as Hfrom; simpl.
  - rewrite list_lookup_alter_eq. rewrite list_lookup_alter_ne by lia.
    rewrite list_lookup_middle by done. by destruct (from c).
  - rewrite list_lookup_alter_eq. rewrite list_lookup_alter_ne by lia.
    rewrite list_lookup_middle by done. by rewrite Hfrom.
Qed.

Lemma walkFn_not_generated st e :
  generated e = None → (walkFn st e).1 = st.
Proof.
  unfold walkFn, generated.
  destruct (e_rel e) as [relPath|]; simpl; [|done].
  destruct (String.eqb relPath "."); simpl; [done|].
  destruct (e_isDir e); simpl; [by destruct (negb _)|].
  by destruct (HasSuffix (e_path e) ".go").
Qed.

#[global] Instance shift_inj n : Inj (=) (=) (shift n).
Proof. intros q1 q2. unfold shift. repeat case_decide; lia. Qed.

Lemma shift_ne n q : shift n q ≠ n.
Proof. unfold shift. case_decide; lia. Qed.

Lemma shift_end n m : (n ≤ m)%nat → shift n m = S m.
Proof. intros. unfold shift. case_decide; lia. Qed.

Lemma cell_after_shift n r (s1 s2 : state) e q f :
  dropped n r s1 s2 → generated e ≠ Some r →
  cell_after s1 e (shift n q) (shift_cell n f) = shift_cell n (cell_after s2 e q f).
Proof.
  intros D Hne. unfold cell_after.
  destruct (generated e) as [r'|] eqn:Hg; [|done].
  assert (r ≠ r') as Hr by congruence.
  rewrite (dr_files _ _ _ _ D), lookup_insert_ne, lookup_fmap by done.
  rewrite (dr_length _ _ _ _ D), <- (shift_end n _ (dr_bound _ _ _ _ D)).
  destruct (files s2 !! r') as [found|]; simpl.
  - destruct (decide (q = found)) as [-> | Hq].
    + by rewrite decide_True.
    + rewrite decide_False; [done|]. by intros ?%(inj _).
  - rewrite (dr_byBase _ _ _ _ D), lookup_fmap.
    destruct (byBase s2 !! _) as [copyTo|]; simpl; [|done].
    destruct (decide (q = copyTo)) as [-> | Hq].
    + rewrite decide_True by done. destruct (unique f); [|done].
      by destruct (from f).
    + rewrite decide_False; [done|]. by intros ?%(inj _).
Qed.

Lemma new_cell_shift n r (s1 s2 : state) e :
  dropped n r s1 s2 → generated e ≠ Some r →
  new_cell s1 e = new_cell s2 e.
Proof.
  intros D Hne. unfold new_cell.
  destruct (generated e) as [r'|] eqn:Hg; simpl.
  - assert (r ≠ r') as Hr by congruence.
    rewrite (dr_files _ _ _ _ D), lookup_insert_ne, lookup_fmap by done.
    destruct (files s2 !! r'); simpl; [done|].
    rewrite (dr_byBase _ _ _ _ D), lookup_fmap.
    destruct (byBase s2 !! _) as [copyTo|]; simpl; [|done].
    rewrite (dr_heap _ _ _ _ D).
    destruct (heap s2 !! copyTo) as [c|]; simpl; [|done].
    destruct (unique c); [|done]. by destruct (from c).
  - rewrite (dr_byBase _ _ _ _ D), lookup_fmap.
    destruct (byBase s2 !! _) as [copyTo|]; simpl; [|done].
    rewrite (dr_heap _ _ _ _ D).
    destruct (heap s2 !! copyTo) as [c|]; simpl; [|done].
    destruct (unique c); [|done]. by destruct (from c).
Qed.

Lemma new_cell_from st e : from (new_cell st e) = None.
Proof. unfold new_cell. repeat case_match; done. Qed.

Lemma walkFn_dropped n r (s1 s2 : state) e :
  dropped n r s1 s2 → generated e ≠ Some r →
  dropped n r (walkFn s1 e).1 (walkFn s2 e).1.
Proof.
  intros D Hne. destruct (generated e) as [r'|] eqn:Hg.
  2:{ by rewrite !walkFn_not_generated. }
  assert (r ≠ r') as Hr by congruence.
  pose proof D as [Hlen Hbound Hheap (g & Hg1 & Hgexp & Hgfrom) Hfiles Hfresh Hbase Hwf1 Hwf2].
  assert (files s1 !! r' = shift n <$> files s2 !! r') as Hlook.
  { by rewrite Hfiles, lookup_insert_ne, lookup_fmap. }
  split.
  - rewrite !walkFn_length, Hg. lia.
  - rewrite walkFn_length, Hg. lia.
  - intros q. destruct (heap s2 !! q) as [f|] eqn:Hq.
    + rewrite (walkFn_cell s2 e q f Hq). simpl.
      assert (heap s1 !! shift n q = Some (shift_cell n f)) as Hq1
        by by rewrite Hheap, Hq.
      rewrite (walkFn_cell s1 e _ _ Hq1). f_equal.
      apply (cell_after_shift n r s1 s2); [done|congruence].
    + apply lookup_ge_None in Hq.
      destruct (decide (q = length (heap s2))) as [-> | Hq'].
      * rewrite (walkFn_new_cell s2 e r' Hwf2 Hg). simpl.
        rewrite shift_end, <- Hlen by done.
        rewrite (walkFn_new_cell s1 e r' Hwf1 Hg). f_equal.
        rewrite (new_cell_shift n r s1 s2 e D) by congruence.
        unfold shift_cell. rewrite new_cell_from. simpl.
        pose proof (new_cell_from s2 e). by destruct (new_cell s2 e); simplify_eq/=.
      * rewrite (proj2 (lookup_ge_None (heap (walkFn s2 e).1) q)).
        2:{ rewrite walkFn_length, Hg. lia. }
        simpl. apply lookup_ge_None. rewrite walkFn_length, Hg, Hlen.
        rewrite shift_end by lia. lia.
  - exists g. split; [|done].
    rewrite (walkFn_cell s1 e n g Hg1). f_equal.
    unfold cell_after. rewrite Hg, Hlook.
    destruct (files s2 !! r') as [found|]; simpl.
    + rewrite decide_False; [done|]. intros Hn. by apply (shift_ne n found).
    + rewrite Hbase, lookup_fmap.
      destruct (byBase s2 !! _) as [copyTo|]; simpl; [|done].
      rewrite decide_False; [done|]. intros Hn. by apply (shift_ne n copyTo).
  - rewrite !walkFn_files, Hg, Hlook.
    destruct (files s2 !! r') as [found|] eqn:Hf2; simpl; [done|].
    rewrite Hfiles, fmap_insert, Hlen, shift_end by done.
    by apply insert_insert_ne.
  - rewrite walkFn_files, Hg.
    destruct (files s2 !! r'); [done|]. by rewrite lookup_insert_ne.
  - by rewrite !walkFn_byBase.
  - by apply walkFn_wf.
  - by apply walkFn_wf.
Qed.

Lemma walk_dropped es : ∀ n r (s1 s2 : state),
  dropped n r s1 s2 →
  (∀ e, e ∈ es → generated e ≠ Some r) →
  dropped n r (walk s1 es).1 (walk s2 es).1.
Proof.
  induction es as [|e es IH]; intros n r s1 s2 D Hne; simpl; [done|].
  pose proof (walkFn_dropped n r s1 s2 e D (Hne e (list_elem_of_here _ _))) as D'.
  pose proof (walkFn_error s1 s2 e) as Herr.
  destruct (walkFn s1 e) as [s1' [err1|]], (walkFn s2 e) as [s2' [err2|]];
    simpl in *; try done.
  apply IH; [done|]. intros e' He'. by apply Hne, list_elem_of_further.
Qed.

Lemma shift_fmap_id n (m : gmap string ptr) :
  (∀ k a, m !! k = Some a → a < n) → shift n <$> m = m.
Proof.
  intros Hlt. apply map_eq. intros k. rewrite lookup_fmap.
  destruct (m !! k) as [a|] eqn:Hk; [|done]. simpl. f_equal.
  apply Hlt in Hk. unfold shift. by rewrite decide_True.
Qed.

(** The call for a generated file that matches neither a key of [files]
    nor a unique basename adds its object and its key, and nothing else. *)
Lemma dropped_init st e r :
  wf st → generated e = Some r →
  files st !! r = None →
  (∀ c f, byBase st !! Base (e_path e) = Some c → heap st !! c = Some f →
          unique f = false) →
  dropped (length (heap st)) r (walkFn st e).1 st.
Proof.
  intros Hwf Hg Hr Hbase. pose proof Hwf as [Hwfiles Hwbase Hwfrom].
  assert (new_cell st e =
          GenFileInfo (Base (e_path e)) (e_path e) false true None false false) as Hnew.
  { unfold new_cell. rewrite Hg. simpl. rewrite Hr.
    destruct (byBase st !! _) as [c|] eqn:Hc; simpl; [|done].
    destruct (heap st !! c) as [f|] eqn:Hf; simpl; [|done].
    by rewrite (Hbase c f). }
  split.
  - by rewrite walkFn_length, Hg.
  - done.
  - intros q. destruct (heap st !! q) as [f|] eqn:Hq; simpl.
    + pose proof (lookup_lt_Some _ _ _ Hq) as Hlt.
      unfold shift at 1. rewrite decide_True by done.
      rewrite (walkFn_cell st e q f Hq). f_equal.
      assert (cell_after st e q f = f) as ->.
      { unfold cell_after. rewrite Hg, Hr.
        destruct (byBase st !! _) as [c|] eqn:Hc; [|done].
        case_decide; [|done]. subst c. by rewrite (Hbase q f). }
      unfold shift_cell. destruct (from f) as [s|] eqn:Hs; simpl.
      * apply (Hwfrom _ _ _ Hq) in Hs as Hs'. unfold shift.
        rewrite decide_True by done. destruct f; by simplify_eq/=.
      * destruct f; by simplify_eq/=.
    + apply lookup_ge_None in Hq. apply lookup_ge_None.
      rewrite walkFn_length, Hg, shift_end by done. lia.
  - rewrite (walkFn_new_cell st e r Hwf Hg), Hnew. by eexists.
  - rewrite walkFn_files, Hg, Hr. by rewrite shift_fmap_id.
  - done.
  - rewrite walkFn_byBase. by rewrite shift_fmap_id.
  - by apply walkFn_wf.
  - done.
Qed.

End Dropped.

Section DroppedRun.

Variable abs : string → string.
Variable readFile : string → string + error.
Variable writeFile : string → option error.
Variable quote : string → string.
Variable importpath : string.

Local Abbreviation runIn := (run abs readFile writeFile quote importpath).
Local Abbreviation emitSwitch := (emitSwitch abs readFile writeFile).
Local Abbreviation emitLoop := (emitLoop abs readFile writeFile quote importpath).

Implicit Types (l : list string) (e : entry) (pre post es : list entry).
Implicit Types (r p : string) (n : ptr).

Lemma emitSwitch_shift n r (s1 s2 : state) f buf :
  dropped n r s1 s2 →
  emitSwitch (heap s1) (shift_cell n f) buf = emitSwitch (heap s2) f buf.
Proof.
  intros D. unfold emitSwitch, shift_cell. simpl.
  destruct (expected f && negb (created f)); [done|].
  destruct (expected f && ambiguious f); [done|].
  destruct (from f) as [src|]; simpl; [|done].
  rewrite (dr_heap _ _ _ _ D). by destruct (heap s2 !! src).
Qed.

Lemma emitLoop_dropped n r (s1 s2 : state) order :
  dropped n r s1 s2 →
  emitLoop s1 order "" = emitLoop s2 (filter (λ k, k ≠ r) order) "".
Proof.
  intros D. induction order as [|k order IH]; [done|].
  destruct (decide (k = r)) as [-> | Hne].
  - rewrite filter_cons_False by (intros ?; done). simpl.
    destruct (dr_cell _ _ _ _ D) as (g & Hg & Hexp & Hfrom).
    rewrite (dr_files _ _ _ _ D), lookup_insert_eq. simpl. rewrite Hg.
    unfold emitSwitch. rewrite Hexp, Hfrom. simpl. rewrite IH.
    by destruct (emitLoop s2 _ "").
  - rewrite filter_cons_True by done. simpl.
    rewrite (dr_files _ _ _ _ D), lookup_insert_ne, lookup_fmap by done.
    destruct (files s2 !! k) as [a|]; simpl; [|done].
    rewrite (dr_heap _ _ _ _ D).
    destruct (heap s2 !! a) as [f|]; simpl; [|done].
    rewrite (emitSwitch_shift n r s1 s2 f "" D).
    destruct (emitSwitch (heap s2) f "") as [[ws buf'] [err|]]; [done|].
    destruct (String.eqb buf' "") eqn:Hbuf; simpl; [|done].
    apply String.eqb_eq in Hbuf as ->. by rewrite IH.
Qed.

Lemma walk_files_None es : ∀ st r,
  files st !! r = None → (∀ e, e ∈ es → generated e ≠ Some r) →
  files (walk st es).1 !! r = None.
Proof.
  induction es as [|e es IH]; intros st r Hr Hne; simpl; [done|].
  assert (files (walkFn st e).1 !! r = None) as Hr1.
  { rewrite walkFn_files. destruct (generated e) as [r'|] eqn:Hg; [|done].
    destruct (files st !! r'); [done|]. rewrite lookup_insert_ne; [done|].
    intros ->. by apply (Hne e (list_elem_of_here _ _)). }
  destruct (walkFn st e) as [st1 [err|]]; simpl in *; [done|].
  apply IH; [done|]. intros e' He'. by apply Hne, list_elem_of_further.
Qed.

Lemma walkFn_file_error st e r :
  e_isDir e = false → e_rel e = inl r → (walkFn st e).2 = None.
Proof.
  intros Hdir Hrel. destruct (generated e) as [r'|] eqn:Hg.
  - by eapply walkFn_generated_error.
  - revert Hg. unfold walkFn, generated. rewrite Hrel, Hdir. simpl.
    destruct (String.eqb r "."); simpl; [done|].
    by destruct (HasSuffix (e_path e) ".go").
Qed.

(** The two registries: with the file and without it. *)
Lemma reconciled_dropped l pre e post r :
  e_isDir e = false → e_rel e = inl r →
  r ∉ l →
  (∀ i p, l !! i = Some p → Base p = Base (e_path e) →
     ∃ j q, j ≠ i ∧ l !! j = Some q ∧ Base q = Base p) →
  (∀ e', e' ∈ pre ++ post → generated e' ≠ Some r) →
  (reconciled l (pre ++ e :: post) = reconciled l (pre ++ post) ∧
   files (reconciled l (pre ++ post)) !! r = None) ∨
  ∃ n, dropped n r (reconciled l (pre ++ e :: post)) (reconciled l (pre ++ post)).
Proof.
  intros Hdir Hrel Hnew Hshared Honce.
  pose proof (registered_buildFileMap l) as Hreg.
  assert (files (buildFileMap l) !! r = None) as Hr0.
  { destruct (files (buildFileMap l) !! r) as [a|] eqn:Ha; [|done].
    destruct (reg_files _ _ Hreg _ _ Ha) as [Hla _].
    exfalso. apply Hnew, list_elem_of_lookup. eauto. }
  assert (files (reconciled l pre) !! r = None) as Hr1.
  { apply walk_files_None; [done|]. intros e' He'. apply Honce, elem_of_app. by left. }
  assert (∀ e', e' ∈ post → generated e' ≠ Some r) as Hpost.
  { intros e' He'. apply Honce, elem_of_app. by right. }
  rewrite !reconciled_app.
  destruct ((walk (buildFileMap l) pre).2) as [err|]; [by left|].
  simpl. pose proof (walkFn_file_error (reconciled l pre) e r Hdir Hrel) as Herr.
  destruct (generated e) as [r'|] eqn:Hg.
  - assert (r' = r) as ->.
    { revert Hg. unfold generated. rewrite Hrel. case_match; congruence. }
    right. exists (length (heap (reconciled l pre))).
    pose proof (dropped_init (reconciled l pre) e r (reconciled_wf l pre) Hg Hr1) as D.
    destruct (walkFn (reconciled l pre) e) as [st1 [err|]]; simpl in *; [done|].
    apply walk_dropped; [|done]. apply D.
    intros c f Hc Hf. unfold reconciled in Hc. rewrite walk_byBase in Hc.
    destruct (reg_byBase _ _ Hreg _ _ Hc) as (p & Hp & Hb).
    destruct (reg_cell _ _ Hreg _ _ Hp) as (f0 & Hf0 & _ & Hu).
    destruct (walk_static (buildFileMap l) pre c f0 Hf0) as (f' & Hf' & _ & _ & _ & Hu').
    unfold reconciled in Hf. rewrite Hf in Hf'. injection Hf' as <-.
    rewrite Hu'. destruct (unique f0); [|done]. exfalso.
    destruct (Hshared c p Hp Hb) as (j & q & Hj & Hq & Hbq).
    apply Hj. destruct Hu as [Hu _]. by eapply Hu.
  - left. pose proof (walkFn_not_generated (reconciled l pre) e Hg) as Hsame.
    destruct (walkFn (reconciled l pre) e) as [st1 [err|]]; simpl in *; [done|].
    subst st1. split; [done|]. by apply walk_files_None.
Qed.

(** C9. Take a regular file of the scratch tree whose relative path is not
    an expected path and whose basename is not the basename of exactly one
    entry of the expected list. In whatever order the map is enumerated,
    the run returns what a run over the scratch tree without that file
    returns, files written and error alike, when the latter enumerates the
    other keys in the same order; and the switch, on the record of the
    file, writes nothing and puts nothing in the buffer. *)
Theorem C9_unmatched_file_is_dropped l pre e post r order :
  e_isDir e = false → e_rel e = inl r →
  r ∉ l →
  length (filter (λ p, Base p = Base (e_path e)) l) ≠ 1 →
  Forall (λ e', generated e' ≠ Some r) (pre ++ post) →
  runIn l (pre ++ e :: post) order
    = runIn l (pre ++ post) (filter (λ k, k ≠ r) order) ∧
  (iteration_order (reconciled l (pre ++ e :: post)) order →
   iteration_order (reconciled l (pre ++ post)) (filter (λ k, k ≠ r) order)) ∧
  (∀ a g buf, files (reconciled l (pre ++ e :: post)) !! r = Some a →
     heap (reconciled l (pre ++ e :: post)) !! a = Some g →
     emitSwitch (heap (reconciled l (pre ++ e :: post))) g buf = ([], buf, None)).
Proof.
  intros Hdir Hrel Hnew Hcount Honce. rewrite Forall_forall in Honce.
  assert (∀ i p, l !! i = Some p → Base p = Base (e_path e) →
            ∃ j q, j ≠ i ∧ l !! j = Some q ∧ Base q = Base p) as Hshared.
  { intros i p Hi Hb.
    destruct (other_index_filter (λ p, Base p = Base (e_path e)) l i p Hi Hb Hcount)
      as (j & q & Hj & Hq & Hbq).
    exists j, q. split; [done|]. split; [done|]. congruence. }
  rewrite !run_emits_reconciled.
  destruct (reconciled_dropped l pre e post r Hdir Hrel Hnew Hshared Honce)
    as [[-> Hr]|[n D]].
  - split; [by rewrite emitLoop_filter|]. split; [|congruence].
    intros [Hnd Hdom]. split; [by apply NoDup_filter|].
    rewrite <- Hdom. apply set_eq. intros k.
    rewrite !elem_of_list_to_set, list_elem_of_filter. split; [by intros [_ ?]|].
    intros Hk. split; [|done]. intros ->.
    assert (r ∈ dom (files (reconciled l (pre ++ post)))) as Hin
      by by rewrite <- Hdom, elem_of_list_to_set.
    apply elem_of_dom in Hin as [? ?]. congruence.
  - split; [by apply (emitLoop_dropped n r)|]. split.
    + intros [Hnd Hdom]. split; [by apply NoDup_filter|].
      rewrite (dr_files _ _ _ _ D), dom_insert_L, dom_fmap_L in Hdom.
      pose proof (dr_fresh _ _ _ _ D) as Hfresh. apply not_elem_of_dom in Hfresh.
      apply set_eq. intros k. rewrite elem_of_list_to_set, list_elem_of_filter.
      assert (k ∈ order ↔ k ∈ ({[r]} ∪ dom (files (reconciled l (pre ++ post)))
                                : gset string)) as ->
        by by rewrite <- Hdom, elem_of_list_to_set.
      rewrite elem_of_union, elem_of_singleton.
      split; [intros [? [?|?]]; done|]. intros Hk. split; [by intros ->|by right].
    + intros a g buf Ha Hg. rewrite (dr_files _ _ _ _ D), lookup_insert_eq in Ha.
      injection Ha as <-. destruct (dr_cell _ _ _ _ D) as (g' & Hg' & Hexp & Hfrom).
      rewrite Hg in Hg'. injection Hg' as <-.
      unfold emitSwitch. by rewrite Hexp, Hfrom.
Qed.

End DroppedRun.

(** ** The claims at concrete inputs *)

Section Instances.


(** C3 does not hold as stated: a/svc.pb.go is expected and the walk finds
    a generated file at exactly that path, then one more file with the
    same basename; under either enumeration order the run writes nothing
    and returns the error that reports a/svc.pb.go as ambiguous. *)
Lemma C3_exact_match_reported_ambiguous :
  generated (file "a/svc.pb.go") = Some "a/svc.pb.go" ∧
  runScenario expectedExact scratchExact ["a/svc.pb.go"; "b/svc.pb.go"]
    = ([], Some (message "a/svc.pb.go")) ∧
  runScenario expectedExact scratchExact ["b/svc.pb.go"; "a/svc.pb.go"]
    = ([], Some (message "a/svc.pb.go")).
Proof. repeat split; by vm_compute. Qed.




Local Abbreviation emitSwitchScenario := (emitSwitch abs readFile writeFile).

(** The run of C1 in the file system of [Scenario]. *)
Lemma C1_first_ambiguity_witness :
  writeFile (abs "c/z.pb.go") = None ∧
  ((∀ p, p ∈ ["a/x.pb.go"; "b/y.pb.go"] →
      ∃ a f, files (reconciled expectedXYZ scratchTwice) !! p = Some a ∧
             heap (reconciled expectedXYZ scratchTwice) !! a = Some f ∧
             expected f = true ∧ ambiguious f = true) ∧
   (∀ order, iteration_order (reconciled expectedXYZ scratchTwice) order →
      ∃ log p, p ∈ ["a/x.pb.go"; "b/y.pb.go"] ∧
        runScenario expectedXYZ scratchTwice order = (log, Some (message p))) ∧
   runScenario expectedXYZ scratchTwice
       ["a/x.pb.go"; "b/y.pb.go"; "c/z.pb.go";
        "p/x.pb.go"; "p/y.pb.go"; "q/x.pb.go"; "q/y.pb.go"]
     = ([], Some (message "a/x.pb.go"))).
Proof.
  split; [evaluate|].
  apply (C1_first_ambiguity_ends_the_loop abs readFile writeFile quote importpath).
  evaluate.
Defined.

(** The runs of C2 in the file system of [Scenario]. *)
Lemma C2_walk_error_witness :
  writeFile (abs "sub/x.pb.go") = None ∧
  ((walk (buildFileMap expectedSub) scratchDenied).2
     = Some (PathError "mkdir" "/out/sub" EACCES) ∧
   runScenario expectedSub scratchDenied ["sub/x.pb.go"]
     = ([(abs "sub/x.pb.go", placeholder)], None) ∧
   (walk (buildFileMap expectedSub) scratchNoRel).2
     = Some (errorString "Rel: can't make relative") ∧
   runScenario expectedSub scratchNoRel ["sub/x.pb.go"]
     = ([(abs "sub/x.pb.go", placeholder)], None)).
Proof.
  split; [evaluate|].
  apply (C2_walk_error_is_dropped abs readFile writeFile quote importpath).
  evaluate.
Defined.



(** C6 in the file system of [Scenario], the map enumerated backwards. *)
Lemma C6_shared_basename_witness :
  writeFile (abs "a/foo.gen.go") = None ∧
  writeFile (abs "b/foo.gen.go") = None ∧
  iteration_order (reconciled expectedFoo scratchFoo)
    ["x/foo.gen.go"; "b/foo.gen.go"; "a/foo.gen.go"] ∧
  (∀ p, p ∈ expectedFoo →
     ∃ a f, files (reconciled expectedFoo scratchFoo) !! p = Some a ∧
            heap (reconciled expectedFoo scratchFoo) !! a = Some f ∧
            unique f = false ∧ created f = false ∧ from f = None) ∧
  ∃ log, runScenario expectedFoo scratchFoo
           ["x/foo.gen.go"; "b/foo.gen.go"; "a/foo.gen.go"] = (log, None) ∧
    log ≡ₚ [(abs "a/foo.gen.go", placeholder); (abs "b/foo.gen.go", placeholder)].
Proof.
  split; [evaluate|]. split; [evaluate|]. split; [evaluate|].
  apply (C6_shared_basename_example abs readFile writeFile quote importpath); evaluate.
Defined.

(** C7 in the file system of [Scenario]. *)
Lemma C7_unique_basename_witness :
  readFile (tmpDir +:+ "/generated/svc.pb.go")
    = inl ("content of " +:+ tmpDir +:+ "/generated/svc.pb.go") ∧
  writeFile (abs "out/svc.pb.go") = None ∧
  iteration_order (reconciled expectedSvc scratchSvc)
    ["out/svc.pb.go"; "generated/svc.pb.go"] ∧
  (∃ a f src g,
     files (reconciled expectedSvc scratchSvc) !! "out/svc.pb.go" = Some a ∧
     heap (reconciled expectedSvc scratchSvc) !! a = Some f ∧
     unique f = true ∧ from f = Some src ∧
     heap (reconciled expectedSvc scratchSvc) !! src = Some g ∧
     path g = tmpDir +:+ "/generated/svc.pb.go") ∧
  runScenario expectedSvc scratchSvc ["out/svc.pb.go"; "generated/svc.pb.go"]
    = ([(abs "out/svc.pb.go", "content of " +:+ tmpDir +:+ "/generated/svc.pb.go")],
       None).
Proof.
  split; [evaluate|]. split; [evaluate|]. split; [evaluate|].
  apply (C7_unique_basename_example abs readFile writeFile quote importpath); evaluate.
Defined.

(** C8 for a/foo.gen.go next to b/foo.gen.go. *)
Lemma C8_shared_basename_witness :
  expectedFoo !! 0 = Some "a/foo.gen.go" ∧ expectedFoo !! 1 = Some "b/foo.gen.go" ∧
  0 ≠ 1 ∧ Base "a/foo.gen.go" = Base "b/foo.gen.go" ∧
  (∃ a f, files (buildFileMap expectedFoo) !! "a/foo.gen.go" = Some a ∧
          heap (buildFileMap expectedFoo) !! a = Some f ∧
          path f = "a/foo.gen.go" ∧ unique f = false) ∧
  (∀ es a f, heap (buildFileMap expectedFoo) !! a = Some f →
     ∃ f', heap (reconciled expectedFoo es) !! a = Some f' ∧ unique f' = unique f).
Proof.
  split; [evaluate|]. split; [evaluate|]. split; [evaluate|]. split; [evaluate|].
  apply (C8_shared_basename_not_unique expectedFoo 0 1 "a/foo.gen.go" "b/foo.gen.go");
    evaluate.
Defined.


(** C9 for x/foo.gen.go, which matches neither a/foo.gen.go nor
    b/foo.gen.go. *)
Lemma C9_unmatched_file_witness :
  e_isDir (file "x/foo.gen.go") = false ∧
  e_rel (file "x/foo.gen.go") = inl "x/foo.gen.go" ∧
  ("x/foo.gen.go" ∉ expectedFoo) ∧
  length (filter (λ p, Base p = Base (e_path (file "x/foo.gen.go"))) expectedFoo) ≠ 1 ∧
  Forall (λ e', generated e' ≠ Some "x/foo.gen.go") (scratchX ++ []) ∧
  runScenario expectedFoo (scratchX ++ file "x/foo.gen.go" :: [])
      ["a/foo.gen.go"; "x/foo.gen.go"; "b/foo.gen.go"]
    = runScenario expectedFoo (scratchX ++ [])
        (filter (λ k, k ≠ "x/foo.gen.go")
                ["a/foo.gen.go"; "x/foo.gen.go"; "b/foo.gen.go"]) ∧
  (iteration_order (reconciled expectedFoo (scratchX ++ file "x/foo.gen.go" :: []))
     ["a/foo.gen.go"; "x/foo.gen.go"; "b/foo.gen.go"] →
   iteration_order (reconciled expectedFoo (scratchX ++ []))
     (filter (λ k, k ≠ "x/foo.gen.go")
             ["a/foo.gen.go"; "x/foo.gen.go"; "b/foo.gen.go"])) ∧
  (∀ a g buf,
     files (reconciled expectedFoo (scratchX ++ file "x/foo.gen.go" :: []))
       !! "x/foo.gen.go" = Some a →
     heap (reconciled expectedFoo (scratchX ++ file "x/foo.gen.go" :: [])) !! a
       = Some g →
     emitSwitchScenario
       (heap (reconciled expectedFoo (scratchX ++ file "x/foo.gen.go" :: []))) g buf
     = ([], buf, None)).
Proof.
  split; [evaluate|]. split; [evaluate|]. split; [evaluate|]. split; [evaluate|].
  split; [evaluate|].
  apply (C9_unmatched_file_is_dropped abs readFile writeFile quote importpath);
    evaluate.
Defined.


(** C10 for a/x.pb.go listed twice. *)
Lemma C10_duplicate_witness :
  expectedTwice !! 0 = Some "a/x.pb.go" ∧ expectedTwice !! 1 = Some "a/x.pb.go" ∧
  0 < 1 ∧
  ∃ a f, files (buildFileMap expectedTwice) !! "a/x.pb.go" = Some a ∧ (1 ≤ a)%nat ∧
    expectedTwice !! a = Some "a/x.pb.go" ∧
    (∀ k, files (buildFileMap expectedTwice) !! k ≠ Some 0) ∧
    files (reconciled expectedTwice scratchQ) !! "a/x.pb.go" = Some a ∧
    heap (reconciled expectedTwice scratchQ) !! a = Some f ∧
    path f = "a/x.pb.go" ∧ unique f = false ∧ ambiguious f = false ∧
    (created f = false ∧ from f = None ∨
     created f = true ∧ ∃ e src g, e ∈ scratchQ ∧ generated e = Some "a/x.pb.go" ∧
       from f = Some src ∧ heap (reconciled expectedTwice scratchQ) !! src = Some g ∧
       path g = e_path e) ∧
    ∀ order log,
      iteration_order (reconciled expectedTwice scratchQ) order →
      runScenario expectedTwice scratchQ order = (log, None) →
      (created f = false ∧ (abs "a/x.pb.go", placeholder) ∈ log) ∨
      (∃ e data, e ∈ scratchQ ∧ generated e = Some "a/x.pb.go" ∧
         readFile (e_path e) = inl data ∧ (abs "a/x.pb.go", data) ∈ log).
Proof.
  split; [evaluate|]. split; [evaluate|]. split; [lia|].
  apply (C10_duplicate_expected_path abs readFile writeFile quote importpath
           expectedTwice scratchQ 0 1 "a/x.pb.go"); first [evaluate | lia].
Defined.

End Instances.

(** * Further properties of the reconciliation *)

(** ** More about the file map *)

Section RegistryMore.

Implicit Types (st : state) (l : list string) (p k b : string) (i j a : nat).

Lemma single_filter_index {A} (P : A → Prop) `{∀ x, Decision (P x)}
    (l : list A) i j x y :
  length (filter P l) = 1 →
  l !! i = Some x → P x → l !! j = Some y → P y → i = j.
Proof.
  revert i j. induction l as [|z l IH]; intros i j Hlen Hi Hx Hj Hy; [done|].
  destruct (decide (P z)) as [Hz|Hz].
  - rewrite filter_cons_True in Hlen by done. simpl in Hlen.
    assert (filter P l = []) as Hnil by by destruct (filter P l).
    assert (∀ n w, l !! n = Some w → ¬ P w) as Hno.
    { intros n w Hn Hw. apply (filter_nil_not_elem_of P l w Hnil Hw).
      apply list_elem_of_lookup. eauto. }
    destruct i as [|i], j as [|j]; simpl in *; try done.
    + by apply Hno in Hj.
    + by apply Hno in Hi.
    + exfalso. by apply Hno in Hi.
  - rewrite filter_cons_False in Hlen by done.
    destruct i as [|i], j as [|j]; simpl in *; simplify_eq; try done.
    f_equal. by eapply IH.
Qed.

Lemma buildFileMap_keys l k : is_Some (files (buildFileMap l) !! k) ↔ k ∈ l.
Proof.
  pose proof (registered_buildFileMap l) as Hreg. split.
  - intros [a Ha]. destruct (reg_files _ _ Hreg _ _ Ha) as [Hl _].
    apply list_elem_of_lookup. eauto.
  - by apply registered_lookup.
Qed.

(** X1. The keys of [files] after the registration loop are exactly the
    paths of the expected list, one object has been allocated per entry of
    the list, and the record of a path is as the loop creates it: expected,
    not created, without a source, not ambiguous. *)
Theorem X1_file_map_keys l p :
  length (heap (buildFileMap l)) = length l ∧
  (is_Some (files (buildFileMap l) !! p) ↔ p ∈ l) ∧
  ∀ a, files (buildFileMap l) !! p = Some a →
    l !! a = Some p ∧
    ∃ f, heap (buildFileMap l) !! a = Some f ∧ set_unique true f = fresh p.
Proof.
  pose proof (registered_buildFileMap l) as Hreg.
  split; [apply (reg_length _ _ Hreg)|]. split; [apply buildFileMap_keys|].
  intros a Ha.
  destruct (registered_record _ _ _ _ Hreg Ha) as (Hl & _ & f & Hf & Hfresh & _).
  split; [done|]. by exists f.
Qed.

Lemma registered_unique l st p a f :
  registered l st → files st !! p = Some a → heap st !! a = Some f →
  unique f = true ↔ length (filter (λ q, Base q = Base p) l) = 1.
Proof.
  intros Hreg Ha Hf.
  destruct (registered_record _ _ _ _ Hreg Ha) as (Hl & _ & f' & Hf' & _ & Hu).
  rewrite Hf in Hf'. injection Hf' as <-. rewrite Hu. split.
  - intros Hall.
    destruct (decide (length (filter (λ q, Base q = Base p) l) = 1)) as [|Hne]; [done|].
    destruct (other_index_filter (λ q, Base q = Base p) l a p Hl eq_refl Hne)
      as (j & q & Hj & Hq & Hb).
    exfalso. apply Hj. by eapply Hall.
  - intros Hlen j q Hj Hb.
    by apply (single_filter_index (λ q, Base q = Base p) l j a q p Hlen).
Qed.

(** X2. The record that [files] holds for an expected path has [unique] on
    exactly when one entry of the expected list, and no more, has its
    basename; the walk does not change that. *)
Theorem X2_unique_iff_single_basename l es p a f :
  files (reconciled l es) !! p = Some a →
  heap (reconciled l es) !! a = Some f →
  p ∈ l →
  unique f = true ↔ length (filter (λ q, Base q = Base p) l) = 1.
Proof.
  intros Ha Hf Hin.
  pose proof (registered_buildFileMap l) as Hreg.
  destruct (registered_lookup l _ p Hreg Hin) as [a0 Ha0].
  destruct (registered_record _ _ _ _ Hreg Ha0) as (Hl & _ & f0 & Hf0 & _ & _).
  pose proof (lookup_lt_Some _ _ _ Hf0) as Hlt.
  assert (a = a0) as ->.
  { apply (walk_files_old (buildFileMap l) es p a0) in Ha0;
      [|by eapply registered_wf|done]. unfold reconciled in Ha. congruence. }
  destruct (walk_static (buildFileMap l) es a0 f0 Hf0) as (f' & Hf' & _ & _ & _ & Hu).
  unfold reconciled in Hf. rewrite Hf in Hf'. injection Hf' as <-.
  rewrite Hu. by apply (registered_unique l (buildFileMap l) p a0 f0).
Qed.

Lemma firsts_step l st p :
  registered l st → firsts l st → firsts (l ++ [p]) (register st p).
Proof.
  intros Hreg Hfirst b i. rewrite register_byBase.
  destruct (byBase st !! Base p) as [b0|] eqn:Hb0.
  - intros Hb j q Hj Hq.
    destruct (reg_byBase _ _ Hreg _ _ Hb) as (pb & Hpb & _).
    apply lookup_lt_Some in Hpb.
    rewrite lookup_app_l in Hq by lia. by eapply Hfirst.
  - intros [[<- <-]|[Hne Hb]]%lookup_insert_Some j q Hj Hq.
    + rewrite (reg_length _ _ Hreg) in Hj. rewrite lookup_app_l in Hq by done.
      apply (reg_byBase_None _ _ Hreg _ Hb0). apply list_elem_of_lookup. eauto.
    + destruct (reg_byBase _ _ Hreg _ _ Hb) as (pb & Hpb & _).
      apply lookup_lt_Some in Hpb.
      rewrite lookup_app_l in Hq by lia. by eapply Hfirst.
Qed.

Lemma firsts_fold l' : ∀ l st,
  registered l st → firsts l st → firsts (l ++ l') (fold_left register l' st).
Proof.
  induction l' as [|p l' IH]; intros l st Hreg Hfirst; simpl.
  - by rewrite app_nil_r.
  - replace (l ++ p :: l') with ((l ++ [p]) ++ l') by by rewrite <- app_assoc.
    apply IH; [by apply registered_step|by apply firsts_step].
Qed.

(** X3. [byBase] has a key for exactly the basenames of the expected list,
    and what it holds for a basename is the object of the first entry of
    the list with that basename; the walk leaves [byBase] as the
    registration loop built it. *)
Theorem X3_byBase_first_registration l es b i :
  byBase (reconciled l es) !! b = Some i ↔
  (∃ p, l !! i = Some p ∧ Base p = b) ∧
  ∀ j q, j < i → l !! j = Some q → Base q ≠ b.
Proof.
  unfold reconciled. rewrite walk_byBase.
  pose proof (registered_buildFileMap l) as Hreg.
  assert (firsts l (buildFileMap l)) as Hfirst.
  { apply (firsts_fold l [] initial registered_initial). by intros ? ?. }
  split.
  - intros Hb. split; [by apply (reg_byBase _ _ Hreg)|by apply Hfirst].
  - intros [(p & Hp & Hbp) Hmin].
    destruct (byBase (buildFileMap l) !! b) as [i'|] eqn:Hb.
    + destruct (reg_byBase _ _ Hreg _ _ Hb) as (p' & Hp' & Hbp').
      f_equal. destruct (lt_eq_lt_dec i i') as [[Hlt|Heq]|Hgt]; [|done|].
      * exfalso. by apply (Hfirst _ _ Hb i p).
      * exfalso. by apply (Hmin i' p').
    + exfalso. apply (reg_byBase_None _ _ Hreg _ Hb p); [|done].
      apply list_elem_of_lookup. eauto.
Qed.

End RegistryMore.

(** ** More about the walk *)

Section WalkMore.

Variable abs : string → string.
Variable readFile : string → string + error.
Variable writeFile : string → option error.
Variable quote : string → string.
Variable importpath : string.

Local Abbreviation runIn := (run abs readFile writeFile quote importpath).

Implicit Types (st : state) (l : list string) (e : entry) (pre post es : list entry).
Implicit Types (r k : string) (err : error).

Lemma walkFn_error_cases st e :
  (walkFn st e).2 =
    match e_rel e with
    | inr err => Some err
    | inl r =>
        if String.eqb r "." then None
        else if e_isDir e then (if IsExist (e_mkdir e) then None else e_mkdir e)
        else None
    end.
Proof.
  destruct (generated e) as [r'|] eqn:Hg.
  - rewrite (walkFn_generated_error st e r' Hg). revert Hg. unfold generated.
    destruct (e_rel e) as [r|]; [|done].
    destruct (String.eqb r "."); [done|]. by destruct (e_isDir e).
  - revert Hg. unfold walkFn, generated.
    destruct (e_rel e) as [r|]; simpl; [|done].
    destruct (String.eqb r "."); simpl; [done|].
    destruct (e_isDir e); simpl; [by destruct (IsExist _)|].
    by destruct (HasSuffix (e_path e) ".go").
Qed.

Lemma walkFn_error_state st e err :
  (walkFn st e).2 = Some err → (walkFn st e).1 = st.
Proof.
  intros Herr. apply walkFn_not_generated.
  destruct (generated e) as [r|] eqn:Hg; [|done].
  rewrite (walkFn_generated_error st e r Hg) in Herr. done.
Qed.

(** X5. The walk ends at the first entry for which [filepath.Rel] fails or
    for which the directory cannot be made for a reason other than its being
    there already: the walk returns that error, no later entry is visited,
    and [run] goes on with the registry as it was when the walk ended. *)
Theorem X5_walk_ends_at_first_error l pre e post err order :
  (walk (buildFileMap l) pre).2 = None →
  (e_rel e = inr err ∨
   ∃ r, e_rel e = inl r ∧ r ≠ "." ∧ e_isDir e = true ∧
        e_mkdir e = Some err ∧ IsExist (Some err) = false) →
  walk (buildFileMap l) (pre ++ e :: post) = (reconciled l pre, Some err) ∧
  runIn l (pre ++ e :: post) order = runIn l pre order.
Proof.
  intros Hpre Hcase.
  assert ((walkFn (reconciled l pre) e).2 = Some err) as Herr.
  { rewrite walkFn_error_cases.
    destruct Hcase as [-> | (r & -> & Hr & -> & Hm & Hex)]; [done|].
    apply String.eqb_neq in Hr. rewrite Hr, Hm. by rewrite Hex. }
  pose proof (walkFn_error_state _ _ _ Herr) as Hst.
  assert (walk (buildFileMap l) (pre ++ e :: post) = (reconciled l pre, Some err)) as Hw.
  { rewrite walk_app. unfold reconciled in *.
    destruct (walk (buildFileMap l) pre) as [st1 [?|]]; [done|]. simpl in *.
    destruct (walkFn st1 e) as [st2 [?|]]; simpl in *; [|done]. congruence. }
  split; [done|].
  rewrite !run_emits_reconciled. unfold reconciled at 1. by rewrite Hw.
Qed.

(** X6. The root of the scratch tree, a directory that could be made or was
    there already, and a regular file whose path does not end in [.go] are
    passed over: the walk, and so the run, is the same with the entry as
    without it. *)
Theorem X6_passed_over_entries l pre e post r order :
  e_rel e = inl r →
  (r = "." ∨
   e_isDir e = true ∧ (e_mkdir e = None ∨ IsExist (e_mkdir e) = true) ∨
   e_isDir e = false ∧ HasSuffix (e_path e) ".go" = false) →
  walk (buildFileMap l) (pre ++ e :: post) = walk (buildFileMap l) (pre ++ post) ∧
  runIn l (pre ++ e :: post) order = runIn l (pre ++ post) order.
Proof.
  intros Hrel Hcase.
  assert (∀ st, walkFn st e = (st, None)) as Hstep.
  { intros st. unfold walkFn. rewrite Hrel.
    destruct (String.eqb r ".") eqn:Hr; [done|].
    destruct Hcase as [-> | [(-> & Hm)|(-> & Hgo)]]; [done| |].
    - destruct Hm as [-> | ->]; [done|]. done.
    - by rewrite Hgo. }
  assert (walk (buildFileMap l) (pre ++ e :: post) = walk (buildFileMap l) (pre ++ post))
    as Hw.
  { rewrite !walk_app. destruct (walk (buildFileMap l) pre) as [st1 [?|]]; [done|].
    simpl. by rewrite Hstep. }
  split; [done|]. unfold run. by rewrite Hw.
Qed.

Lemma walk_keys es : ∀ st k,
  (walk st es).2 = None →
  is_Some (files (walk st es).1 !! k) ↔
  is_Some (files st !! k) ∨ ∃ e, e ∈ es ∧ generated e = Some k.
Proof.
  induction es as [|e es IH]; intros st k Hok; simpl in *.
  { split; [by left|]. intros [?|(e & He & _)]; [done|]. by apply not_elem_of_nil in He. }
  pose proof (walkFn_files st e) as Hfiles.
  destruct (walkFn st e) as [st1 [err|]]; simpl in *; [done|].
  rewrite (IH st1 k Hok), Hfiles.
  assert (is_Some (match generated e with
                   | Some r => match files st !! r with
                               | Some _ => files st
                               | None => <[r:=length (heap st)]> (files st)
                               end
                   | None => files st end !! k)
          ↔ is_Some (files st !! k) ∨ generated e = Some k) as ->.
  { destruct (generated e) as [r|]; [|split; [by left|intros [?|?]; done]].
    destruct (files st !! r) eqn:Hr.
    - split; [by left|]. intros [?|[= ->]]; [done|]. by rewrite Hr.
    - rewrite lookup_insert_is_Some. split.
      + intros [->|[_ ?]]; [by right|by left].
      + intros [?|[= ->]]; [|by left].
        destruct (decide (r = k)); [by left|by right]. }
  split.
  - intros [[?|Hg]|(e' & He' & Hg')]; [by left|right..].
    + exists e. split; [apply list_elem_of_here|done].
    + exists e'. split; [by apply list_elem_of_further|done].
  - intros [?|(e' & He' & Hg')]; [by left; left|].
    apply elem_of_cons in He' as [-> | He']; [by left; right|].
    right. by exists e'.
Qed.

(** X7. After a walk that ended without error, the keys of [files] are the
    expected paths and the relative paths of the regular [.go] files the
    walk has visited, and nothing else: directories and other files get no
    record. *)
Theorem X7_keys_after_walk l es k :
  (walk (buildFileMap l) es).2 = None →
  is_Some (files (reconciled l es) !! k) ↔
  k ∈ l ∨ ∃ e, e ∈ es ∧ generated e = Some k.
Proof.
  intros Hok. unfold reconciled. rewrite (walk_keys es _ k Hok).
  by rewrite buildFileMap_keys.
Qed.

End WalkMore.

(** ** The states of an expected record *)

Section Outcomes.

Variable abs : string → string.
Variable readFile : string → string + error.
Variable writeFile : string → option error.
Variable quote : string → string.
Variable importpath : string.

Local Abbreviation runIn := (run abs readFile writeFile quote importpath).
Local Abbreviation emitSwitchIn := (emitSwitch abs readFile writeFile).
Local Abbreviation emittedIn := (emitted abs readFile writeFile).

Implicit Types (st : state) (l : list string) (e : entry) (pre mid post es : list entry).
Implicit Types (r k p b : string) (a : nat) (f : genFileInfo).

Lemma cell_after_settled st e a f : settled f → settled (cell_after st e a f).
Proof.
  intros [Hcf Hamb]. unfold cell_after, settled.
  destruct (generated e) as [r|]; [|done].
  destruct (files st !! r).
  { case_decide; [|done]. simpl. split; [by split; eauto|].
    intros Ha. by destruct (Hamb Ha). }
  destruct (byBase st !! _); [|done]. case_decide; [|done].
  destruct (unique f) eqn:Hu.
  2:{ split; [exact Hcf|]. intros Ha. by destruct (Hamb Ha). }
  destruct (from f) as [s|] eqn:Hs; simpl.
  - rewrite Hs, Hu. split; [done|]. intros _. split; [done|]. by apply Hcf.
  - rewrite Hu. split; [by split; eauto|]. intros Ha. by destruct (Hamb Ha).
Qed.

Lemma walk_settled st es a f :
  heap st !! a = Some f → settled f →
  ∃ f', heap (walk st es).1 !! a = Some f' ∧ settled f'.
Proof.
  intros Hf Hs.
  apply (walk_ind (λ st', ∃ f', heap st' !! a = Some f' ∧ settled f')); [|by exists f].
  intros st' e (f' & Hf' & Hs'). eexists. split; [by apply walkFn_cell|].
  by apply cell_after_settled.
Qed.

(** The record of an expected path, in the file map and after a walk. *)
Lemma registry_record l es p :
  p ∈ l →
  ∃ a f0 f,
    files (buildFileMap l) !! p = Some a ∧ l !! a = Some p ∧
    heap (buildFileMap l) !! a = Some f0 ∧ set_unique true f0 = fresh p ∧
    (unique f0 = true ↔ length (filter (λ q, Base q = Base p) l) = 1) ∧
    files (reconciled l es) !! p = Some a ∧
    (∀ r, files (reconciled l es) !! r = Some a → r = p) ∧
    (∀ b, byBase (reconciled l es) !! b = Some a → b = Base p) ∧
    heap (reconciled l es) !! a = Some f ∧
    path f = p ∧ expected f = true ∧ unique f = unique f0 ∧ settled f.
Proof.
  intros Hin.
  pose proof (registered_buildFileMap l) as Hreg.
  pose proof (registered_wf _ _ Hreg) as Hwf.
  destruct (registered_lookup l _ p Hreg Hin) as [a Ha].
  destruct (registered_record _ _ _ _ Hreg Ha) as (Hl & Hkey & f0 & Hf0 & Hfresh & _).
  pose proof (lookup_lt_Some _ _ _ Hf0) as Hlt.
  assert (path f0 = p ∧ expected f0 = true ∧ ambiguious f0 = false ∧
          created f0 = false ∧ from f0 = None)
    as (Hpath0 & Hexp0 & Hamb0 & Hcr0 & Hfrom0).
  { unfold fresh, set_unique in Hfresh. by injection Hfresh as _ -> -> -> -> ->. }
  destruct (walk_static (buildFileMap l) es a f0 Hf0) as (f & Hf & _ & Hpath & Hexp & Hu).
  destruct (walk_settled (buildFileMap l) es a f0 Hf0) as (f' & Hf' & Hset).
  { split; [by rewrite Hcr0, Hfrom0; split; [|intros [? ?]]|by rewrite Hamb0]. }
  rewrite Hf in Hf'. injection Hf' as <-.
  exists a, f0, f.
  split; [done|]. split; [done|]. split; [done|]. split; [done|].
  split; [by apply (registered_unique l (buildFileMap l) p a f0)|].
  split; [by apply walk_files_old|].
  split.
  { intros r Hr. apply Hkey. by apply (walk_files_old (buildFileMap l) es r a). }
  split.
  { intros b Hb. unfold reconciled in Hb. rewrite walk_byBase in Hb.
    destruct (reg_byBase _ _ Hreg _ _ Hb) as (p' & Hp' & <-). congruence. }
  split; [done|]. split; [congruence|]. split; [congruence|]. split; [done|].
  exact Hset.
Qed.

(** X8. Whatever the walk visits, the record of an expected path is created
    exactly when it has a source, and it is marked ambiguous only when it is
    unique and has a source. So the switch never passes over an expected
    record in silence: when it lets the loop go on, it has written one file,
    at the expected path. *)
Theorem X8_expected_record_states l es p :
  p ∈ l →
  ∃ a f, files (reconciled l es) !! p = Some a ∧
    heap (reconciled l es) !! a = Some f ∧
    path f = p ∧ expected f = true ∧
    (created f = true ↔ is_Some (from f)) ∧
    (ambiguious f = true → unique f = true ∧ created f = true) ∧
    ∀ ws, emittedIn (heap (reconciled l es)) f ws → ∃ data, ws = [(abs p, data)].
Proof.
  intros Hin.
  destruct (registry_record l es p Hin)
    as (a & f0 & f & _ & _ & _ & _ & _ & Ha & _ & _ & Hf & Hpath & Hexp & _ & Hcf & Hamb).
  exists a, f.
  split; [done|]. split; [done|]. split; [done|]. split; [done|].
  split; [exact Hcf|]. split; [exact Hamb|].
  intros ws Hem. inversion Hem as [? Hcr Hw|src data E1 E2 Hfrom Hr Hw|E1 E2 Hfrom]; subst ws.
  - exists placeholder. by rewrite Hpath.
  - exists data. by rewrite Hpath.
  - exfalso. rewrite Hexp in E1. simpl in E1. apply negb_false_iff in E1.
    apply Hcf in E1 as [? ?]. congruence.
Qed.

(** A record stays as it is while the walk visits neither a generated file
    at its path nor one with the basename that leads to it in [byBase]. *)
Lemma walk_untouched es : ∀ st a f b p,
  wf st →
  heap st !! a = Some f →
  (∀ b', byBase st !! b' = Some a → b' = b) →
  (∀ r, files st !! r = Some a → r = p) →
  Forall (λ e, generated e ≠ Some p ∧ ¬ candidate b e) es →
  heap (walk st es).1 !! a = Some f.
Proof.
  induction es as [|e es IH]; intros st a f b p Hwf Hf Hbkey Hkey Hall; simpl; [done|].
  apply Forall_cons in Hall as [[Hnp Hnc] Hall].
  pose proof (walkFn_cell st e a f Hf) as Hf1.
  pose proof (walkFn_byBase st e) as Hbb.
  pose proof (walkFn_wf st e Hwf) as Hwf1.
  pose proof (lookup_lt_Some _ _ _ Hf) as Hlt.
  pose proof (walkFn_files_old st e) as Hold.
  assert (cell_after st e a f = f) as Heq.
  { unfold cell_after. destruct (generated e) as [r|] eqn:Hg; [|done].
    destruct (files st !! r) as [found|] eqn:Hr.
    - case_decide; [|done]. subst found. apply Hkey in Hr. congruence.
    - destruct (byBase st !! _) as [copyTo|] eqn:Hb; [|done].
      case_decide; [|done]. subst copyTo. exfalso. apply Hnc.
      split; [by rewrite Hg|]. by apply Hbkey. }
  rewrite Heq in Hf1.
  destruct (walkFn st e) as [st1 [err|]]; simpl in *; [done|].
  apply (IH st1 a f b p); try done.
  - by rewrite Hbb.
  - intros r Hr. apply Hkey. by apply (Hold r a Hwf Hlt).
Qed.

Lemma cell_after_ambiguious_mono st e a f :
  ambiguious f = true → ambiguious (cell_after st e a f) = true.
Proof. intros Ha. unfold cell_after. repeat case_match; done. Qed.

Lemma walk_ambiguious_mono st es a f :
  heap st !! a = Some f → ambiguious f = true →
  ∃ f', heap (walk st es).1 !! a = Some f' ∧ ambiguious f' = true.
Proof.
  intros Hf Ha.
  apply (walk_ind (λ st', ∃ f', heap st' !! a = Some f' ∧ ambiguious f' = true));
    [|by exists f].
  intros st' e (f' & Hf' & Ha'). eexists. split; [by apply walkFn_cell|].
  by apply cell_after_ambiguious_mono.
Qed.

(** The record of a path whose basename no other entry has is the one that
    [byBase] holds for the basename. *)
Lemma unique_byBase l es p a :
  files (buildFileMap l) !! p = Some a →
  length (filter (λ q, Base q = Base p) l) = 1 →
  byBase (reconciled l es) !! Base p = Some a.
Proof.
  intros Ha Hlen. unfold reconciled. rewrite walk_byBase.
  pose proof (registered_buildFileMap l) as Hreg.
  destruct (reg_files _ _ Hreg _ _ Ha) as [Hl _].
  destruct (byBase (buildFileMap l) !! Base p) as [i|] eqn:Hb.
  - destruct (reg_byBase _ _ Hreg _ _ Hb) as (p' & Hp' & Hbp').
    f_equal. by apply (single_filter_index (λ q, Base q = Base p) l i a p' p Hlen).
  - exfalso. apply (reg_byBase_None _ _ Hreg _ Hb p); [|done].
    apply list_elem_of_lookup. eauto.
Qed.

(** X9. When the walk visits no generated file at an expected path and none
    with its basename, the record stays as registered: not created, without
    a source, not ambiguous. The switch writes the placeholder at the path,
    and a run that returns no error has written it. *)
Theorem X9_missing_output_placeholder l es p :
  p ∈ l →
  Forall (λ e, generated e ≠ Some p ∧ ¬ candidate (Base p) e) es →
  ∃ a f, files (reconciled l es) !! p = Some a ∧
    heap (reconciled l es) !! a = Some f ∧
    created f = false ∧ from f = None ∧ ambiguious f = false ∧
    (∀ buf, writeFile (abs p) = None →
       emitSwitchIn (heap (reconciled l es)) f buf
         = ([(abs p, placeholder)], buf, None)) ∧
    ∀ order log,
      iteration_order (reconciled l es) order →
      runIn l es order = (log, None) →
      (abs p, placeholder) ∈ log.
Proof.
  intros Hin Hall.
  destruct (registry_record l [] p Hin)
    as (a & f0 & _ & Ha0 & _ & Hf0 & Hfresh & _ & _ & Hkey & Hbkey & _).
  destruct (registry_record l es p Hin)
    as (a' & _ & _ & Ha0' & _ & _ & _ & _ & Ha & _).
  rewrite Ha0 in Ha0'. injection Ha0' as <-.
  assert (path f0 = p ∧ expected f0 = true ∧ ambiguious f0 = false ∧
          created f0 = false ∧ from f0 = None)
    as (Hpath & Hexp & Hamb & Hcr & Hfrom).
  { unfold fresh, set_unique in Hfresh. by injection Hfresh as _ -> -> -> -> ->. }
  assert (heap (reconciled l es) !! a = Some f0) as Hf.
  { apply (walk_untouched es (buildFileMap l) a f0 (Base p) p); try done.
    eapply registered_wf, registered_buildFileMap. }
  exists a, f0. split; [done|]. split; [done|].
  split; [done|]. split; [done|]. split; [done|]. split.
  - intros buf Hw. unfold emitSwitch. by rewrite Hexp, Hcr, Hpath, Hw.
  - intros order log Ho Hrun.
    destruct (run_success_record abs readFile writeFile quote importpath
                l es order log p a f0 Ho Hrun Ha Hf Hexp)
      as [[_ Hlog]|(Hcr' & _)]; [by rewrite <- Hpath at 1|congruence].
Qed.

(** The state of an expected record with a unique basename when a generated
    file with that basename, at a path that is not yet a key of [files], has
    just been visited: it has a source. *)
Lemma fallback_step st e r a f :
  generated e = Some r → files st !! r = None →
  byBase st !! Base (e_path e) = Some a → unique f = true →
  cell_after st e a f =
    match from f with
    | Some _ => set_ambiguious true f
    | None => set_created true (set_from (Some (length (heap st))) f)
    end.
Proof.
  intros Hg Hr Hb Hu. unfold cell_after. rewrite Hg, Hr, Hb, Hu.
  by rewrite decide_True.
Qed.

(** X10. When the walk visits no generated file at an expected path whose
    basename no other expected path has, and exactly one generated file with
    that basename, at a path of its own, the record ends with that file as
    its source and is not ambiguous; a run that returns no error has copied
    the bytes of that file to the expected path. *)
Theorem X10_single_candidate_is_bound l pre e post p r :
  p ∈ l →
  length (filter (λ q, Base q = Base p) l) = 1 →
  generated e = Some r → r ∉ l → Base (e_path e) = Base p →
  (walk (buildFileMap l) pre).2 = None →
  Forall (λ e', generated e' ≠ Some p ∧ generated e' ≠ Some r ∧
                ¬ candidate (Base p) e') (pre ++ post) →
  ∃ a f src, files (reconciled l (pre ++ e :: post)) !! p = Some a ∧
    heap (reconciled l (pre ++ e :: post)) !! a = Some f ∧
    created f = true ∧ ambiguious f = false ∧ from f = Some src ∧
    source_of (heap (reconciled l (pre ++ e :: post))) src e ∧
    ∀ order log,
      iteration_order (reconciled l (pre ++ e :: post)) order →
      runIn l (pre ++ e :: post) order = (log, None) →
      ∃ data, readFile (e_path e) = inl data ∧ (abs p, data) ∈ log.
Proof.
  intros Hin Hlen Hg Hnew Hbase Hpre Hall.
  apply Forall_app in Hall as [Hallpre Hallpost].
  destruct (registry_record l pre p Hin)
    as (a & f0 & _ & Ha0 & _ & Hf0 & Hfresh & Hu0 & Ha1 & Hkey1 & Hbkey1 & _).
  destruct (registry_record l [] p Hin)
    as (a' & _ & _ & Ha0' & _ & _ & _ & _ & _ & Hkey0 & Hbkey0 & _).
  rewrite Ha0 in Ha0'. injection Ha0' as <-.
  destruct (registry_record l (pre ++ e :: post) p Hin)
    as (a' & _ & _ & Ha0' & _ & _ & _ & _ & Ha & _).
  rewrite Ha0 in Ha0'. injection Ha0' as <-.
  assert (path f0 = p ∧ expected f0 = true ∧ ambiguious f0 = false ∧
          created f0 = false ∧ from f0 = None)
    as (Hpath & Hexp & Hamb & Hcr & Hfrom).
  { unfold fresh, set_unique in Hfresh. by injection Hfresh as _ -> -> -> -> ->. }
  assert (unique f0 = true) as Hu by by apply Hu0.
  pose proof (registered_wf _ _ (registered_buildFileMap l)) as Hwf0.
  (* before the file *)
  set (st1 := reconciled l pre) in *.
  assert (wf st1) as Hwf1 by apply reconciled_wf.
  assert (heap st1 !! a = Some f0) as Hf1.
  { apply (walk_untouched pre (buildFileMap l) a f0 (Base p) p); try done.
    eapply Forall_impl; [exact Hallpre|]. by intros e' (? & _ & ?). }
  assert (files st1 !! r = None) as Hr1.
  { apply walk_files_None.
    - destruct (files (buildFileMap l) !! r) eqn:Hr; [|done].
      exfalso. apply Hnew, buildFileMap_keys. by rewrite Hr.
    - intros e' He'. rewrite Forall_forall in Hallpre.
      by destruct (Hallpre e' He') as (_ & ? & _). }
  pose proof (lookup_lt_Some _ _ _ Hf1) as Hlt1.
  (* the file *)
  set (st2 := (walkFn st1 e).1).
  assert (wf st2) as Hwf2 by by apply walkFn_wf.
  pose proof (walkFn_cell st1 e a f0 Hf1) as Hf2. fold st2 in Hf2.
  rewrite (fallback_step st1 e r a f0 Hg Hr1) in Hf2; [|by rewrite Hbase; apply unique_byBase|done].
  rewrite Hfrom in Hf2.
  destruct (walkFn_new st1 e r Hwf1 Hg) as (g & Hg2 & Hgpath & _). fold st2 in Hg2.
  (* after the file *)
  rewrite (reconciled_visit l pre e post r Hpre Hg) in *. fold st1 in Ha |- *. fold st2 in Ha |- *.
  assert (heap (walk st2 post).1 !! a = Some
            (set_created true (set_from (Some (length (heap st1))) f0))) as Hf.
  { apply (walk_untouched post st2 a _ (Base p) p); try done.
    - intros b Hb. apply Hbkey1. unfold st2 in Hb. by rewrite walkFn_byBase in Hb.
    - intros k Hk. apply Hkey1. by apply (walkFn_files_old st1 e k a Hwf1 Hlt1).
    - eapply Forall_impl; [exact Hallpost|]. by intros e' (? & _ & ?). }
  destruct (walk_static st2 post _ g Hg2) as (g' & Hg' & _ & Hgpath' & _).
  eexists a, _, (length (heap st1)).
  split; [done|]. split; [exact Hf|]. simpl.
  split; [done|]. split; [done|]. split; [done|]. split.
  { exists g'. split; [done|congruence]. }
  intros order log Ho Hrun.
  assert (runIn l (pre ++ e :: post) order = (log, None)) as Hrun' by done.
  rewrite run_emits_reconciled, (reconciled_visit l pre e post r Hpre Hg) in Hrun'.
  fold st1 in Hrun'. fold st2 in Hrun'.
  assert (p ∈ order) as Hino by (apply (iteration_order_keys _ _ _ Ho); eauto).
  destruct (emitLoop_success _ _ _ _ _ _ _ _ Hrun' p a _ Hino Ha Hf)
    as (ws & Hem & Hsub).
  inversion Hem as [? Hcr' Hw|src data E1 E2 Hfrom' Hr Hw|E1 E2 Hfrom']; subst ws;
    simpl in *; try done.
  injection Hfrom' as <-. rewrite Hg' in Hr. simpl in Hr.
  exists data. split; [congruence|]. rewrite <- Hpath at 1. apply Hsub, list_elem_of_here.
Qed.

Lemma walk_prefix_ok st pre post :
  (walk st (pre ++ post)).2 = None → (walk st pre).2 = None.
Proof.
  rewrite walk_app. by destruct (walk st pre) as [st1 [err|]].
Qed.

(** X11. When the walk visits two generated files with the basename of an
    expected path that no other expected path shares, each at a path of its
    own that is not expected, the record is marked ambiguous and stays so,
    whatever else the walk visits. The switch then writes nothing for the
    path and puts its line in the buffer, and the run returns an error in
    whatever order the map is enumerated. *)
Theorem X11_two_candidates_are_ambiguous l pre e1 mid e2 post p r1 r2 :
  p ∈ l →
  length (filter (λ q, Base q = Base p) l) = 1 →
  generated e1 = Some r1 → r1 ∉ l → Base (e_path e1) = Base p →
  generated e2 = Some r2 → r2 ∉ l → Base (e_path e2) = Base p →
  Forall (λ e', generated e' ≠ Some r1) pre →
  Forall (λ e', generated e' ≠ Some r2) (pre ++ e1 :: mid) →
  (walk (buildFileMap l) (pre ++ e1 :: mid)).2 = None →
  ∃ a f, files (reconciled l ((pre ++ e1 :: mid) ++ e2 :: post)) !! p = Some a ∧
    heap (reconciled l ((pre ++ e1 :: mid) ++ e2 :: post)) !! a = Some f ∧
    expected f = true ∧ created f = true ∧ ambiguious f = true ∧
    (∀ buf, emitSwitchIn (heap (reconciled l ((pre ++ e1 :: mid) ++ e2 :: post))) f buf
              = ([], buf +:+ ambiguityLine p, None)) ∧
    ∀ order,
      iteration_order (reconciled l ((pre ++ e1 :: mid) ++ e2 :: post)) order →
      ∃ log err, runIn l ((pre ++ e1 :: mid) ++ e2 :: post) order = (log, Some err).
Proof.
  intros Hin Hlen Hg1 Hnew1 Hb1 Hg2 Hnew2 Hb2 Hall1 Hall2 Hok.
  pose proof (walk_prefix_ok _ _ _ Hok) as Hokpre.
  assert (∀ r es, r ∉ l → Forall (λ e', generated e' ≠ Some r) es →
            files (reconciled l es) !! r = None) as Hfresh.
  { intros r es Hr Hall. apply walk_files_None.
    - destruct (files (buildFileMap l) !! r) eqn:Hk; [|done].
      exfalso. apply Hr, buildFileMap_keys. by rewrite Hk.
    - by apply Forall_forall. }
  (* before the first file *)
  destruct (registry_record l pre p Hin)
    as (a & f0 & f1 & Ha0 & _ & _ & _ & Hu0 & _ & _ & _ & Hf1 & _ & _ & Hu1 & _).
  assert (unique f0 = true) as Hu by by apply Hu0.
  (* the first file *)
  pose proof (walkFn_cell _ e1 a f1 Hf1) as Hf2.
  rewrite (fallback_step _ e1 r1 a f1 Hg1 (Hfresh r1 pre Hnew1 Hall1)) in Hf2;
    [|by rewrite Hb1; apply unique_byBase|congruence].
  assert (∃ s f2, heap (walkFn (reconciled l pre) e1).1 !! a = Some f2 ∧
                  from f2 = Some s) as (s & f2 & Hf2' & Hs2).
  { destruct (from f1) as [s|] eqn:Hs; eauto. }
  (* up to the second file *)
  destruct (walk_source mid _ a f2 s (walkFn_wf _ e1 (reconciled_wf l pre)) Hf2' Hs2)
    as (f3 & Hf3 & Hs3).
  rewrite <- (reconciled_visit l pre e1 mid r1 Hokpre Hg1) in Hf3.
  assert (is_Some (from f3)) as [s3 Hfrom3].
  { destruct Hs3 as [?|(? & ? & ? & _ & _ & _ & ? & _)]; eauto. }
  destruct (registry_record l (pre ++ e1 :: mid) p Hin)
    as (a' & f0' & f3' & Ha0' & _ & _ & _ & Hu0' & _ & _ & _ & Hf3' & _ & _ & Hu3 & _).
  rewrite Ha0 in Ha0'. injection Ha0' as <-.
  rewrite Hf3 in Hf3'. injection Hf3' as Heq. subst f3'.
  (* the second file *)
  pose proof (walkFn_cell _ e2 a f3 Hf3) as Hf4.
  rewrite (fallback_step _ e2 r2 a f3 Hg2 (Hfresh r2 _ Hnew2 Hall2)) in Hf4;
    [|by rewrite Hb2; apply unique_byBase|by rewrite Hu3; apply Hu0'].
  rewrite Hfrom3 in Hf4.
  (* the rest of the walk *)
  destruct (walk_ambiguious_mono _ post a _ Hf4 eq_refl) as (f & Hf & Hamb).
  rewrite <- (reconciled_visit l (pre ++ e1 :: mid) e2 post r2 Hok Hg2) in Hf.
  destruct (registry_record l ((pre ++ e1 :: mid) ++ e2 :: post) p Hin)
    as (a' & f0'' & f' & Ha0' & _ & _ & _ & _ & Ha & _ & _ & Hf' & Hpath & Hexp & _ & Hset).
  rewrite Ha0 in Ha0'. injection Ha0' as <-.
  rewrite Hf in Hf'. injection Hf' as Heq. subst f'.
  destruct Hset as [_ Hset]. destruct (Hset Hamb) as [_ Hcr].
  exists a, f. split; [done|]. split; [done|].
  split; [done|]. split; [done|]. split; [done|]. split.
  - intros buf. unfold emitSwitch. by rewrite Hexp, Hcr, Hamb, Hpath.
  - intros order Ho.
    destruct (runIn l ((pre ++ e1 :: mid) ++ e2 :: post) order) as [log [err|]] eqn:Hrun;
      [by eauto|].
    exfalso. rewrite run_emits_reconciled in Hrun.
    assert (p ∈ order) as Hino by (apply (iteration_order_keys _ _ _ Ho); eauto).
    destruct (emitLoop_success _ _ _ _ _ _ _ _ Hrun p a f Hino Ha Hf) as (ws & Hem & _).
    inversion Hem as [? Hcr' Hw|src data E1 E2 Hfrom' Hr Hw|E1 E2 Hfrom']; subst ws.
    + congruence.
    + by rewrite Hexp, Hamb in E2.
    + by rewrite Hexp, Hamb in E2.
Qed.

End Outcomes.

(** ** Exact matches, and further files with the same basename *)

Section ExactMatchOutcome.

Variable abs : string → string.
Variable readFile : string → string + error.
Variable writeFile : string → option error.
Variable quote : string → string.
Variable importpath : string.

Local Abbreviation runIn := (run abs readFile writeFile quote importpath).

Implicit Types (l : list string) (e : entry) (pre mid post es : list entry).
Implicit Types (p r : string) (a : nat) (f : genFileInfo).

(** A generated file with the basename of an expected path that no other
    expected path shares, visited at a path that has no record yet while
    the record of the expected path has a source, marks that record
    ambiguous, and the rest of the walk leaves the mark. *)
Lemma further_candidate_marks l es1 e2 es2 p r2 a f1 :
  p ∈ l →
  length (filter (λ q, Base q = Base p) l) = 1 →
  generated e2 = Some r2 → r2 ∉ l → Base (e_path e2) = Base p →
  Forall (λ e', generated e' ≠ Some r2) es1 →
  (walk (buildFileMap l) es1).2 = None →
  files (buildFileMap l) !! p = Some a →
  heap (reconciled l es1) !! a = Some f1 → is_Some (from f1) →
  ∃ f, heap (reconciled l (es1 ++ e2 :: es2)) !! a = Some f ∧ ambiguious f = true.
Proof.
  intros Hin Hlen Hg Hnew Hb Hall Hok Ha Hf1 [s Hs].
  destruct (registry_record l es1 p Hin)
    as (a' & f0 & f1' & Ha0 & _ & _ & _ & Hu0 & _ & _ & _ & Hf1' & _ & _ & Hu1 & _).
  rewrite Ha in Ha0. injection Ha0 as <-.
  rewrite Hf1 in Hf1'. injection Hf1' as Heq. subst f1'.
  assert (files (reconciled l es1) !! r2 = None) as Hfresh.
  { apply walk_files_None.
    - destruct (files (buildFileMap l) !! r2) eqn:Hk; [|done].
      exfalso. apply Hnew, buildFileMap_keys. by rewrite Hk.
    - by apply Forall_forall. }
  pose proof (walkFn_cell _ e2 a f1 Hf1) as Hf2.
  rewrite (fallback_step _ e2 r2 a f1 Hg Hfresh) in Hf2;
    [|by rewrite Hb; apply unique_byBase|by rewrite Hu1; apply Hu0].
  rewrite Hs in Hf2.
  destruct (walk_ambiguious_mono _ es2 a _ Hf2 eq_refl) as (f & Hf & Hamb).
  rewrite <- (reconciled_visit l es1 e2 es2 r2 Hok Hg) in Hf.
  by exists f.
Qed.

(** C3, as amended. When the walk finds, once, a generated file at exactly
    the relative path of an expected path, the record ends the walk
    created and with that file as its source, also when a file with the
    same basename had been bound to it before. The record is not marked
    ambiguous when its basename occurs twice in the expected list, or when
    no other generated file with that basename is visited after the exact
    match and at most one before it. When no other expected path has the
    basename, the record is marked ambiguous by every generated file with
    that basename, at a path that has no record yet, that is visited while
    the record has a source: after the exact match, or before it when an
    earlier file had been bound. A record that is not marked has the bytes
    of the exact match copied to the expected path by the switch; for a
    record that is marked the switch writes nothing and puts its line in
    the buffer, and the run returns an error in whatever order the map is
    enumerated. And every run that returns no error has written exactly
    the bytes of the exact match at the expected path. *)
Theorem C3_exact_match_outcome l pre e post p :
  p ∈ l → generated e = Some p →
  (walk (buildFileMap l) pre).2 = None →
  Forall (λ e', generated e' ≠ Some p) (pre ++ post) →
  ∃ a f src,
    files (reconciled l (pre ++ e :: post)) !! p = Some a ∧
    heap (reconciled l (pre ++ e :: post)) !! a = Some f ∧
    path f = p ∧ created f = true ∧ from f = Some src ∧
    source_of (heap (reconciled l (pre ++ e :: post))) src e ∧
    ((∃ i j q, i ≠ j ∧ l !! i = Some p ∧ l !! j = Some q ∧ Base q = Base p) ∨
     Forall (λ e', ¬ candidate (Base p) e') post ∧
     (length (filter (candidate (Base p)) pre) ≤ 1)%nat →
     ambiguious f = false) ∧
    (length (filter (λ q, Base q = Base p) l) = 1 →
     ∀ es1 e2 es2 r2,
       generated e2 = Some r2 → r2 ∉ l → Base (e_path e2) = Base p →
       Forall (λ e', generated e' ≠ Some r2) es1 →
       (walk (buildFileMap l) es1).2 = None →
       (∃ mid, es1 = pre ++ e :: mid ∧ post = mid ++ e2 :: es2) ∨
       (pre = es1 ++ e2 :: es2 ∧
        ∃ f1, heap (reconciled l es1) !! a = Some f1 ∧ is_Some (from f1)) →
       ambiguious f = true) ∧
    (∀ data, ambiguious f = false →
       readFile (e_path e) = inl data → writeFile (abs p) = None →
       emitSwitch abs readFile writeFile
         (heap (reconciled l (pre ++ e :: post))) f ""
       = ([(abs p, data)], "", None)) ∧
    (ambiguious f = true →
       (∀ buf,
          emitSwitch abs readFile writeFile
            (heap (reconciled l (pre ++ e :: post))) f buf
          = ([], buf +:+ ambiguityLine p, None)) ∧
       ∀ order,
         iteration_order (reconciled l (pre ++ e :: post)) order →
         ∃ log err, runIn l (pre ++ e :: post) order = (log, Some err)) ∧
    (∀ order log,
       iteration_order (reconciled l (pre ++ e :: post)) order →
       runIn l (pre ++ e :: post) order = (log, None) →
       ∃ data, readFile (e_path e) = inl data ∧ (abs p, data) ∈ log).
Proof.
  intros Hin Hg Hpre Honce.
  pose proof Honce as Honce'. rewrite Forall_forall in Honce.
  destruct (exact_match_record l pre e post p Hin Hg Hpre Honce)
    as (a & f & src & Ha & Hf & Hpath & Hexp & Hcr & Hfrom & Hsrc & Hamb).
  destruct (registry_record l (pre ++ e :: post) p Hin)
    as (a' & _ & _ & Ha0 & _ & _ & _ & _ & Ha' & _).
  rewrite Ha in Ha'. injection Ha' as <-.
  exists a, f, src.
  split; [done|]. split; [done|]. split; [done|]. split; [done|].
  split; [done|]. split; [done|]. split; [|split; [|split; [|split]]].
  - intros [(i & j & q & Hne & Hi & Hj & Hb)|Hfew]; [|by apply Hamb].
    destruct (shared_basename_other l i j p q Hi Hj Hne (eq_sym Hb))
      as (a' & j' & q' & Ha' & Hj' & Hne' & Hb').
    destruct (shared_basename_record l (pre ++ e :: post) a' j' p q' Ha' Hj' Hne' Hb')
      as (Ha'' & f' & Hf' & _ & _ & _ & Hamb' & _).
    rewrite Ha in Ha''. injection Ha'' as <-. rewrite Hf in Hf'. by injection Hf' as <-.
  - intros Hlen es1 e2 es2 r2 Hg2 Hnew Hb Hall Hok
      [(mid & -> & ->)|(-> & f1 & Hf1 & Hs1)].
    + apply Forall_app in Honce' as [Hallpre Hallpost].
      apply Forall_app in Hallpost as [Hallmid _].
      destruct (exact_match_record l pre e mid p Hin Hg Hpre)
        as (a1 & f1 & src1 & Ha1 & Hf1 & _ & _ & _ & Hfrom1 & _).
      { apply Forall_forall, Forall_app. by split. }
      destruct (registry_record l (pre ++ e :: mid) p Hin)
        as (a' & _ & _ & Ha0' & _ & _ & _ & _ & Ha1' & _).
      rewrite Ha0 in Ha0'. injection Ha0' as <-.
      rewrite Ha1 in Ha1'. injection Ha1' as ->.
      destruct (further_candidate_marks l (pre ++ e :: mid) e2 es2 p r2 a f1)
        as (f' & Hf' & Hamb'); try done.
      rewrite <- app_assoc in Hf'. simpl in Hf'.
      rewrite Hf in Hf'. by injection Hf' as ->.
    + destruct (further_candidate_marks l es1 e2 (es2 ++ e :: post) p r2 a f1)
        as (f' & Hf' & Hamb'); try done.
      rewrite <- app_assoc in Hf. simpl in Hf.
      rewrite Hf in Hf'. by injection Hf' as ->.
  - intros data Hamb' Hr Hw. destruct Hsrc as (g & Hg' & Hgpath).
    unfold emitSwitch. rewrite Hexp, Hcr, Hamb', Hfrom, Hg'. simpl.
    by rewrite Hgpath, Hr, Hpath, Hw.
  - intros Hamb'. split.
    + intros buf. unfold emitSwitch. by rewrite Hexp, Hcr, Hamb', Hpath.
    + intros order Ho.
      destruct (runIn l (pre ++ e :: post) order) as [log [err|]] eqn:Hrun;
        [by eauto|].
      exfalso. rewrite run_emits_reconciled in Hrun.
      assert (p ∈ order) as Hino by (apply (iteration_order_keys _ _ _ Ho); eauto).
      destruct (emitLoop_success _ _ _ _ _ _ _ _ Hrun p a f Hino Ha Hf) as (ws & Hem & _).
      inversion Hem as [? Hcr' Hw|src' data E1 E2 Hfrom' Hr Hw|E1 E2 Hfrom']; subst ws.
      * congruence.
      * by rewrite Hexp, Hamb' in E2.
      * by rewrite Hexp, Hamb' in E2.
  - intros order log Ho Hrun.
    destruct (run_success_record abs readFile writeFile quote importpath
                _ _ order log p a f Ho Hrun Ha Hf Hexp)
      as [[Hcr' _]|(_ & _ & [Hnone|(src' & data & Hfrom' & Hread & Hlog)])];
      [congruence..|].
    rewrite Hfrom in Hfrom'. injection Hfrom' as <-.
    destruct Hsrc as (g & Hg' & Hgpath).
    rewrite Hg' in Hread. simpl in Hread. rewrite Hgpath in Hread.
    exists data. split; [done|]. by rewrite <- Hpath at 1.
Qed.

End ExactMatchOutcome.

(** ** More about the emission loop *)

Section EmissionMore.

Variable abs : string → string.
Variable readFile : string → string + error.
Variable writeFile : string → option error.
Variable quote : string → string.
Variable importpath : string.

Local Abbreviation runIn := (run abs readFile writeFile quote importpath).
Local Abbreviation emitSwitchIn := (emitSwitch abs readFile writeFile).
Local Abbreviation emitLoopIn := (emitLoop abs readFile writeFile quote importpath).
Local Abbreviation emittedIn := (emitted abs readFile writeFile).

Implicit Types (st : state) (l order : list string) (e : entry) (es : list entry).
Implicit Types (k p : string) (a : nat) (f : genFileInfo) (w : write).

(** The record the loop finds under a key. *)
Local Abbreviation record st k := (files st !! k ≫= λ a, heap st !! a).

(** When the switch lets the loop go on for every record of the order, the
    loop returns no error and has written what the switches wrote, in the
    order of the enumeration. *)
Lemma emitLoop_all_continue st order (W : string → list write) :
  (∀ k, k ∈ order →
     match record st k with
     | Some f => emitSwitchIn (heap st) f "" = (W k, "", None)
     | None => W k = []
     end) →
  emitLoopIn st order "" = (order ≫= W, None).
Proof.
  induction order as [|k order IH]; intros Hall; [done|].
  pose proof (Hall k (list_elem_of_here _ _)) as Hk.
  rewrite bind_cons. simpl.
  destruct (record st k) as [f|].
  - rewrite Hk. simpl. rewrite IH; [done|].
    intros k' Hk'. by apply Hall, list_elem_of_further.
  - rewrite Hk. simpl. apply IH. intros k' Hk'. by apply Hall, list_elem_of_further.
Qed.

Lemma emitLoop_success_log st order log :
  emitLoopIn st order "" = (log, None) →
  ∃ W : string → list write,
    log = order ≫= W ∧
    ∀ k, k ∈ order →
      match record st k with
      | Some f => emitSwitchIn (heap st) f "" = (W k, "", None)
      | None => W k = []
      end.
Proof.
  intros Hrun.
  exists (λ k, match record st k with
               | Some f => (emitSwitchIn (heap st) f "").1.1
               | None => []
               end).
  revert log Hrun. induction order as [|k order IH]; intros log Hrun.
  { simpl in Hrun. injection Hrun as <-. split; [done|].
    intros k Hk. by apply not_elem_of_nil in Hk. }
  simpl in Hrun. rewrite bind_cons.
  destruct (record st k) as [f|] eqn:Hf.
  - destruct (emitSwitchIn (heap st) f "") as [[ws buf'] [err|]] eqn:Hsw; [done|].
    destruct (String.eqb buf' "") eqn:Hbuf; simpl in Hrun; [|done].
    apply String.eqb_eq in Hbuf as ->.
    destruct (emitLoopIn st order "") as [ws' r] eqn:Hrest.
    injection Hrun as <- ->. destruct (IH _ eq_refl) as [-> Hall].
    split; [done|]. intros k' [-> | Hk']%elem_of_cons; [|by apply Hall].
    by rewrite Hf, Hsw.
  - destruct (IH _ Hrun) as [-> Hall]. split; [done|].
    intros k' [-> | Hk']%elem_of_cons; [|by apply Hall]. by rewrite Hf.
Qed.

(** X14. When the run returns no error under one enumeration order of the
    map, it returns no error under every other, and the files written are
    the same, in another order. *)
Theorem X14_success_in_any_order l es order1 order2 log1 :
  iteration_order (reconciled l es) order1 →
  iteration_order (reconciled l es) order2 →
  runIn l es order1 = (log1, None) →
  ∃ log2, runIn l es order2 = (log2, None) ∧ log2 ≡ₚ log1.
Proof.
  intros Ho1 Ho2. rewrite !run_emits_reconciled. intros Hrun.
  destruct (emitLoop_success_log _ _ _ Hrun) as (W & -> & Hall).
  assert (order2 ≡ₚ order1) as Hperm.
  { rewrite (iteration_order_Permutation _ _ Ho1).
    by rewrite (iteration_order_Permutation _ _ Ho2). }
  exists (order2 ≫= W). split; [|by rewrite Hperm].
  apply emitLoop_all_continue. intros k Hk. apply Hall. by rewrite <- Hperm.
Qed.

(** With reads and writes that succeed, the loop fails on ambiguous records
    only. *)
Lemma run_error_iff l es order :
  (∀ q, writeFile q = None) →
  (∀ q, ∃ data, readFile q = inl data) →
  iteration_order (reconciled l es) order →
  (runIn l es order).2 = None ↔
  ∀ k a f, files (reconciled l es) !! k = Some a →
    heap (reconciled l es) !! a = Some f →
    expected f && created f && ambiguious f = false.
Proof.
  intros Hw Hr Ho. rewrite run_emits_reconciled. split.
  - intros Hnone k a f Hk Hf.
    destruct (emitLoopIn (reconciled l es) order "") as [log r] eqn:Hrun.
    simpl in Hnone. subst r.
    assert (k ∈ order) as Hin by (apply (iteration_order_keys _ _ _ Ho); eauto).
    destruct (emitLoop_success _ _ _ _ _ _ _ _ Hrun k a f Hin Hk Hf) as (ws & Hem & _).
    inversion Hem as [? Hcr ?|src data E1 E2 ? ? ?|E1 E2 ?]; subst ws.
    + rewrite Hcr. by rewrite andb_false_r.
    + by rewrite <- andb_assoc, (andb_comm (created f)), andb_assoc, E2.
    + by rewrite <- andb_assoc, (andb_comm (created f)), andb_assoc, E2.
  - intros Hall.
    rewrite (emitLoop_all_continue _ _
      (λ k, match record (reconciled l es) k with
            | Some f => (emitSwitchIn (heap (reconciled l es)) f "").1.1
            | None => []
            end)); [done|].
    intros k Hk. destruct (files (reconciled l es) !! k) as [a|] eqn:Ha; simpl; [|done].
    destruct (heap (reconciled l es) !! a) as [f|] eqn:Hf; simpl; [|done].
    specialize (Hall k a f Ha Hf). unfold emitSwitch.
    destruct (expected f) eqn:Hexp, (created f) eqn:Hcr, (ambiguious f) eqn:Hamb;
      simpl in *; try done; rewrite ?Hw; try done.
    all: destruct (from f) as [src|]; simpl; try done.
    all: destruct (Hr (default "" (path <$> heap (reconciled l es) !! src))) as [data Hd].
    all: by rewrite Hd.
Qed.

(** X15. When every read and every write succeeds, the run returns an error
    exactly when [files] holds a record that is expected, created and
    ambiguous, in whatever order the map is enumerated. *)
Theorem X15_error_iff_ambiguous_record l es order :
  (∀ q, writeFile q = None) →
  (∀ q, ∃ data, readFile q = inl data) →
  iteration_order (reconciled l es) order →
  (runIn l es order).2 = None ↔
  ∀ k a f, files (reconciled l es) !! k = Some a →
    heap (reconciled l es) !! a = Some f →
    expected f && created f && ambiguious f = false.
Proof. apply run_error_iff. Qed.

Lemma walk_no_generated es : ∀ st,
  Forall (λ e, generated e = None) es → (walk st es).1 = st.
Proof.
  induction es as [|e es IH]; intros st Hall; simpl; [done|].
  apply Forall_cons in Hall as [Hg Hall].
  pose proof (walkFn_not_generated st e Hg) as Hst.
  destruct (walkFn st e) as [st1 [err|]]; simpl in *; [done|].
  subst st1. by apply IH.
Qed.

Lemma bind_singletons {A B} (g : A → B) (l : list A) :
  l ≫= (λ x, [g x]) = g <$> l.
Proof. induction l as [|x l IH]; [done|]. rewrite bind_cons. simpl. by f_equal. Qed.

(** X4. When the scratch tree holds no regular [.go] file (it may be empty,
    or hold directories and other files), and the writes succeed, the run
    writes the placeholder at every expected path, once, and nothing else,
    and returns no error. *)
Theorem X4_nothing_generated l es order :
  Forall (λ e, generated e = None) es →
  Forall (λ p, writeFile (abs p) = None) l →
  iteration_order (reconciled l es) order →
  runIn l es order = ((λ p, (abs p, placeholder)) <$> order, None) ∧
  NoDup order ∧ ∀ p, p ∈ order ↔ p ∈ l.
Proof.
  intros Hnone Hw Ho. rewrite run_emits_reconciled.
  assert (reconciled l es = buildFileMap l) as Hst by by apply walk_no_generated.
  rewrite Hst in *.
  assert (∀ p, p ∈ order ↔ p ∈ l) as Hkeys.
  { intros p. by rewrite (iteration_order_keys _ _ p Ho), buildFileMap_keys. }
  split; [|split; [apply Ho|done]].
  rewrite <- bind_singletons. apply emitLoop_all_continue.
  intros k Hk. apply Hkeys in Hk as Hin.
  pose proof (registered_buildFileMap l) as Hreg.
  destruct (registered_lookup l _ k Hreg Hin) as [a Ha].
  destruct (registered_record _ _ _ _ Hreg Ha) as (_ & _ & f & Hf & Hfresh & _).
  rewrite Ha. simpl. rewrite Hf.
  assert (path f = k ∧ expected f = true ∧ ambiguious f = false ∧
          created f = false ∧ from f = None) as (Hpath & Hexp & _ & Hcr & _).
  { unfold fresh, set_unique in Hfresh. by injection Hfresh as _ -> -> -> -> ->. }
  rewrite Forall_forall in Hw. unfold emitSwitch.
  by rewrite Hexp, Hcr, Hpath, (Hw k Hin).
Qed.

(** Where the files of the log come from. *)
Lemma emitLoop_log st order w :
  w ∈ (emitLoopIn st order "").1 →
  ∃ k a f, k ∈ order ∧ files st !! k = Some a ∧ heap st !! a = Some f ∧
           w ∈ (emitSwitchIn (heap st) f "").1.1.
Proof.
  induction order as [|k order IH]; simpl.
  { intros Hw. by apply not_elem_of_nil in Hw. }
  destruct (files st !! k) as [a|] eqn:Ha; simpl.
  2:{ intros Hw. destruct (IH Hw) as (k' & a' & f' & Hk' & ?).
      exists k', a', f'. split; [by apply list_elem_of_further|done]. }
  destruct (heap st !! a) as [f|] eqn:Hf; simpl.
  2:{ intros Hw. destruct (IH Hw) as (k' & a' & f' & Hk' & ?).
      exists k', a', f'. split; [by apply list_elem_of_further|done]. }
  destruct (emitSwitchIn (heap st) f "") as [[ws buf'] [err|]] eqn:Hsw; simpl.
  { intros Hw. exists k, a, f. rewrite Hsw. split; [apply list_elem_of_here|done]. }
  destruct (String.eqb buf' "") eqn:Hbuf; simpl.
  - apply String.eqb_eq in Hbuf as ->.
    destruct (emitLoopIn st order "") as [ws' r] eqn:Hrest. simpl.
    intros [Hw|Hw]%elem_of_app.
    + exists k, a, f. rewrite Hsw. split; [apply list_elem_of_here|done].
    + destruct (IH Hw) as (k' & a' & f' & Hk' & ?).
      exists k', a', f'. split; [by apply list_elem_of_further|done].
  - intros Hw. exists k, a, f. rewrite Hsw. split; [apply list_elem_of_here|done].
Qed.

Lemma emitSwitch_writes h f buf w :
  w ∈ (emitSwitchIn h f buf).1.1 →
  w.1 = abs (path f) ∧
  (expected f = true ∧ created f = false ∧ w.2 = placeholder ∨
   ∃ src, from f = Some src ∧ readFile (default "" (path <$> h !! src)) = inl w.2).
Proof.
  unfold emitSwitch.
  destruct (expected f && negb (created f)) eqn:E1.
  { apply andb_true_iff in E1 as [? ?%negb_true_iff].
    destruct (writeFile _); simpl; [by intros ?%not_elem_of_nil|].
    intros ->%list_elem_of_singleton. split; [done|]. by left. }
  destruct (expected f && ambiguious f); simpl; [by intros ?%not_elem_of_nil|].
  destruct (from f) as [src|]; simpl.
  - destruct (readFile _) as [data|] eqn:Hr; simpl; [|by intros ?%not_elem_of_nil].
    destruct (writeFile _); simpl; [by intros ?%not_elem_of_nil|].
    intros ->%list_elem_of_singleton. split; [done|]. right. by exists src.
  - destruct (negb (expected f)); simpl; by intros ?%not_elem_of_nil.
Qed.

Lemma emitSwitch_error h f buf ws buf' err :
  emitSwitchIn h f buf = (ws, buf', Some err) →
  ∃ q, writeFile q = Some err ∨ readFile q = inr err.
Proof.
  unfold emitSwitch.
  destruct (expected f && negb (created f)).
  { destruct (writeFile _) eqn:Hw; intros [= <- <- <-]. eexists. by left. }
  destruct (expected f && ambiguious f); [done|].
  destruct (from f) as [src|]; simpl.
  - destruct (readFile _) as [data|] eqn:Hr.
    + destruct (writeFile _) eqn:Hw; intros [= <- <- <-]. eexists. by left.
    + intros [= <- <- <-]. eexists. by right.
  - by destruct (negb (expected f)).
Qed.

End EmissionMore.

(** ** The objects of the generated files *)

Section Scratch.

Implicit Types (st : state) (l seen : list string) (e : entry) (es : list entry).
Implicit Types (k p r : string) (a n : nat) (f g : genFileInfo).

(** The record at an address below [length l], after any walk. *)
Lemma registry_cell l es a f :
  a < length l → heap (reconciled l es) !! a = Some f →
  ∃ p, l !! a = Some p ∧ path f = p ∧ expected f = true ∧
       ∀ k, files (reconciled l es) !! k = Some a → k = p.
Proof.
  intros Hlt Hf.
  pose proof (registered_buildFileMap l) as Hreg.
  destruct (lookup_lt_is_Some_2 _ _ Hlt) as [p Hp].
  destruct (reg_cell _ _ Hreg _ _ Hp) as (f0 & Hf0 & Hfresh & _).
  destruct (walk_static (buildFileMap l) es a f0 Hf0) as (f' & Hf' & _ & Hpath & Hexp & _).
  unfold reconciled in Hf. rewrite Hf in Hf'. injection Hf' as <-.
  assert (path f0 = p ∧ expected f0 = true) as [Hp0 He0].
  { unfold fresh, set_unique in Hfresh. by injection Hfresh as _ -> -> _ _ _. }
  exists p. split; [done|]. split; [congruence|]. split; [congruence|].
  intros k Hk.
  apply (walk_files_old (buildFileMap l) es k a) in Hk;
    [|by eapply registered_wf|by rewrite (reg_length _ _ Hreg)].
  destruct (reg_files _ _ Hreg _ _ Hk) as [Hl _]. congruence.
Qed.

Lemma walkFn_scratch_flags n st e : scratch_flags n st → scratch_flags n (walkFn st e).1.
Proof.
  intros (Hwf & Hbase & Hflags). split; [by apply walkFn_wf|]. split.
  { intros b a. rewrite walkFn_byBase. apply Hbase. }
  intros a f Hna Hf.
  destruct (heap st !! a) as [f0|] eqn:Hf0.
  - rewrite (walkFn_cell st e a f0 Hf0) in Hf. injection Hf as <-.
    specialize (Hflags a f0 Hna Hf0). unfold cell_after.
    destruct (generated e) as [r|]; [|done].
    destruct (files st !! r); [by case_decide|].
    destruct (byBase st !! _) as [copyTo|] eqn:Hb; [|done].
    case_decide; [|done]. subst copyTo. apply Hbase in Hb. lia.
  - apply lookup_ge_None in Hf0. pose proof (lookup_lt_Some _ _ _ Hf) as Hlt.
    rewrite walkFn_length in Hlt. destruct (generated e) as [r|] eqn:Hg; [|lia].
    assert (a = length (heap st)) as -> by lia.
    destruct (walkFn_new st e r Hwf Hg) as (g & Hg' & _ & _ & _ & _ & _ & Hfl & _).
    congruence.
Qed.

Lemma reconciled_scratch_flags l es : scratch_flags (length l) (reconciled l es).
Proof.
  unfold reconciled. apply (walk_ind (scratch_flags (length l)));
    [intros; by apply walkFn_scratch_flags|].
  pose proof (registered_buildFileMap l) as Hreg.
  pose proof (registered_wf _ _ Hreg) as Hwf.
  split; [done|]. split.
  - intros b a Hb. rewrite <- (reg_length _ _ Hreg). by eapply wf_byBase.
  - intros a f Hna Hf. apply lookup_lt_Some in Hf.
    rewrite (reg_length _ _ Hreg) in Hf. lia.
Qed.

Lemma walkFn_scratch_records n st e seen :
  scratch_flags n st → scratch_records n st seen →
  (∀ r, generated e = Some r → r ∉ seen) →
  scratch_records n (walkFn st e).1
    (match generated e with Some r => r :: seen | None => seen end).
Proof.
  intros (Hwf & Hbase & _) Hrec Hfresh.
  destruct (generated e) as [r|] eqn:Hg; [|by rewrite walkFn_not_generated].
  specialize (Hfresh r eq_refl).
  intros k a. rewrite walkFn_files, Hg. intros Hk Hna.
  assert (files st !! k = Some a →
          k ∈ r :: seen ∧ ∃ f, heap (walkFn st e).1 !! a = Some f ∧
                               from f = None ∧ created f = true) as Hold.
  { intros Hk0. destruct (Hrec k a Hk0 Hna) as (Hseen & f0 & Hf0 & Hfrom & Hcr).
    split; [by apply list_elem_of_further|].
    exists f0. split; [|done]. rewrite (walkFn_cell st e a f0 Hf0). f_equal.
    unfold cell_after. rewrite Hg.
    destruct (files st !! r) as [found|] eqn:Hr.
    - case_decide; [|done]. subst found. exfalso.
      by destruct (Hrec r a Hr Hna) as [? _].
    - destruct (byBase st !! _) as [copyTo|] eqn:Hb; [|done].
      case_decide; [|done]. subst copyTo. apply Hbase in Hb. lia. }
  destruct (files st !! r) as [found|] eqn:Hr; [by apply Hold|].
  apply lookup_insert_Some in Hk as [[<- <-]|[_ Hk]]; [|by apply Hold].
  split; [apply list_elem_of_here|].
  destruct (walkFn_new st e r Hwf Hg) as (g & Hg' & _ & _ & Hfrom & Hcr & _).
  by exists g.
Qed.

Lemma walk_scratch_records n es : ∀ st seen,
  scratch_flags n st → scratch_records n st seen →
  NoDup (omap generated es) →
  (∀ r, r ∈ seen → r ∉ omap generated es) →
  ∃ seen', scratch_records n (walk st es).1 seen'.
Proof.
  induction es as [|e es IH]; intros st seen Hfl Hrec Hnd Hdisj; simpl.
  { by exists seen. }
  pose proof (walkFn_scratch_flags n st e Hfl) as Hfl1.
  pose proof (walkFn_scratch_records n st e seen Hfl Hrec) as Hrec1.
  simpl in Hnd, Hdisj.
  destruct (generated e) as [r|] eqn:Hg.
  - apply NoDup_cons in Hnd as [Hr Hnd].
    assert (∀ r', Some r = Some r' → r' ∉ seen) as Hfresh.
    { intros r' [= <-] Hin. apply (Hdisj r Hin), list_elem_of_here. }
    specialize (Hrec1 Hfresh).
    destruct (walkFn st e) as [st1 [err|]]; simpl in *; [by eexists|].
    apply (IH st1 (r :: seen) Hfl1 Hrec1 Hnd).
    intros r' [-> | Hr']%elem_of_cons; [done|].
    intros Hin. apply (Hdisj r' Hr'). by apply list_elem_of_further.
  - assert (∀ r', None = Some r' → r' ∉ seen) as Hfresh by done.
    specialize (Hrec1 Hfresh).
    destruct (walkFn st e) as [st1 [err|]]; simpl in *; [by eexists|].
    by apply (IH st1 seen Hfl1 Hrec1 Hnd).
Qed.

Lemma walkFn_sources st e visited :
  wf st → sources_from st visited → sources_from (walkFn st e).1 (visited ++ [e]).
Proof.
  intros Hwf Hsrc a f src Hf Hfrom.
  assert (∀ e0 s, source_of (heap st) s e0 → source_of (heap (walkFn st e).1) s e0)
    as Hkeep.
  { intros e0 s (g & Hg & Hpath). exists (cell_after st e s g).
    split; [by apply walkFn_cell|].
    destruct (cell_after_static st e s g) as (_ & -> & _). done. }
  destruct (heap st !! a) as [f0|] eqn:Hf0.
  - rewrite (walkFn_cell st e a f0 Hf0) in Hf. injection Hf as <-.
    apply cell_after_from in Hfrom as [Hfrom|[-> [r Hg]]].
    + destruct (Hsrc a f0 src Hf0 Hfrom) as (e0 & He0 & Hg0 & Hs0).
      exists e0. split; [apply elem_of_app; by left|]. split; [done|]. by apply Hkeep.
    + exists e. split; [apply elem_of_app; right; apply list_elem_of_here|].
      split; [by rewrite Hg|].
      destruct (walkFn_new st e r Hwf Hg) as (g & Hg' & Hpath & _). by exists g.
  - exfalso. apply lookup_ge_None in Hf0. pose proof (lookup_lt_Some _ _ _ Hf) as Hlt.
    rewrite walkFn_length in Hlt. destruct (generated e) as [r|] eqn:Hg; [|lia].
    assert (a = length (heap st)) as -> by lia.
    destruct (walkFn_new st e r Hwf Hg) as (g & Hg' & _ & _ & HN & _). congruence.
Qed.

Lemma sources_from_mono st v1 v2 :
  (∀ e, e ∈ v1 → e ∈ v2) → sources_from st v1 → sources_from st v2.
Proof.
  intros Hsub Hsrc a f src Hf Hfrom.
  destruct (Hsrc a f src Hf Hfrom) as (e & He & ?). exists e. split; [by apply Hsub|done].
Qed.

Lemma walk_sources es : ∀ st visited,
  wf st → sources_from st visited → sources_from (walk st es).1 (visited ++ es).
Proof.
  induction es as [|e es IH]; intros st visited Hwf Hsrc; simpl.
  { by rewrite app_nil_r. }
  pose proof (walkFn_sources st e visited Hwf Hsrc) as Hsrc1.
  pose proof (walkFn_wf st e Hwf) as Hwf1.
  destruct (walkFn st e) as [st1 [err|]]; simpl in *.
  - eapply sources_from_mono; [|exact Hsrc1].
    intros e0 [?|He0]%elem_of_app; apply elem_of_app; [by left|].
    apply list_elem_of_singleton in He0 as ->. right. apply list_elem_of_here.
  - replace (visited ++ e :: es) with ((visited ++ [e]) ++ es)
      by by rewrite <- app_assoc.
    by apply IH.
Qed.

Lemma reconciled_sources l es : sources_from (reconciled l es) es.
Proof.
  apply (walk_sources es (buildFileMap l) []).
  - eapply registered_wf, registered_buildFileMap.
  - intros a f src Hf Hfrom. exfalso.
    pose proof (registered_buildFileMap l) as Hreg.
    pose proof (lookup_lt_Some _ _ _ Hf) as Hlt. rewrite (reg_length _ _ Hreg) in Hlt.
    destruct (lookup_lt_is_Some_2 _ _ Hlt) as [p Hp].
    destruct (reg_cell _ _ Hreg _ _ Hp) as (f0 & Hf0 & Hfresh & _).
    rewrite Hf in Hf0. injection Hf0 as <-.
    apply (f_equal from) in Hfresh. simpl in Hfresh. congruence.
Qed.

End Scratch.

Section WrittenFiles.

Variable abs : string → string.
Variable readFile : string → string + error.
Variable writeFile : string → option error.
Variable quote : string → string.
Variable importpath : string.

Local Abbreviation runIn := (run abs readFile writeFile quote importpath).

Implicit Types (l order : list string) (es : list entry) (w : write).

(** X12. As long as the walk visits no relative path twice, the run writes
    at expected paths only, whether it ends with an error or not: every file
    of the log is at [abs p] for an expected path [p], and it holds either
    the placeholder or the bytes read from a generated file that the walk
    has visited. No file is written for a record of the scratch tree. *)
Theorem X12_writes_at_expected_paths_only l es order w :
  NoDup (omap generated es) →
  w ∈ (runIn l es order).1 →
  ∃ p, p ∈ l ∧ w.1 = abs p ∧
    (w.2 = placeholder ∨
     ∃ e, e ∈ es ∧ is_Some (generated e) ∧ readFile (e_path e) = inl w.2).
Proof.
  intros Hnd. rewrite run_emits_reconciled. intros Hw.
  destruct (emitLoop_log _ _ _ _ _ _ _ _ Hw) as (k & a & f & _ & Hk & Hf & Hsw).
  destruct (emitSwitch_writes _ _ _ _ _ _ _ Hsw) as [Hat Hdata].
  destruct (decide (a < length l)) as [Hlt|Hge].
  - destruct (registry_cell l es a f Hlt Hf) as (p & Hp & Hpath & _).
    exists p. split; [apply list_elem_of_lookup; eauto|]. split; [congruence|].
    destruct Hdata as [(_ & _ & ?)|(src & Hfrom & Hread)]; [by left|right].
    destruct (reconciled_sources l es a f src Hf Hfrom) as (e & He & Hg & g & Hg' & Hgp).
    exists e. split; [done|]. split; [done|].
    rewrite Hg' in Hread. simpl in Hread. congruence.
  - exfalso.
    destruct (walk_scratch_records (length l) es (buildFileMap l) []) as [seen Hrec];
      [apply (reconciled_scratch_flags l [])| |done|by intros r ?%not_elem_of_nil|].
    { intros k' a' Hk' Hna. exfalso.
      pose proof (registered_buildFileMap l) as Hreg.
      destruct (reg_files _ _ Hreg _ _ Hk') as [Hl%lookup_lt_Some _]. lia. }
    destruct (Hrec k a Hk ltac:(lia)) as (_ & f' & Hf' & Hfrom & Hcr).
    unfold reconciled in Hf. rewrite Hf in Hf'. injection Hf' as <-.
    destruct Hdata as [(_ & ? & _)|(src & ? & _)]; congruence.
Qed.

(** X13. An error of the run is an error of a read or of a write, or it is
    the report of one record: the message names one expected path, whose
    record is ambiguous, followed by the hint about [go_package]. *)
Theorem X13_errors_of_the_run l es order log err :
  runIn l es order = (log, Some err) →
  (∃ q, writeFile q = Some err ∨ readFile q = inr err) ∨
  ∃ p a f, p ∈ l ∧ files (reconciled l es) !! p = Some a ∧
    heap (reconciled l es) !! a = Some f ∧ ambiguious f = true ∧
    err = errorString (ambiguityLine p +:+ hint quote importpath).
Proof.
  rewrite run_emits_reconciled. intros Hrun.
  apply emitLoop_failure in Hrun as
    (pre & k & post & a & f & logPre & ws & -> & Hk & Hf & _ & _ & Hcase).
  destruct Hcase as [Hio|(_ & Hexp & Hcr & Hamb & ->)].
  { left. by eapply emitSwitch_error. }
  right. destruct (decide (a < length l)) as [Hlt|Hge].
  - destruct (registry_cell l es a f Hlt Hf) as (p & Hp & Hpath & _ & Hkey).
    exists p, a, f. split; [apply list_elem_of_lookup; eauto|].
    rewrite <- (Hkey k Hk). split; [done|]. split; [done|]. split; [done|].
    by rewrite Hpath, (Hkey k Hk).
  - exfalso. destruct (reconciled_scratch_flags l es) as (_ & _ & Hflags).
    specialize (Hflags a f ltac:(lia) Hf). by rewrite Hexp, Hamb in Hflags.
Qed.

End WrittenFiles.

(** ** Scratch trees that hold expected paths only *)

Section ExpectedOnly.

Variable abs : string → string.
Variable readFile : string → string + error.
Variable writeFile : string → option error.
Variable quote : string → string.
Variable importpath : string.

Local Abbreviation runIn := (run abs readFile writeFile quote importpath).

Implicit Types (st : state) (l order : list string) (e : entry) (es : list entry).

Lemma walkFn_unambiguous l st e :
  (∀ r, generated e = Some r → r ∈ l) →
  unambiguous l st → unambiguous l (walkFn st e).1.
Proof.
  intros He (Hwf & Hkeys & Hamb). split; [by apply walkFn_wf|]. split.
  - intros p Hp. destruct (Hkeys p Hp) as [a Ha].
    exists a. apply walkFn_files_old; [done| |done]. by eapply wf_files.
  - intros a f Hf. destruct (heap st !! a) as [f0|] eqn:Hf0.
    + rewrite (walkFn_cell st e a f0 Hf0) in Hf. injection Hf as <-.
      specialize (Hamb a f0 Hf0). unfold cell_after.
      destruct (generated e) as [r|] eqn:Hg; [|done].
      destruct (Hkeys r (He r eq_refl)) as [found ->]. by case_decide.
    + apply lookup_ge_None in Hf0. pose proof (lookup_lt_Some _ _ _ Hf) as Hlt.
      rewrite walkFn_length in Hlt. destruct (generated e) as [r|] eqn:Hg; [|lia].
      assert (a = length (heap st)) as -> by lia.
      rewrite (walkFn_new_cell st e r Hwf Hg) in Hf. injection Hf as <-.
      unfold new_cell. rewrite Hg. simpl.
      by destruct (Hkeys r (He r eq_refl)) as [found ->].
Qed.

Lemma walk_unambiguous l es : ∀ st,
  Forall (λ e, ∀ r, generated e = Some r → r ∈ l) es →
  unambiguous l st → unambiguous l (walk st es).1.
Proof.
  induction es as [|e es IH]; intros st Hall Hun; simpl; [done|].
  apply Forall_cons in Hall as [He Hall].
  pose proof (walkFn_unambiguous l st e He Hun) as Hun1.
  destruct (walkFn st e) as [st1 [err|]]; simpl in *; [done|]. by apply IH.
Qed.

(** X16. When every regular [.go] file of the scratch tree is at an expected
    path, every one of them is an exact match: no record is ever marked
    ambiguous, [files] gets no key besides the expected paths, and, when
    the reads and writes succeed, the run returns no error in whatever
    order the map is enumerated. *)
Theorem X16_expected_paths_only l es order :
  Forall (λ r, r ∈ l) (omap generated es) →
  (∀ q, writeFile q = None) →
  (∀ q, ∃ data, readFile q = inl data) →
  iteration_order (reconciled l es) order →
  (∀ a f, heap (reconciled l es) !! a = Some f → ambiguious f = false) ∧
  (∀ k, k ∈ order ↔ k ∈ l) ∧
  (runIn l es order).2 = None.
Proof.
  intros Hall Hw Hr Ho.
  assert (Forall (λ e, ∀ r, generated e = Some r → r ∈ l) es) as Hall'.
  { apply Forall_forall. intros e He r Hg. rewrite Forall_forall in Hall.
    apply Hall, list_elem_of_omap. by exists e. }
  assert (unambiguous l (reconciled l es)) as (_ & Hkeys & Hamb).
  { apply walk_unambiguous; [done|].
    pose proof (registered_buildFileMap l) as Hreg.
    split; [by eapply registered_wf|].
    split; [intros p Hp; by apply (registered_lookup l _ p Hreg)|].
    intros a f Hf. pose proof (lookup_lt_Some _ _ _ Hf) as Hlt.
    rewrite (reg_length _ _ Hreg) in Hlt.
    destruct (lookup_lt_is_Some_2 _ _ Hlt) as [p Hp].
    destruct (reg_cell _ _ Hreg _ _ Hp) as (f0 & Hf0 & Hfresh & _).
    rewrite Hf in Hf0. injection Hf0 as <-.
    apply (f_equal ambiguious) in Hfresh. by simpl in Hfresh. }
  split; [done|]. split.
  - intros k. rewrite (iteration_order_keys _ _ k Ho). split; [|by apply Hkeys].
    intros [a Ha]. destruct (files (buildFileMap l) !! k) as [a0|] eqn:Ha0.
    + apply buildFileMap_keys. by rewrite Ha0.
    + exfalso.
      assert (files (reconciled l es) !! k = None) as Hnone; [|congruence].
      apply walk_files_None; [done|]. intros e He Hg.
      rewrite Forall_forall in Hall'. specialize (Hall' e He k Hg).
      apply buildFileMap_keys in Hall' as [? ?]. congruence.
  - apply (run_error_iff abs readFile writeFile quote importpath l es order Hw Hr Ho).
    intros k a f _ Hf. by rewrite (Hamb a f Hf), andb_false_r.
Qed.

End ExpectedOnly.

(** ** The further properties at concrete inputs *)

Section MoreInstances.

Local Abbreviation emitSwitchScenario := (emitSwitch abs readFile writeFile).
Local Abbreviation emittedScenario := (emitted abs readFile writeFile).

(** C3, as amended, where a/svc.pb.go is visited before the exact match
    out/svc.pb.go; and where b/svc.pb.go is visited after the exact match
    a/svc.pb.go, which marks the record. *)
Lemma C3_exact_match_witness :
  ("out/svc.pb.go" ∈ expectedOut ∧
   generated (file "out/svc.pb.go") = Some "out/svc.pb.go" ∧
   (walk (buildFileMap expectedOut) scratchBefore).2 = None ∧
   Forall (λ e', generated e' ≠ Some "out/svc.pb.go") (scratchBefore ++ []) ∧
   ∃ a f src,
     files (reconciled expectedOut (scratchBefore ++ file "out/svc.pb.go" :: []))
       !! "out/svc.pb.go" = Some a ∧
     heap (reconciled expectedOut (scratchBefore ++ file "out/svc.pb.go" :: []))
       !! a = Some f ∧
     path f = "out/svc.pb.go" ∧ created f = true ∧ from f = Some src ∧
     source_of (heap (reconciled expectedOut
                        (scratchBefore ++ file "out/svc.pb.go" :: [])))
               src (file "out/svc.pb.go") ∧
     ambiguious f = false ∧
     emitSwitchScenario
       (heap (reconciled expectedOut
                (scratchBefore ++ file "out/svc.pb.go" :: []))) f ""
     = ([(abs "out/svc.pb.go", "content of " +:+ tmpDir +:+ "/out/svc.pb.go")],
        "", None)) ∧
  ("a/svc.pb.go" ∈ expectedExact ∧
   generated (file "a/svc.pb.go") = Some "a/svc.pb.go" ∧
   (walk (buildFileMap expectedExact) [root; dir "a"]).2 = None ∧
   Forall (λ e', generated e' ≠ Some "a/svc.pb.go")
          ([root; dir "a"] ++ [dir "b"; file "b/svc.pb.go"]) ∧
   ∃ a f,
     files (reconciled expectedExact
              ([root; dir "a"] ++ file "a/svc.pb.go" :: [dir "b"; file "b/svc.pb.go"]))
       !! "a/svc.pb.go" = Some a ∧
     heap (reconciled expectedExact
             ([root; dir "a"] ++ file "a/svc.pb.go" :: [dir "b"; file "b/svc.pb.go"]))
       !! a = Some f ∧
     created f = true ∧ ambiguious f = true ∧
     (∀ buf,
        emitSwitchScenario
          (heap (reconciled expectedExact
                   ([root; dir "a"] ++
                    file "a/svc.pb.go" :: [dir "b"; file "b/svc.pb.go"]))) f buf
        = ([], buf +:+ ambiguityLine "a/svc.pb.go", None)) ∧
     ∀ order,
       iteration_order
         (reconciled expectedExact
            ([root; dir "a"] ++ file "a/svc.pb.go" :: [dir "b"; file "b/svc.pb.go"]))
         order →
       ∃ log err,
         runScenario expectedExact
           ([root; dir "a"] ++ file "a/svc.pb.go" :: [dir "b"; file "b/svc.pb.go"])
           order = (log, Some err)).
Proof.
  split.
  - split; [settle|]. split; [settle|]. split; [settle|]. split; [settle|].
    destruct (C3_exact_match_outcome abs readFile writeFile quote importpath
                expectedOut scratchBefore (file "out/svc.pb.go") [] "out/svc.pb.go")
      as (a & f & src & Ha & Hf & Hpath & Hcr & Hfrom & Hsrc & Hclear & _ & Hcopy & _);
      [settle..|].
    assert (ambiguious f = false) as Hamb.
    { apply Hclear. right. split; settle. }
    exists a, f, src. repeat (split; [done|]).
    apply (Hcopy _ Hamb); settle.
  - split; [settle|]. split; [settle|]. split; [settle|]. split; [settle|].
    destruct (C3_exact_match_outcome abs readFile writeFile quote importpath
                expectedExact [root; dir "a"] (file "a/svc.pb.go")
                [dir "b"; file "b/svc.pb.go"] "a/svc.pb.go")
      as (a & f & src & Ha & Hf & _ & Hcr & _ & _ & _ & Hmark & _ & Hreport & _);
      [settle..|].
    assert (ambiguious f = true) as Hamb.
    { apply (Hmark ltac:(settle)
               ([root; dir "a"] ++ file "a/svc.pb.go" :: [dir "b"])
               (file "b/svc.pb.go") [] "b/svc.pb.go"); [settle..|].
      left. by exists [dir "b"]. }
    exists a, f. repeat (split; [done|]). by apply Hreport.
Defined.

(** X2 for a/foo.gen.go, whose basename b/foo.gen.go has too. *)
Lemma X2_unique_witness :
  files (reconciled expectedFoo scratchFoo) !! "a/foo.gen.go" = Some 0 ∧
  heap (reconciled expectedFoo scratchFoo) !! 0
    = Some (GenFileInfo "foo.gen.go" "a/foo.gen.go" true false None false false) ∧
  "a/foo.gen.go" ∈ expectedFoo ∧
  (unique (GenFileInfo "foo.gen.go" "a/foo.gen.go" true false None false false) = true ↔
   length (filter (λ q, Base q = Base "a/foo.gen.go") expectedFoo) = 1).
Proof.
  split; [settle|]. split; [settle|]. split; [settle|].
  apply (X2_unique_iff_single_basename expectedFoo scratchFoo "a/foo.gen.go" 0); settle.
Defined.

(** X4 for a scratch tree that holds one empty directory. *)
Lemma X4_nothing_generated_witness :
  Forall (λ e, generated e = None) scratchX ∧
  Forall (λ p, writeFile (abs p) = None) expectedFoo ∧
  iteration_order (reconciled expectedFoo scratchX) ["b/foo.gen.go"; "a/foo.gen.go"] ∧
  runScenario expectedFoo scratchX ["b/foo.gen.go"; "a/foo.gen.go"]
    = ((λ p, (abs p, placeholder)) <$> ["b/foo.gen.go"; "a/foo.gen.go"], None) ∧
  NoDup ["b/foo.gen.go"; "a/foo.gen.go"] ∧
  ∀ p, p ∈ ["b/foo.gen.go"; "a/foo.gen.go"] ↔ p ∈ expectedFoo.
Proof.
  split; [settle|]. split; [by repeat constructor|]. split; [settle|].
  apply (X4_nothing_generated abs readFile writeFile quote importpath);
    first [settle | by repeat constructor].
Defined.

(** X5 for a directory that cannot be made. *)
Lemma X5_walk_ends_witness :
  (walk (buildFileMap expectedSub) [root]).2 = None ∧
  (e_rel (dirDenied "sub") = inr (PathError "mkdir" "/out/sub" EACCES) ∨
   ∃ r, e_rel (dirDenied "sub") = inl r ∧ r ≠ "." ∧ e_isDir (dirDenied "sub") = true ∧
        e_mkdir (dirDenied "sub") = Some (PathError "mkdir" "/out/sub" EACCES) ∧
        IsExist (Some (PathError "mkdir" "/out/sub" EACCES)) = false) ∧
  walk (buildFileMap expectedSub) ([root] ++ dirDenied "sub" :: [file "sub/x.pb.go"])
    = (reconciled expectedSub [root], Some (PathError "mkdir" "/out/sub" EACCES)) ∧
  runScenario expectedSub ([root] ++ dirDenied "sub" :: [file "sub/x.pb.go"])
      ["sub/x.pb.go"]
    = runScenario expectedSub [root] ["sub/x.pb.go"].
Proof.
  assert (e_rel (dirDenied "sub") = inr (PathError "mkdir" "/out/sub" EACCES) ∨
   ∃ r, e_rel (dirDenied "sub") = inl r ∧ r ≠ "." ∧ e_isDir (dirDenied "sub") = true ∧
        e_mkdir (dirDenied "sub") = Some (PathError "mkdir" "/out/sub" EACCES) ∧
        IsExist (Some (PathError "mkdir" "/out/sub" EACCES)) = false) as Hcase.
  { right. exists "sub". repeat split; settle. }
  split; [settle|]. split; [exact Hcase|].
  apply (X5_walk_ends_at_first_error abs readFile writeFile quote importpath);
    [settle|exact Hcase].
Defined.

(** X6 for a directory that was there already. *)
Lemma X6_passed_over_witness :
  e_rel (Entry (tmpDir +:+ "/x") (inl "x") true (Some (PathError "mkdir" "/out/x" EEXIST)))
    = inl "x" ∧
  ("x" = "." ∨
   e_isDir (Entry (tmpDir +:+ "/x") (inl "x") true
              (Some (PathError "mkdir" "/out/x" EEXIST))) = true ∧
   (e_mkdir (Entry (tmpDir +:+ "/x") (inl "x") true
               (Some (PathError "mkdir" "/out/x" EEXIST))) = None ∨
    IsExist (e_mkdir (Entry (tmpDir +:+ "/x") (inl "x") true
                        (Some (PathError "mkdir" "/out/x" EEXIST)))) = true) ∨
   e_isDir (Entry (tmpDir +:+ "/x") (inl "x") true
              (Some (PathError "mkdir" "/out/x" EEXIST))) = false ∧
   HasSuffix (e_path (Entry (tmpDir +:+ "/x") (inl "x") true
                        (Some (PathError "mkdir" "/out/x" EEXIST)))) ".go" = false) ∧
  walk (buildFileMap expectedFoo)
       ([root] ++ Entry (tmpDir +:+ "/x") (inl "x") true
                    (Some (PathError "mkdir" "/out/x" EEXIST)) :: [file "x/foo.gen.go"])
    = walk (buildFileMap expectedFoo) ([root] ++ [file "x/foo.gen.go"]) ∧
  runScenario expectedFoo
       ([root] ++ Entry (tmpDir +:+ "/x") (inl "x") true
                    (Some (PathError "mkdir" "/out/x" EEXIST)) :: [file "x/foo.gen.go"])
       ["a/foo.gen.go"; "b/foo.gen.go"; "x/foo.gen.go"]
    = runScenario expectedFoo ([root] ++ [file "x/foo.gen.go"])
        ["a/foo.gen.go"; "b/foo.gen.go"; "x/foo.gen.go"].
Proof.
  split; [settle|]. split; [right; left; split; [settle|right; settle]|].
  apply (X6_passed_over_entries abs readFile writeFile quote importpath
           expectedFoo [root] _ [file "x/foo.gen.go"] "x"); [settle|].
  right; left; split; [settle|right; settle].
Defined.

(** X7 for the scratch tree that holds x/foo.gen.go. *)
Lemma X7_keys_witness :
  (walk (buildFileMap expectedFoo) scratchFoo).2 = None ∧
  (is_Some (files (reconciled expectedFoo scratchFoo) !! "x/foo.gen.go") ↔
   "x/foo.gen.go" ∈ expectedFoo ∨
   ∃ e, e ∈ scratchFoo ∧ generated e = Some "x/foo.gen.go").
Proof.
  split; [settle|].
  apply (X7_keys_after_walk expectedFoo scratchFoo "x/foo.gen.go"). settle.
Defined.

(** X8 for out/svc.pb.go, bound to generated/svc.pb.go. *)
Lemma X8_record_states_witness :
  "out/svc.pb.go" ∈ expectedSvc ∧
  ∃ a f, files (reconciled expectedSvc scratchSvc) !! "out/svc.pb.go" = Some a ∧
    heap (reconciled expectedSvc scratchSvc) !! a = Some f ∧
    path f = "out/svc.pb.go" ∧ expected f = true ∧
    (created f = true ↔ is_Some (from f)) ∧
    (ambiguious f = true → unique f = true ∧ created f = true) ∧
    ∀ ws, emittedScenario (heap (reconciled expectedSvc scratchSvc)) f ws →
          ∃ data, ws = [(abs "out/svc.pb.go", data)].
Proof.
  split; [settle|].
  apply (X8_expected_record_states abs readFile writeFile). settle.
Defined.

(** X9 for out/svc.pb.go and a scratch tree without any [.go] file. *)
Lemma X9_missing_output_witness :
  "out/svc.pb.go" ∈ expectedSvc ∧
  Forall (λ e, generated e ≠ Some "out/svc.pb.go" ∧
               ¬ candidate (Base "out/svc.pb.go") e) scratchX ∧
  ∃ a f, files (reconciled expectedSvc scratchX) !! "out/svc.pb.go" = Some a ∧
    heap (reconciled expectedSvc scratchX) !! a = Some f ∧
    created f = false ∧ from f = None ∧ ambiguious f = false ∧
    (∀ buf, writeFile (abs "out/svc.pb.go") = None →
       emitSwitchScenario (heap (reconciled expectedSvc scratchX)) f buf
         = ([(abs "out/svc.pb.go", placeholder)], buf, None)) ∧
    ∀ order log,
      iteration_order (reconciled expectedSvc scratchX) order →
      runScenario expectedSvc scratchX order = (log, None) →
      (abs "out/svc.pb.go", placeholder) ∈ log.
Proof.
  split; [settle|]. split; [settle|].
  apply (X9_missing_output_placeholder abs readFile writeFile quote importpath);
    settle.
Defined.

(** X10 for out/svc.pb.go and generated/svc.pb.go. *)
Lemma X10_single_candidate_witness :
  "out/svc.pb.go" ∈ expectedSvc ∧
  length (filter (λ q, Base q = Base "out/svc.pb.go") expectedSvc) = 1 ∧
  generated (file "generated/svc.pb.go") = Some "generated/svc.pb.go" ∧
  ("generated/svc.pb.go" ∉ expectedSvc) ∧
  Base (e_path (file "generated/svc.pb.go")) = Base "out/svc.pb.go" ∧
  (walk (buildFileMap expectedSvc) [root; dir "generated"]).2 = None ∧
  Forall (λ e', generated e' ≠ Some "out/svc.pb.go" ∧
                generated e' ≠ Some "generated/svc.pb.go" ∧
                ¬ candidate (Base "out/svc.pb.go") e')
         ([root; dir "generated"] ++ []) ∧
  ∃ a f src,
    files (reconciled expectedSvc
             ([root; dir "generated"] ++ file "generated/svc.pb.go" :: []))
      !! "out/svc.pb.go" = Some a ∧
    heap (reconciled expectedSvc
            ([root; dir "generated"] ++ file "generated/svc.pb.go" :: [])) !! a
      = Some f ∧
    created f = true ∧ ambiguious f = false ∧ from f = Some src ∧
    source_of (heap (reconciled expectedSvc
                       ([root; dir "generated"] ++ file "generated/svc.pb.go" :: [])))
              src (file "generated/svc.pb.go") ∧
    ∀ order log,
      iteration_order
        (reconciled expectedSvc
           ([root; dir "generated"] ++ file "generated/svc.pb.go" :: [])) order →
      runScenario expectedSvc
        ([root; dir "generated"] ++ file "generated/svc.pb.go" :: []) order
        = (log, None) →
      ∃ data, readFile (e_path (file "generated/svc.pb.go")) = inl data ∧
              (abs "out/svc.pb.go", data) ∈ log.
Proof.
  split; [settle|]. split; [settle|]. split; [settle|]. split; [settle|].
  split; [settle|]. split; [settle|]. split; [settle|].
  apply (X10_single_candidate_is_bound abs readFile writeFile quote importpath
           expectedSvc [root; dir "generated"] (file "generated/svc.pb.go") []
           "out/svc.pb.go" "generated/svc.pb.go"); settle.
Defined.

(** X11 for a/x.pb.go, with p/x.pb.go and q/x.pb.go in the scratch tree. *)
Lemma X11_two_candidates_witness :
  "a/x.pb.go" ∈ expectedXYZ ∧
  length (filter (λ q, Base q = Base "a/x.pb.go") expectedXYZ) = 1 ∧
  generated (file "p/x.pb.go") = Some "p/x.pb.go" ∧
  ("p/x.pb.go" ∉ expectedXYZ) ∧
  Base (e_path (file "p/x.pb.go")) = Base "a/x.pb.go" ∧
  generated (file "q/x.pb.go") = Some "q/x.pb.go" ∧
  ("q/x.pb.go" ∉ expectedXYZ) ∧
  Base (e_path (file "q/x.pb.go")) = Base "a/x.pb.go" ∧
  Forall (λ e', generated e' ≠ Some "p/x.pb.go") [root; dir "p"] ∧
  Forall (λ e', generated e' ≠ Some "q/x.pb.go")
         ([root; dir "p"] ++ file "p/x.pb.go" :: [file "p/y.pb.go"; dir "q"]) ∧
  (walk (buildFileMap expectedXYZ)
        ([root; dir "p"] ++ file "p/x.pb.go" :: [file "p/y.pb.go"; dir "q"])).2 = None ∧
  ∃ a f,
    files (reconciled expectedXYZ
             (([root; dir "p"] ++ file "p/x.pb.go" :: [file "p/y.pb.go"; dir "q"]) ++
              file "q/x.pb.go" :: [file "q/y.pb.go"])) !! "a/x.pb.go" = Some a ∧
    heap (reconciled expectedXYZ
            (([root; dir "p"] ++ file "p/x.pb.go" :: [file "p/y.pb.go"; dir "q"]) ++
             file "q/x.pb.go" :: [file "q/y.pb.go"])) !! a = Some f ∧
    expected f = true ∧ created f = true ∧ ambiguious f = true ∧
    (∀ buf,
       emitSwitchScenario
         (heap (reconciled expectedXYZ
                  (([root; dir "p"] ++ file "p/x.pb.go" :: [file "p/y.pb.go"; dir "q"]) ++
                   file "q/x.pb.go" :: [file "q/y.pb.go"]))) f buf
       = ([], buf +:+ ambiguityLine "a/x.pb.go", None)) ∧
    ∀ order,
      iteration_order
        (reconciled expectedXYZ
           (([root; dir "p"] ++ file "p/x.pb.go" :: [file "p/y.pb.go"; dir "q"]) ++
            file "q/x.pb.go" :: [file "q/y.pb.go"])) order →
      ∃ log err,
        runScenario expectedXYZ
          (([root; dir "p"] ++ file "p/x.pb.go" :: [file "p/y.pb.go"; dir "q"]) ++
           file "q/x.pb.go" :: [file "q/y.pb.go"]) order = (log, Some err).
Proof.
  split; [settle|]. split; [settle|]. split; [settle|]. split; [settle|].
  split; [settle|]. split; [settle|]. split; [settle|]. split; [settle|].
  split; [settle|]. split; [settle|]. split; [settle|].
  apply (X11_two_candidates_are_ambiguous abs readFile writeFile quote importpath
           expectedXYZ [root; dir "p"] (file "p/x.pb.go") [file "p/y.pb.go"; dir "q"]
           (file "q/x.pb.go") [file "q/y.pb.go"] "a/x.pb.go" "p/x.pb.go" "q/x.pb.go");
    settle.
Defined.

(** X12 for the file written at out/svc.pb.go. *)
Lemma X12_writes_witness :
  NoDup (omap generated scratchSvc) ∧
  (abs "out/svc.pb.go", "content of " +:+ tmpDir +:+ "/generated/svc.pb.go")
    ∈ (runScenario expectedSvc scratchSvc ["out/svc.pb.go"; "generated/svc.pb.go"]).1 ∧
  ∃ p, p ∈ expectedSvc ∧
    (abs "out/svc.pb.go", "content of " +:+ tmpDir +:+ "/generated/svc.pb.go").1 = abs p ∧
    ((abs "out/svc.pb.go", "content of " +:+ tmpDir +:+ "/generated/svc.pb.go").2
       = placeholder ∨
     ∃ e, e ∈ scratchSvc ∧ is_Some (generated e) ∧
       readFile (e_path e)
         = inl (abs "out/svc.pb.go",
                "content of " +:+ tmpDir +:+ "/generated/svc.pb.go").2).
Proof.
  split; [settle|]. split; [settle|].
  apply (X12_writes_at_expected_paths_only abs readFile writeFile quote importpath
           expectedSvc scratchSvc ["out/svc.pb.go"; "generated/svc.pb.go"]); settle.
Defined.

(** X13 for the run that reports a/svc.pb.go. *)
Lemma X13_errors_witness :
  runScenario expectedExact scratchExact ["a/svc.pb.go"; "b/svc.pb.go"]
    = ([], Some (message "a/svc.pb.go")) ∧
  ((∃ q, writeFile q = Some (message "a/svc.pb.go") ∨
         readFile q = inr (message "a/svc.pb.go")) ∨
   ∃ p a f, p ∈ expectedExact ∧
     files (reconciled expectedExact scratchExact) !! p = Some a ∧
     heap (reconciled expectedExact scratchExact) !! a = Some f ∧
     ambiguious f = true ∧
     message "a/svc.pb.go" = errorString (ambiguityLine p +:+ hint quote importpath)).
Proof.
  split; [settle|].
  apply (X13_errors_of_the_run abs readFile writeFile quote importpath
           expectedExact scratchExact ["a/svc.pb.go"; "b/svc.pb.go"] []). settle.
Defined.

(** X14 for two enumeration orders of the run of C6. *)
Lemma X14_any_order_witness :
  iteration_order (reconciled expectedFoo scratchFoo)
    ["a/foo.gen.go"; "b/foo.gen.go"; "x/foo.gen.go"] ∧
  iteration_order (reconciled expectedFoo scratchFoo)
    ["x/foo.gen.go"; "b/foo.gen.go"; "a/foo.gen.go"] ∧
  runScenario expectedFoo scratchFoo ["a/foo.gen.go"; "b/foo.gen.go"; "x/foo.gen.go"]
    = ([(abs "a/foo.gen.go", placeholder); (abs "b/foo.gen.go", placeholder)], None) ∧
  ∃ log2,
    runScenario expectedFoo scratchFoo ["x/foo.gen.go"; "b/foo.gen.go"; "a/foo.gen.go"]
      = (log2, None) ∧
    log2 ≡ₚ [(abs "a/foo.gen.go", placeholder); (abs "b/foo.gen.go", placeholder)].
Proof.
  split; [settle|]. split; [settle|]. split; [settle|].
  apply (X14_success_in_any_order abs readFile writeFile quote importpath
           expectedFoo scratchFoo
           ["a/foo.gen.go"; "b/foo.gen.go"; "x/foo.gen.go"]); settle.
Defined.

(** X15 in the file system of [Scenario], where nothing fails. *)
Lemma X15_error_iff_witness :
  (∀ q, writeFile q = None) ∧
  (∀ q, ∃ data, readFile q = inl data) ∧
  iteration_order (reconciled expectedExact scratchExact)
    ["a/svc.pb.go"; "b/svc.pb.go"] ∧
  ((runScenario expectedExact scratchExact ["a/svc.pb.go"; "b/svc.pb.go"]).2 = None ↔
   ∀ k a f, files (reconciled expectedExact scratchExact) !! k = Some a →
     heap (reconciled expectedExact scratchExact) !! a = Some f →
     expected f && created f && ambiguious f = false).
Proof.
  split; [done|]. split; [intros q; by eexists|]. split; [settle|].
  apply (X15_error_iff_ambiguous_record abs readFile writeFile quote importpath);
    [done|intros q; by eexists|settle].
Defined.

(** X16 for a scratch tree that holds a/svc.pb.go only. *)
Lemma X16_expected_only_witness :
  Forall (λ r, r ∈ expectedExact) (omap generated [root; dir "a"; file "a/svc.pb.go"]) ∧
  (∀ q, writeFile q = None) ∧
  (∀ q, ∃ data, readFile q = inl data) ∧
  iteration_order (reconciled expectedExact [root; dir "a"; file "a/svc.pb.go"])
    ["a/svc.pb.go"] ∧
  (∀ a f, heap (reconciled expectedExact [root; dir "a"; file "a/svc.pb.go"]) !! a
            = Some f → ambiguious f = false) ∧
  (∀ k, k ∈ ["a/svc.pb.go"] ↔ k ∈ expectedExact) ∧
  (runScenario expectedExact [root; dir "a"; file "a/svc.pb.go"] ["a/svc.pb.go"]).2
    = None.
Proof.
  split; [settle|]. split; [done|]. split; [intros q; by eexists|].
  split; [settle|].
  apply (X16_expected_paths_only abs readFile writeFile quote importpath);
    [settle|done|intros q; by eexists|settle].
Defined.

End MoreInstances.
